(** * DSC: the incidence-structure mesh API ([is_mesh/is_mesh_API.h])

    A shallow embedding of the [ISMesh] class: the flag propagation engine
    ([update], [update_flag]), the intersection based look-ups ([get_edge],
    [get_face], [get_tet]), [set_label], and the Euler operators [split],
    [collapse] and [flip_32].

    The class wraps a [t4mesh] kernel that lives in [is_mesh/is_mesh.h].
    That header is not part of the sources at hand; the pieces of it the API
    calls are either modelled from the specification (keys, pools, simplex
    sets, [star], [closure], [link]) or taken as section variables
    ([split_edge_helper], [split_tetrahedron], [edge_collapse_helper]).  For
    [split] on a tetrahedron a 1-to-4 subdivision is modelled as well, as a
    kernel on which the operation can be run.

    Beside these the file covers the key-vector templates ([difference],
    [uni], [intersection]), the incidence queries ([get_tets], [get_faces],
    [get_apex], [is_neighbour], the face and tetrahedron overloads of
    [get_edge] and [get_face]), [split] on a face, [flip_44], and the two
    functions of [src/util.h] that do no floating-point arithmetic. *)

From stdpp Require Import base option list gmap strings pretty.
From Stdlib Require Import ZArith Lia Ascii.

Local Open Scope Z_scope.

(** ** Keys *)

(** Modelled from the spec: the key classes ([NodeKey], [EdgeKey], [FaceKey],
    [TetrahedronKey]) are declared in the missing kernel headers.  A key is an
    index into its pool; the default-constructed key is the explicit invalid
    sentinel, here [None].  The four key classes share this representation. *)
Definition key : Type := option nat.

Abbreviation node_key := key (only parsing).
Abbreviation edge_key := key (only parsing).
Abbreviation face_key := key (only parsing).
Abbreviation tet_key := key (only parsing).

Definition NodeKey : node_key := None.
Definition EdgeKey : edge_key := None.
Definition FaceKey : face_key := None.
Definition TetrahedronKey : tet_key := None.

Definition is_valid (k : key) : bool :=
  match k with Some _ => true | None => false end.

(** ** Key vectors

    The three member templates [difference], [uni] and [intersection] of the
    API work on [std::vector]s of keys of any kind; [std::find(...) == end()]
    is a membership test and [push_back] appends. *)
Module KeyVectors.
Section Vectors.
Context {K : Type} `{EqDecision K}.

(** [if (std::find(keys.begin(), keys.end(), k) == keys.end()) keys.push_back(k)] *)
Definition push_new (keys : list K) (k : K) : list K :=
  if decide (k ∈ keys) then keys else keys ++ [k].

Definition difference (keys1 keys2 : list K) : list K :=
  let keys := foldl (λ keys k1, if decide (k1 ∈ keys2) then keys else keys ++ [k1]) [] keys1 in
  foldl (λ keys k2, if decide (k2 ∈ keys1) then keys else keys ++ [k2]) keys keys2.

Definition uni (keys1 keys2 : list K) : list K :=
  let keys := foldl push_new [] keys1 in
  foldl push_new keys keys2.

Definition intersection (keys1 keys2 : list K) : list K :=
  foldl (λ keys k1, if decide (k1 ∈ keys2) then keys ++ [k1] else keys) [] keys1.

End Vectors.
End KeyVectors.

(** ** Simplices and the four pools *)

Section Kernel.

(** Positions are a trait of the node type ([node_traits::vec3]). *)
Context {vec3 : Type}.

Record node_type : Type := mk_node {
  n_pos : vec3;
  n_co_boundary : list edge_key;
  n_interface : bool;
  n_boundary : bool;
  n_crossing : bool }.

Record edge_type : Type := mk_edge {
  e_nodes : list node_key;
  e_co_boundary : list face_key;
  e_interface : bool;
  e_boundary : bool;
  e_crossing : bool }.

Record face_type : Type := mk_face {
  f_edges : list edge_key;
  f_co_boundary : list tet_key;
  f_interface : bool;
  f_boundary : bool }.

Record tetrahedron_type : Type := mk_tet {
  t_faces : list face_key;
  t_label : Z }.

(** Modelled from the spec: the four object pools of [t4mesh].  A key exists
    when its index is bound in the pool. *)
Record Mesh : Type := mk_mesh {
  nodes : gmap nat node_type;
  edges : gmap nat edge_type;
  faces : gmap nat face_type;
  tetrahedra : gmap nat tetrahedron_type }.

Definition find_node (m : Mesh) (k : node_key) : option node_type :=
  i ← k; nodes m !! i.
Definition find_edge (m : Mesh) (k : edge_key) : option edge_type :=
  i ← k; edges m !! i.
Definition find_face (m : Mesh) (k : face_key) : option face_type :=
  i ← k; faces m !! i.
Definition find_tetrahedron (m : Mesh) (k : tet_key) : option tetrahedron_type :=
  i ← k; tetrahedra m !! i.

Definition exists_node (m : Mesh) (k : node_key) : bool :=
  bool_decide (is_Some (find_node m k)).
Definition exists_edge (m : Mesh) (k : edge_key) : bool :=
  bool_decide (is_Some (find_edge m k)).
Definition exists_face (m : Mesh) (k : face_key) : bool :=
  bool_decide (is_Some (find_face m k)).
Definition exists_tet (m : Mesh) (k : tet_key) : bool :=
  bool_decide (is_Some (find_tetrahedron m k)).

(** Writing a record back into its pool. *)
Definition put_node (k : node_key) (x : node_type) (m : Mesh) : option Mesh :=
  i ← k; Some (mk_mesh (<[i:=x]> (nodes m)) (edges m) (faces m) (tetrahedra m)).
Definition put_edge (k : edge_key) (x : edge_type) (m : Mesh) : option Mesh :=
  i ← k; Some (mk_mesh (nodes m) (<[i:=x]> (edges m)) (faces m) (tetrahedra m)).
Definition put_face (k : face_key) (x : face_type) (m : Mesh) : option Mesh :=
  i ← k; Some (mk_mesh (nodes m) (edges m) (<[i:=x]> (faces m)) (tetrahedra m)).
Definition put_tet (k : tet_key) (x : tetrahedron_type) (m : Mesh) : option Mesh :=
  i ← k; Some (mk_mesh (nodes m) (edges m) (faces m) (<[i:=x]> (tetrahedra m))).

(** ** Simplex sets *)

(** Modelled from the spec: [simplex_set] holds four insertion-ordered sets of
    keys, each key at most once per level. *)
Record simplex_set : Type := mk_set {
  set_nodes : list node_key;
  set_edges : list edge_key;
  set_faces : list face_key;
  set_tets : list tet_key }.

Definition empty_set : simplex_set := mk_set [] [] [] [].

Definition contains (k : key) (l : list key) : bool := bool_decide (k ∈ l).

Definition ins (k : key) (l : list key) : list key :=
  if contains k l then l else l ++ [k].

Definition ins_all (ks l : list key) : list key := foldl (λ acc k, ins k acc) l ks.

Definition era (k : key) (l : list key) : list key :=
  filter (λ x, x ≠ k) l.

Definition insert_node (k : node_key) (s : simplex_set) : simplex_set :=
  mk_set (ins k (set_nodes s)) (set_edges s) (set_faces s) (set_tets s).
Definition insert_edge_key (k : edge_key) (s : simplex_set) : simplex_set :=
  mk_set (set_nodes s) (ins k (set_edges s)) (set_faces s) (set_tets s).
Definition insert_face_key (k : face_key) (s : simplex_set) : simplex_set :=
  mk_set (set_nodes s) (set_edges s) (ins k (set_faces s)) (set_tets s).
Definition insert_tet_key (k : tet_key) (s : simplex_set) : simplex_set :=
  mk_set (set_nodes s) (set_edges s) (set_faces s) (ins k (set_tets s)).

Definition erase_tet (k : tet_key) (s : simplex_set) : simplex_set :=
  mk_set (set_nodes s) (set_edges s) (set_faces s) (era k (set_tets s)).

Definition contains_tet (s : simplex_set) (k : tet_key) : bool :=
  contains k (set_tets s).

(** [s1.add(s2)]: keys present in either operand. *)
Definition set_union (s1 s2 : simplex_set) : simplex_set :=
  mk_set (ins_all (set_nodes s2) (set_nodes s1))
         (ins_all (set_edges s2) (set_edges s1))
         (ins_all (set_faces s2) (set_faces s1))
         (ins_all (set_tets s2) (set_tets s1)).

(** [s1.intersection(s2)]: keys present in both operands. *)
Definition keep (l2 l1 : list key) : list key :=
  filter (λ x, x ∈ l2) l1.

Definition intersection (s1 s2 : simplex_set) : simplex_set :=
  mk_set (keep (set_nodes s2) (set_nodes s1))
         (keep (set_edges s2) (set_edges s1))
         (keep (set_faces s2) (set_faces s1))
         (keep (set_tets s2) (set_tets s1)).

(** Removing the keys of the second operand from the first. *)
Definition drop (l2 l1 : list key) : list key :=
  filter (λ x, x ∉ l2) l1.

Definition set_minus (s1 s2 : simplex_set) : simplex_set :=
  mk_set (drop (set_nodes s2) (set_nodes s1))
         (drop (set_edges s2) (set_edges s1))
         (drop (set_faces s2) (set_faces s1))
         (drop (set_tets s2) (set_tets s1)).

Definition size_nodes (s : simplex_set) : nat := length (set_nodes s).
Definition size_edges (s : simplex_set) : nat := length (set_edges s).
Definition size_faces (s : simplex_set) : nat := length (set_faces s).
Definition size_tetrahedra (s : simplex_set) : nat := length (set_tets s).

(** Dereferencing a [begin()] iterator: an empty level has no first key. *)
Definition nodes_begin (s : simplex_set) : option node_key := head (set_nodes s).
Definition edges_begin (s : simplex_set) : option edge_key := head (set_edges s).
Definition faces_begin (s : simplex_set) : option face_key := head (set_faces s).
Definition tetrahedra_begin (s : simplex_set) : option tet_key := head (set_tets s).

(** ** Loops over key lists in the error monad *)

Fixpoint foldM {A B : Type} (f : B → A → option B) (b : B) (l : list A) : option B :=
  match l with
  | [] => Some b
  | a :: l' => b' ← f b a; foldM f b' l'
  end.

(** ** Topology navigator *)

(** Modelled from the spec: [t4mesh::star] collects every simplex that has the
    given simplex in its closure, walking the co-boundary lists upwards. *)
Definition star_tet (m : Mesh) (t : tet_key) : option simplex_set :=
  _ ← find_tetrahedron m t; Some (insert_tet_key t empty_set).

Definition star_face (m : Mesh) (f : face_key) : option simplex_set :=
  fc ← find_face m f;
  Some (mk_set [] [] [f] (ins_all (f_co_boundary fc) [])).

Definition star_edge (m : Mesh) (e : edge_key) : option simplex_set :=
  ec ← find_edge m e;
  foldM (λ s f, sf ← star_face m f; Some (set_union s sf))
        (insert_edge_key e empty_set) (e_co_boundary ec).

Definition star_node (m : Mesh) (n : node_key) : option simplex_set :=
  nc ← find_node m n;
  foldM (λ s e, se ← star_edge m e; Some (set_union s se))
        (insert_node n empty_set) (n_co_boundary nc).

(** Modelled from the spec: [t4mesh::closure] collects every simplex contained
    in the given simplex, walking the boundary lists downwards. *)
Definition closure_node (m : Mesh) (n : node_key) : option simplex_set :=
  _ ← find_node m n; Some (insert_node n empty_set).

Definition closure_edge (m : Mesh) (e : edge_key) : option simplex_set :=
  ec ← find_edge m e;
  foldM (λ s n, sn ← closure_node m n; Some (set_union s sn))
        (insert_edge_key e empty_set) (e_nodes ec).

Definition closure_face (m : Mesh) (f : face_key) : option simplex_set :=
  fc ← find_face m f;
  foldM (λ s e, se ← closure_edge m e; Some (set_union s se))
        (insert_face_key f empty_set) (f_edges fc).

Definition closure_tet (m : Mesh) (t : tet_key) : option simplex_set :=
  tc ← find_tetrahedron m t;
  foldM (λ s f, sf ← closure_face m f; Some (set_union s sf))
        (insert_tet_key t empty_set) (t_faces tc).

(** ** Flags and labels ([is_interface], [set_interface], ...)

    Every accessor goes through [get(k)], which fails on a key that does not
    exist. *)

Definition is_interface_node (m : Mesh) (k : node_key) : option bool :=
  n_interface <$> find_node m k.
Definition is_boundary_node (m : Mesh) (k : node_key) : option bool :=
  n_boundary <$> find_node m k.
Definition is_crossing_node (m : Mesh) (k : node_key) : option bool :=
  n_crossing <$> find_node m k.

Definition is_interface_edge (m : Mesh) (k : edge_key) : option bool :=
  e_interface <$> find_edge m k.
Definition is_boundary_edge (m : Mesh) (k : edge_key) : option bool :=
  e_boundary <$> find_edge m k.
Definition is_crossing_edge (m : Mesh) (k : edge_key) : option bool :=
  e_crossing <$> find_edge m k.

Definition is_interface_face (m : Mesh) (k : face_key) : option bool :=
  f_interface <$> find_face m k.
Definition is_boundary_face (m : Mesh) (k : face_key) : option bool :=
  f_boundary <$> find_face m k.

Definition get_label (m : Mesh) (t : tet_key) : option Z :=
  t_label <$> find_tetrahedron m t.

Definition set_interface_node (k : node_key) (b : bool) (m : Mesh) : option Mesh :=
  x ← find_node m k;
  put_node k (mk_node (n_pos x) (n_co_boundary x) b (n_boundary x) (n_crossing x)) m.
Definition set_boundary_node (k : node_key) (b : bool) (m : Mesh) : option Mesh :=
  x ← find_node m k;
  put_node k (mk_node (n_pos x) (n_co_boundary x) (n_interface x) b (n_crossing x)) m.
Definition set_crossing_node (k : node_key) (b : bool) (m : Mesh) : option Mesh :=
  x ← find_node m k;
  put_node k (mk_node (n_pos x) (n_co_boundary x) (n_interface x) (n_boundary x) b) m.

Definition set_interface_edge (k : edge_key) (b : bool) (m : Mesh) : option Mesh :=
  x ← find_edge m k;
  put_edge k (mk_edge (e_nodes x) (e_co_boundary x) b (e_boundary x) (e_crossing x)) m.
Definition set_boundary_edge (k : edge_key) (b : bool) (m : Mesh) : option Mesh :=
  x ← find_edge m k;
  put_edge k (mk_edge (e_nodes x) (e_co_boundary x) (e_interface x) b (e_crossing x)) m.
Definition set_crossing_edge (k : edge_key) (b : bool) (m : Mesh) : option Mesh :=
  x ← find_edge m k;
  put_edge k (mk_edge (e_nodes x) (e_co_boundary x) (e_interface x) (e_boundary x) b) m.

Definition set_interface_face (k : face_key) (b : bool) (m : Mesh) : option Mesh :=
  x ← find_face m k;
  put_face k (mk_face (f_edges x) (f_co_boundary x) b (f_boundary x)) m.
Definition set_boundary_face (k : face_key) (b : bool) (m : Mesh) : option Mesh :=
  x ← find_face m k;
  put_face k (mk_face (f_edges x) (f_co_boundary x) (f_interface x) b) m.

(** [get(t).label(label)] *)
Definition put_label (t : tet_key) (label : Z) (m : Mesh) : option Mesh :=
  x ← find_tetrahedron m t;
  put_tet t (mk_tet (t_faces x) label) m.

(** ** [get_tet(t, f)]: the tetrahedron on the other side of [f] *)

Fixpoint first_other (t : tet_key) (l : list tet_key) : tet_key :=
  match l with
  | [] => TetrahedronKey
  | x :: l' => if decide (x ≠ t) then x else first_other t l'
  end.

Definition get_tet (m : Mesh) (t : tet_key) (f : face_key) : option tet_key :=
  st_f ← star_face m f;
  Some (first_other t (set_tets st_f)).

(** ** [get_edge(n1, n2)] and [get_face(n1, n2, n3)] *)

Definition get_edge (m : Mesh) (n1 n2 : node_key) : option edge_key :=
  st1 ← star_node m n1;
  st2 ← star_node m n2;
  let st1 := intersection st1 st2 in
  if decide (size_edges st1 ≠ 1%nat) then Some EdgeKey
  else edges_begin st1.

Definition get_face (m : Mesh) (n1 n2 n3 : node_key) : option face_key :=
  st1 ← star_node m n1;
  st2 ← star_node m n2;
  st3 ← star_node m n3;
  let st1 := intersection st1 st2 in
  let st1 := intersection st1 st3 in
  if decide (size_faces st1 ≠ 1%nat) then Some FaceKey
  else faces_begin st1.

(** ** Flag propagation: [update_flag] *)

Definition update_flag_face (f : face_key) (m : Mesh) : option Mesh :=
  m ← set_interface_face f false m;
  m ← set_boundary_face f false m;
  st_f ← star_face m f;
  if decide (size_tetrahedra st_f = 1%nat) then
    m ← set_boundary_face f true m;
    t ← tetrahedra_begin st_f;
    l ← get_label m t;
    if decide (l ≠ 0) then set_interface_face f true m else Some m
  else if decide (size_tetrahedra st_f = 2%nat) then
    match set_tets st_f with
    | t0 :: t1 :: _ =>
        label0 ← get_label m t0;
        label1 ← get_label m t1;
        if decide (label0 ≠ label1) then set_interface_face f true m else Some m
    | _ => None
    end
  else Some m.

(** The body of the loop over the faces of [star(e)]; [i] counts the
    interface faces seen so far. *)
Definition update_flag_edge_body (e : edge_key) (mi : (Mesh * Z)%type) (fit : face_key)
  : option (Mesh * Z)%type :=
  let '(m, i) := mi in
  if exists_face m fit then
    b ← is_boundary_face m fit;
    m ← (if (b : bool) then set_boundary_edge e true m else Some m);
    itf ← is_interface_face m fit;
    if (itf : bool) then m ← set_interface_edge e true m; Some (m, i + 1)
    else Some (m, i)
  else Some (m, i).

Definition update_flag_edge (e : edge_key) (m : Mesh) : option Mesh :=
  m ← set_boundary_edge e false m;
  m ← set_interface_edge e false m;
  m ← set_crossing_edge e false m;
  st_e ← star_edge m e;
  mi ← foldM (update_flag_edge_body e) (m, 0) (set_faces st_e);
  let '(m, i) := mi in
  if decide (2 < i) then set_crossing_edge e true m else Some m.

(** [connected_component(st_n, t)] removes from [st_n] the tetrahedra reached
    from [t] through faces shared with a tetrahedron of the same label.  The
    recursion of the source is bounded here by [fuel]; every nested call
    erases one more tetrahedron of [st_n]. *)
Fixpoint connected_component (fuel : nat) (m : Mesh) (st_n : simplex_set) (t : tet_key)
  : option simplex_set :=
  match fuel with
  | O => None
  | S fuel' =>
      label ← get_label m t;
      let st_n := erase_tet t st_n in
      cl_t ← closure_tet m t;
      foldM (λ st_n fit,
          t2 ← get_tet m t fit;
          if contains_tet st_n t2 then
            label2 ← get_label m t2;
            if decide (label = label2) then connected_component fuel' m st_n t2
            else Some st_n
          else Some st_n)
        st_n (set_faces cl_t)
  end.

(** The [while] loop of [crossing]; it returns at the latest when [c] reaches 2. *)
Fixpoint crossing_loop (fuel : nat) (m : Mesh) (c : Z) (st_n : simplex_set) : option bool :=
  match fuel with
  | O => None
  | S fuel' =>
      if decide (0 < size_tetrahedra st_n)%nat then
        if decide (c = 2) then Some true
        else
          t ← tetrahedra_begin st_n;
          st_n ← connected_component (S (size_tetrahedra st_n)) m st_n t;
          crossing_loop fuel' m (c + 1) st_n
      else Some false
  end.

Definition crossing (m : Mesh) (n : node_key) : option bool :=
  st_n ← star_node m n;
  crossing_loop 3 m 0 st_n.

(** The body of the loop over the edges of [star(n)]. *)
Definition update_flag_node_body (n : node_key) (m : Mesh) (eit : edge_key) : option Mesh :=
  if exists_edge m eit then
    itf ← is_interface_edge m eit;
    m ← (if (itf : bool) then set_interface_node n true m else Some m);
    b ← is_boundary_edge m eit;
    m ← (if (b : bool) then set_boundary_node n true m else Some m);
    c ← is_crossing_edge m eit;
    if (c : bool) then set_crossing_node n true m else Some m
  else Some m.

Definition update_flag_node (n : node_key) (m : Mesh) : option Mesh :=
  m ← set_interface_node n false m;
  m ← set_boundary_node n false m;
  m ← set_crossing_node n false m;
  st_n ← star_node m n;
  m ← foldM (update_flag_node_body n) m (set_edges st_n);
  c ← is_crossing_node m n;
  if (c : bool) then Some m
  else
    itf ← is_interface_node m n;
    if (itf : bool) then
      x ← crossing m n;
      if (x : bool) then set_crossing_node n true m else Some m
    else Some m.

(** ** [update(set)] and [set_label(t, label)] *)

Definition update (set : simplex_set) (m : Mesh) : option Mesh :=
  m ← foldM (λ m fit, if exists_face m fit then update_flag_face fit m else Some m)
       m (set_faces set);
  m ← foldM (λ m eit, if exists_edge m eit then update_flag_edge eit m else Some m)
       m (set_edges set);
  foldM (λ m nit, if exists_node m nit then update_flag_node nit m else Some m)
       m (set_nodes set).

Definition set_label (t : tet_key) (label : Z) (m : Mesh) : option Mesh :=
  m ← put_label t label m;
  cl_t ← closure_tet m t;
  update cl_t m.

(** ** The values [update_flag] recomputes

    [update_flag] reads the incidence lists, the labels and the flags one
    level below; it never reads the flags it is about to overwrite.  The
    functions below name what is read, for the statements that follow. *)

(** The co-bounding tetrahedra of a face, as [star] lists them. *)
Definition co_tets (x : face_type) : list tet_key := ins_all (f_co_boundary x) [].

(** (interface, boundary) of a face. *)
Definition face_flags (m : Mesh) (x : face_type) : option (bool * bool) :=
  match co_tets x with
  | [t] => l ← get_label m t; Some (bool_decide (l ≠ 0), true)
  | [t0; t1] =>
      l0 ← get_label m t0; l1 ← get_label m t1; Some (bool_decide (l0 ≠ l1), false)
  | _ => Some (false, false)
  end.

Definition face_itf (m : Mesh) (f : face_key) : bool :=
  from_option f_interface false (find_face m f).
Definition face_bnd (m : Mesh) (f : face_key) : bool :=
  from_option f_boundary false (find_face m f).

Definition edge_itf (m : Mesh) (e : edge_key) : bool :=
  from_option e_interface false (find_edge m e).
Definition edge_bnd (m : Mesh) (e : edge_key) : bool :=
  from_option e_boundary false (find_edge m e).
Definition edge_crs (m : Mesh) (e : edge_key) : bool :=
  from_option e_crossing false (find_edge m e).

(** Number of interface faces in a list of faces. *)
Definition count_itf (m : Mesh) (fs : list face_key) : Z :=
  Z.of_nat (length (filter (λ f, face_itf m f = true) fs)).

Definition with_face_flags (fl : bool * bool) (x : face_type) : face_type :=
  mk_face (f_edges x) (f_co_boundary x) fl.1 fl.2.
Definition with_edge_flags (itf b c : bool) (x : edge_type) : edge_type :=
  mk_edge (e_nodes x) (e_co_boundary x) itf b c.
Definition with_node_flags (itf b c : bool) (x : node_type) : node_type :=
  mk_node (n_pos x) (n_co_boundary x) itf b c.

(** The incidence structure, positions and labels: a mesh without its flags. *)
Definition strip_node (x : node_type) : vec3 * list edge_key := (n_pos x, n_co_boundary x).
Definition strip_edge (x : edge_type) : list node_key * list face_key :=
  (e_nodes x, e_co_boundary x).
Definition strip_face (x : face_type) : list edge_key * list tet_key :=
  (f_edges x, f_co_boundary x).

Definition same_incidence (m m' : Mesh) : Prop :=
  strip_node <$> nodes m = strip_node <$> nodes m' ∧
  strip_edge <$> edges m = strip_edge <$> edges m' ∧
  strip_face <$> faces m = strip_face <$> faces m'.

Definition same_topology (m m' : Mesh) : Prop :=
  same_incidence m m' ∧ tetrahedra m = tetrahedra m'.

(** What [update_flag(n)] asks of [crossing(n)]: the walk is only made for an
    interface node that no incident edge has marked as crossing. *)
Definition crossing_query (m : Mesh) (n : node_key) (es : list edge_key) : option bool :=
  if negb (existsb (edge_crs m) es) && existsb (edge_itf m) es then crossing m n
  else Some false.

(** ** The classification rules in the words of the specification *)

(** A face is boundary iff it has exactly one co-tetrahedron. *)
Definition face_boundary_rule (st_f : simplex_set) : Prop :=
  size_tetrahedra st_f = 1%nat.

(** A face is interface iff it is boundary with a nonzero-label tetrahedron
    or has two co-tetrahedra with differing labels. *)
Definition face_interface_rule (m : Mesh) (st_f : simplex_set) : Prop :=
  (∃ t l, set_tets st_f = [t] ∧ get_label m t = Some l ∧ l ≠ 0) ∨
  (∃ t0 t1 l0 l1, set_tets st_f = [t0; t1] ∧
     get_label m t0 = Some l0 ∧ get_label m t1 = Some l1 ∧ l0 ≠ l1).

(** ** Uniqueness in intersection based look-ups *)

(** The keys two (three) stars have in common on one level. *)
Definition common2 (l1 l2 : list key) (x : key) : Prop := x ∈ l1 ∧ x ∈ l2.
Definition common3 (l1 l2 l3 : list key) (x : key) : Prop := x ∈ l1 ∧ x ∈ l2 ∧ x ∈ l3.

Definition exactly_one (P : key → Prop) : Prop := ∃ x, P x ∧ ∀ y, P y → y = x.

(** ** The three loops of [update] *)

Definition face_phase (l : list face_key) (m : Mesh) : option Mesh :=
  foldM (λ m fit, if exists_face m fit then update_flag_face fit m else Some m) m l.
Definition edge_phase (l : list edge_key) (m : Mesh) : option Mesh :=
  foldM (λ m eit, if exists_edge m eit then update_flag_edge eit m else Some m) m l.
Definition node_phase (l : list node_key) (m : Mesh) : option Mesh :=
  foldM (λ m nit, if exists_node m nit then update_flag_node nit m else Some m) m l.

(** A simplex set without repeated keys. *)
Definition set_NoDup (s : simplex_set) : Prop :=
  NoDup (set_nodes s) ∧ NoDup (set_edges s) ∧ NoDup (set_faces s) ∧ NoDup (set_tets s).

(** ** Label-connected components of a star

    The relation the walk of [connected_component] follows: from a
    tetrahedron [u] to the tetrahedron [v] on the other side of one of the
    faces of [u], when both carry the same label. *)
Definition adjacent (m : Mesh) (u v : tet_key) : Prop :=
  ∃ l cl f,
    get_label m u = Some l ∧ closure_tet m u = Some cl ∧ f ∈ set_faces cl ∧
    get_tet m u f = Some v ∧ get_label m v = Some l.

(** [reach m S t x]: [x] is reached from [t] by steps that stay in [S]. *)
Inductive reach (m : Mesh) (S : list tet_key) (t : tet_key) : tet_key → Prop :=
  | reach_root : reach m S t t
  | reach_step u v : reach m S t u → adjacent m u v → v ∈ S → reach m S t v.

(** [S'] is [S] without the component of [t], in the order of [S]. *)
Definition removes (m : Mesh) (S : list tet_key) (t : tet_key) (S' : list tet_key) : Prop :=
  S' `sublist_of` S ∧ ∀ x, x ∈ S' ↔ x ∈ S ∧ ¬ reach m S t x.

(** [S] falls apart into at least [k] components when the component of its
    first tetrahedron is taken out again and again. *)
Inductive at_least_components (m : Mesh) : nat → list tet_key → Prop :=
  | alc_zero l : at_least_components m 0 l
  | alc_one t l : at_least_components m 1 (t :: l)
  | alc_more k t l l' :
      removes m (t :: l) t l' → at_least_components m (S k) l' →
      at_least_components m (S (S k)) (t :: l).

(** Every tetrahedron of [S] exists together with its faces, edges and nodes. *)
Definition walkable (m : Mesh) (S : list tet_key) : Prop :=
  ∀ t, t ∈ S → is_Some (closure_tet m t).

(** What one run removes. *)
Record walk_result (m : Mesh) (st : simplex_set) (t : tet_key) (st' : simplex_set) : Prop := {
  walk_nodes : set_nodes st' = set_nodes st;
  walk_edges : set_edges st' = set_edges st;
  walk_faces : set_faces st' = set_faces st;
  walk_sublist : set_tets st' `sublist_of` set_tets st;
  walk_root : t ∉ set_tets st';
  walk_sound : ∀ x, x ∈ set_tets st → x ∉ set_tets st' → reach m (set_tets st) t x;
  walk_closed : ∀ a b, a = t ∨ a ∈ set_tets st → a ∉ set_tets st' → adjacent m a b →
                  b ∉ set_tets st' }.

(** ** Face adjacency, read off the pools

    The relation of the specification: two different tetrahedra that have a
    face in common and bear the same label.  It is stated on the boundary
    lists and labels of the two tetrahedra alone; no query of the API enters
    it. *)
Definition shares_face (m : Mesh) (u v : tet_key) : Prop :=
  u ≠ v ∧
  ∃ xu xv f,
    find_tetrahedron m u = Some xu ∧ find_tetrahedron m v = Some xv ∧
    f ∈ t_faces xu ∧ f ∈ t_faces xv ∧ t_label xu = t_label xv.

(** [joined m S t x]: a chain of such steps leads from [t] to [x] through
    tetrahedra of [S]. *)
Inductive joined (m : Mesh) (S : list tet_key) (t : tet_key) : tet_key → Prop :=
  | joined_here : joined m S t t
  | joined_step u v : joined m S t u → shares_face m u v → v ∈ S → joined m S t v.

(** [S] has at least [k] label-connected components: it holds [k] different
    tetrahedra no two of which are joined through [S]. *)
Definition components_at_least (m : Mesh) (k : nat) (S : list tet_key) : Prop :=
  ∃ reps : list tet_key,
    length reps = k ∧ NoDup reps ∧ (∀ r, r ∈ reps → r ∈ S) ∧
    ∀ r1 r2, r1 ∈ reps → r2 ∈ reps → r1 ≠ r2 → ¬ joined m S r1 r2.

(** [l'] is [S] without the tetrahedra joined to [t]. *)
Definition component_taken (m : Mesh) (S : list tet_key) (t : tet_key)
    (l' : list tet_key) : Prop :=
  ∀ x, x ∈ l' ↔ x ∈ S ∧ ¬ joined m S t x.

(** ** Kernel mutations

    Modelled from the spec: [create()] returns a fresh key with default
    attributes and empty incidence lists; an insertion registers the new
    simplex in the co-boundary of each of its bounding simplices, the way
    [insert_tetrahedron] of the API does for tetrahedra. *)

Definition add_co (k : key) (l : list key) : list key := ins k l.

Definition add_co_edge (e : edge_key) (m : Mesh) (n : node_key) : option Mesh :=
  x ← find_node m n;
  put_node n (mk_node (n_pos x) (add_co e (n_co_boundary x))
                (n_interface x) (n_boundary x) (n_crossing x)) m.

Definition add_co_face (f : face_key) (m : Mesh) (e : edge_key) : option Mesh :=
  x ← find_edge m e;
  put_edge e (mk_edge (e_nodes x) (add_co f (e_co_boundary x))
                (e_interface x) (e_boundary x) (e_crossing x)) m.

Definition add_co_tet (t : tet_key) (m : Mesh) (f : face_key) : option Mesh :=
  x ← find_face m f;
  put_face f (mk_face (f_edges x) (add_co t (f_co_boundary x))
                (f_interface x) (f_boundary x)) m.

Definition insert_node_at (p : vec3) (m : Mesh) : node_key * Mesh :=
  let i := fresh (dom (nodes m)) in
  (Some i,
   mk_mesh (<[i:=mk_node p [] false false false]> (nodes m)) (edges m) (faces m)
     (tetrahedra m)).

Definition insert_edge (n1 n2 : node_key) (m : Mesh) : option (edge_key * Mesh) :=
  let e := Some (fresh (dom (edges m))) in
  m ← put_edge e (mk_edge [n1; n2] [] false false false) m;
  m ← foldM (add_co_edge e) m [n1; n2];
  Some (e, m).

Definition insert_face (e1 e2 e3 : edge_key) (m : Mesh) : option (face_key * Mesh) :=
  let f := Some (fresh (dom (faces m))) in
  m ← put_face f (mk_face [e1; e2; e3] [] false false) m;
  m ← foldM (add_co_face f) m [e1; e2; e3];
  Some (f, m).

(** [insert_tetrahedron(face1, face2, face3, face4)].  The orientation fix-up
    at its end reads node positions and only reorders the boundary list; it
    is left out. *)
Definition insert_tetrahedron (f1 f2 f3 f4 : face_key) (m : Mesh) : option (tet_key * Mesh) :=
  let t := Some (fresh (dom (tetrahedra m))) in
  m ← put_tet t (mk_tet [] 0) m;
  m ← foldM (add_co_tet t) m [f1; f2; f3; f4];
  m ← put_tet t (mk_tet [f1; f2; f3; f4] 0) m;
  Some (t, m).

(** ** Construction ([vectors_read], [init])

    Modelled from the spec: the mesh is built from node positions and from
    the four node indices of each tetrahedron; edges and faces are shared
    between the tetrahedra that contain them. *)

Definition find_or_insert_edge (n1 n2 : node_key) (m : Mesh) : option (edge_key * Mesh) :=
  e ← get_edge m n1 n2;
  if is_valid e then Some (e, m) else insert_edge n1 n2 m.

Definition find_or_insert_face (n1 n2 n3 : node_key) (m : Mesh) : option (face_key * Mesh) :=
  f ← get_face m n1 n2 n3;
  if is_valid f then Some (f, m)
  else
    '(e1, m) ← find_or_insert_edge n1 n2 m;
    '(e2, m) ← find_or_insert_edge n2 n3 m;
    '(e3, m) ← find_or_insert_edge n3 n1 m;
    insert_face e1 e2 e3 m.

Definition read_tetrahedron (m : Mesh) (t : (nat * nat * nat * nat) * Z) : option Mesh :=
  let '((a, b, c, d), label) := t in
  '(f1, m) ← find_or_insert_face (Some b) (Some c) (Some d) m;
  '(f2, m) ← find_or_insert_face (Some a) (Some d) (Some c) m;
  '(f3, m) ← find_or_insert_face (Some a) (Some b) (Some d) m;
  '(f4, m) ← find_or_insert_face (Some a) (Some c) (Some b) m;
  '(t, m) ← insert_tetrahedron f1 f2 f3 f4 m;
  put_label t label m.

Definition vectors_read (points : list vec3) (tets : list ((nat * nat * nat * nat) * Z))
  : option Mesh :=
  let m := foldl (λ m p, (insert_node_at p m).2) (mk_mesh ∅ ∅ ∅ ∅) points in
  foldM read_tetrahedron m tets.

(** The live keys of a pool, in increasing order. *)
Definition pool_keys {A : Type} (p : gmap nat A) : list key :=
  Some <$> filter (λ i, is_Some (p !! i)) (seq 0 (fresh (dom p))).

(** [init()]: the first full pass over faces, then edges, then nodes. *)
Definition init (m : Mesh) : option Mesh :=
  m ← foldM (λ m fit, update_flag_face fit m) m (pool_keys (faces m));
  m ← foldM (λ m eit, update_flag_edge eit m) m (pool_keys (edges m));
  foldM (λ m nit, update_flag_node nit m) m (pool_keys (nodes m)).

(** ** Set-valued navigator queries and [link] *)

(** Modelled from the spec: the set-valued overload of [closure] is the union
    of the closures of the members of the seed. *)
Definition closure_set (m : Mesh) (s : simplex_set) : option simplex_set :=
  out ← foldM (λ out t, c ← closure_tet m t; Some (set_union out c)) empty_set (set_tets s);
  out ← foldM (λ out f, c ← closure_face m f; Some (set_union out c)) out (set_faces s);
  out ← foldM (λ out e, c ← closure_edge m e; Some (set_union out c)) out (set_edges s);
  foldM (λ out n, c ← closure_node m n; Some (set_union out c)) out (set_nodes s).

(** Modelled from the spec: [link(s)] is [closure(star(s))] minus [closure(s)]. *)
Definition link_edge (m : Mesh) (e : edge_key) : option simplex_set :=
  st_e ← star_edge m e;
  cl_st ← closure_set m st_e;
  cl_e ← closure_edge m e;
  Some (set_minus cl_st cl_e).

(** [get_nodes(eid)]: the boundary of an edge. *)
Definition get_nodes_edge (m : Mesh) (e : edge_key) : option (list node_key) :=
  e_nodes <$> find_edge m e.

(** ** Assertions *)

Definition assert (b : bool) : option unit := if b then Some () else None.

(** ** Euler operators

    The structural work is done by kernel helpers of [t4mesh] whose code is
    not at hand; the operators are stated over arbitrary helpers.  A helper
    may fail (an assertion inside the kernel), hence the [option]. *)

(** Modelled from the spec: [t4mesh::edge_collapse_helper] is not at hand.  A
    kernel that refuses a collapse hands back an invalid key and leaves the
    mesh as it found it. *)
Definition refusal_keeps_mesh
    (edge_collapse_helper : edge_key → node_key → node_key → Mesh → option (node_key * Mesh))
  : Prop :=
  ∀ e a b m k m',
    edge_collapse_helper e a b m = Some (k, m') → is_valid k = false → m' = m.

Section EulerOperators.

(** [mesh.split_edge_helper(e, new_tets)]: the new node, the map from each
    new tetrahedron to the one it was split from (in the order the map is
    iterated), and the mesh. *)
Variable split_edge_helper :
  edge_key → Mesh → option (node_key * list (tet_key * tet_key) * Mesh).

(** [mesh.split_tetrahedron(t)]: the new node and the mesh. *)
Variable split_tetrahedron : tet_key → Mesh → option (node_key * Mesh).

(** [mesh.edge_collapse_helper(e, n1, n2)]: the surviving node, or an invalid
    key when the kernel refuses, and the mesh. *)
Variable edge_collapse_helper :
  edge_key → node_key → node_key → Mesh → option (node_key * Mesh).

(** Whether the class is compiled with [DEBUG] defined. *)
Variable DEBUG : bool.

(** [split(const edge_key&)] *)
Definition split_edge (e : edge_key) (m : Mesh) : option (node_key * Mesh) :=
  st_e ← star_edge m e;
  tt ← foldM (λ (tt : gmap key Z) tit, l ← get_label m tit; Some (<[tit:=l]> tt))
       ∅ (set_tets st_e);
  '(n, new_tets, m) ← split_edge_helper e m;
  m ← foldM (λ m (it : key * key), set_label it.1 (default 0 (tt !! it.2)) m) m new_tets;
  st_n ← star_node m n;
  let st_n := insert_node n st_n in
  m ← update st_n m;
  Some (n, m).

(** [split(const tet_key&)] *)
Definition split_tet (t : tet_key) (m : Mesh) : option (node_key * Mesh) :=
  label ← get_label m t;
  '(n, m) ← split_tetrahedron t m;
  st_n ← star_node m n;
  m ← foldM (λ m tit, set_label tit label m) m (set_tets st_n);
  let st_n := insert_node n st_n in
  m ← update st_n m;
  Some (n, m).

(** [collapse(edge_key&)] *)
Definition collapse (e : edge_key) (m : Mesh) : option (node_key * Mesh) :=
  nodes ← get_nodes_edge m e;
  n0 ← nodes !! 0%nat;
  n1 ← nodes !! 1%nat;
  _ ← (if DEBUG then _ ← assert (is_valid n0); assert (is_valid n1) else Some ());
  '(n, m) ← edge_collapse_helper e n0 n1 m;
  if negb (is_valid n) then Some (n, m)
  else
    st_n ← star_node m n;
    cl_st_n ← closure_set m st_n;
    m ← update cl_st_n m;
    Some (n, m).

(** [flip_32(const edge_key&)] *)
Definition flip_32 (e : edge_key) (m : Mesh) : option (node_key * Mesh) :=
  _ ← (if DEBUG then
         itf ← is_interface_edge m e; b ← is_boundary_edge m e;
         assert (negb itf && negb b)
       else Some ());
  lk_e ← link_edge m e;
  _ ← (if DEBUG then assert (bool_decide (size_nodes lk_e = 3%nat)) else Some ());
  n1 ← nodes_begin lk_e;
  '(n2, m) ← split_edge e m;
  e2 ← get_edge m n1 n2;
  _ ← (if DEBUG then assert (is_valid e2) else Some ());
  '(n3, m) ← collapse e2 m;
  _ ← (if DEBUG then _ ← assert (is_valid n3); assert (bool_decide (n1 = n3)) else Some ());
  Some (n3, m).

End EulerOperators.

(** ** The 1-to-4 subdivision of a tetrahedron

    Modelled from the spec: [t4mesh::split_tetrahedron] and [remove] are not
    at hand.  [remove(t)] marks [t] non-existent and detaches it from the
    co-boundary of its faces.  [split_tetrahedron(t)] inserts one node and
    joins it to the tetrahedron: one new edge to each node of [t], one new
    face over each edge of [t], one new tetrahedron over each face of [t];
    then [t] is removed (new cells are created before the old ones are
    removed, as in [flip_23_new] of the API).  The position given to the new
    node is a parameter. *)

(** Modelled from the spec: [t4mesh::remove] on a tetrahedron key. *)
Definition remove_tet (t : tet_key) (m : Mesh) : option Mesh :=
  tc ← find_tetrahedron m t;
  m ← foldM (λ m f,
         x ← find_face m f;
         put_face f (mk_face (f_edges x) (era t (f_co_boundary x))
                       (f_interface x) (f_boundary x)) m)
       m (t_faces tc);
  i ← t;
  Some (mk_mesh (nodes m) (edges m) (faces m) (delete i (tetrahedra m))).

(** The new edge towards [n] at each node of [t]. *)
Definition split_new_edges (n : node_key) (vs : list node_key) (m : Mesh)
  : option (gmap key key * Mesh) :=
  foldM (λ (acc : gmap key key * Mesh) v,
      '(e, m) ← insert_edge v n acc.2; Some (<[v:=e]> acc.1, m))
    (∅, m) vs.

(** The new face over each edge of [t]: the edge and the new edges at its
    two ends. *)
Definition split_new_faces (new_edge : gmap key key) (es : list edge_key) (m : Mesh)
  : option (gmap key key * Mesh) :=
  foldM (λ (acc : gmap key key * Mesh) e,
      x ← find_edge acc.2 e;
      match e_nodes x with
      | [a; b] =>
          ea ← new_edge !! a; eb ← new_edge !! b;
          '(f, m) ← insert_face e ea eb acc.2; Some (<[e:=f]> acc.1, m)
      | _ => None
      end)
    (∅, m) es.

(** The new tetrahedron over each face of [t]: the face and the new faces
    over its three edges. *)
Definition split_new_tets (new_face : gmap key key) (fs : list face_key) (m : Mesh)
  : option (list tet_key * Mesh) :=
  foldM (λ (acc : list tet_key * Mesh) f,
      x ← find_face acc.2 f;
      match f_edges x with
      | [e1; e2; e3] =>
          f1 ← new_face !! e1; f2 ← new_face !! e2; f3 ← new_face !! e3;
          '(t, m) ← insert_tetrahedron f f1 f2 f3 acc.2; Some (acc.1 ++ [t], m)
      | _ => None
      end)
    ([], m) fs.

(** Modelled from the spec: the body of [t4mesh::split_tetrahedron]; the list
    of the new tetrahedra is returned beside the new node to reason about
    them. *)
Definition split_tetrahedron_parts (p : vec3) (t : tet_key) (m : Mesh)
  : option (node_key * list tet_key * Mesh) :=
  cl ← closure_tet m t;
  let '(n, m) := insert_node_at p m in
  '(new_edge, m) ← split_new_edges n (set_nodes cl) m;
  '(new_face, m) ← split_new_faces new_edge (set_edges cl) m;
  '(ts, m) ← split_new_tets new_face (set_faces cl) m;
  m ← remove_tet t m;
  Some (n, ts, m).

(** Modelled from the spec: [t4mesh::split_tetrahedron], the 1-to-4
    subdivision that returns the key of the new node. *)
Definition split_tetrahedron (p : vec3) (t : tet_key) (m : Mesh) : option (node_key * Mesh) :=
  r ← split_tetrahedron_parts p t m; Some (r.1.1, r.2).

(** Co-boundary links. *)
Definition linkN (m : Mesh) (n : node_key) (e : edge_key) : Prop :=
  ∃ x, find_node m n = Some x ∧ e ∈ n_co_boundary x.
Definition linkE (m : Mesh) (e : edge_key) (f : face_key) : Prop :=
  ∃ x, find_edge m e = Some x ∧ f ∈ e_co_boundary x.
Definition linkF (m : Mesh) (f : face_key) (t : tet_key) : Prop :=
  ∃ x, find_face m f = Some x ∧ t ∈ f_co_boundary x.

(** ** Referential integrity

    What [validity_check] asserts about existence and arity, for every
    simplex of the mesh: every key in a boundary or co-boundary list exists,
    an edge has 2 nodes, a face has 3 edges, and a face is among the faces of
    each tetrahedron of its co-boundary. *)
Record closed (m : Mesh) : Prop := {
  cl_node_co : ∀ i x e,
    nodes m !! i = Some x → e ∈ n_co_boundary x → is_Some (find_edge m e);
  cl_edge_nodes : ∀ i x,
    edges m !! i = Some x →
    length (e_nodes x) = 2%nat ∧ ∀ v, v ∈ e_nodes x → is_Some (find_node m v);
  cl_edge_co : ∀ i x f,
    edges m !! i = Some x → f ∈ e_co_boundary x → is_Some (find_face m f);
  cl_face_edges : ∀ i x,
    faces m !! i = Some x →
    length (f_edges x) = 3%nat ∧ ∀ e, e ∈ f_edges x → is_Some (find_edge m e);
  cl_face_co : ∀ i x t,
    faces m !! i = Some x → t ∈ f_co_boundary x →
    ∃ y, find_tetrahedron m t = Some y ∧ Some i ∈ t_faces y;
  cl_tet_faces : ∀ i x f,
    tetrahedra m !! i = Some x → f ∈ t_faces x → is_Some (find_face m f) }.

(** The same, as a check that runs. *)
Definition all_pool {A : Type} (P : nat → A → bool) (p : gmap nat A) : bool :=
  forallb (λ kv, P kv.1 kv.2) (map_to_list p).

Definition closedb (m : Mesh) : bool :=
  all_pool (λ _ x, forallb (exists_edge m) (n_co_boundary x)) (nodes m) &&
  all_pool (λ _ x, bool_decide (length (e_nodes x) = 2%nat) &&
                   forallb (exists_node m) (e_nodes x) &&
                   forallb (exists_face m) (e_co_boundary x)) (edges m) &&
  all_pool (λ i x, bool_decide (length (f_edges x) = 3%nat) &&
                   forallb (exists_edge m) (f_edges x) &&
                   forallb (λ t, from_option (λ y, contains (Some i) (t_faces y)) false
                                   (find_tetrahedron m t))
                     (f_co_boundary x)) (faces m) &&
  all_pool (λ _ x, forallb (exists_face m) (t_faces x)) (tetrahedra m).

(** The part of the incidence structure that the tetrahedra hold. *)
Definition same_shape (m m' : Mesh) : Prop :=
  same_incidence m m' ∧ t_faces <$> tetrahedra m = t_faces <$> tetrahedra m'.

(** A simplex set that holds, with each of its edges and faces, the simplices
    of their boundary; all of them exist. *)
Definition down_closed (m : Mesh) (s : simplex_set) : Prop :=
  (∀ v, v ∈ set_nodes s → is_Some (find_node m v)) ∧
  (∀ e, e ∈ set_edges s →
     ∃ x, find_edge m e = Some x ∧ ∀ v, v ∈ e_nodes x → v ∈ set_nodes s) ∧
  (∀ f, f ∈ set_faces s →
     ∃ x, find_face m f = Some x ∧ ∀ e, e ∈ f_edges x → e ∈ set_edges s).

(** ** Faces with two sides

    The data model of section 3 of the specification, for faces: a face is
    in the co-boundary list of every tetrahedron that lists it, and it has at
    most two co-bounding tetrahedra. *)
Record two_sided (m : Mesh) : Prop := {
  ts_down : ∀ j y f,
    tetrahedra m !! j = Some y → f ∈ t_faces y →
    ∃ x, find_face m f = Some x ∧ Some j ∈ f_co_boundary x;
  ts_two : ∀ i x, faces m !! i = Some x → (length (co_tets x) ≤ 2)%nat }.

(** The same, as a check that runs. *)
Definition two_sidedb (m : Mesh) : bool :=
  all_pool (λ j y, forallb (λ f, from_option (λ x, contains (Some j) (f_co_boundary x)) false
                                   (find_face m f))
                     (t_faces y)) (tetrahedra m) &&
  all_pool (λ _ x, bool_decide (length (co_tets x) ≤ 2)%nat) (faces m).

(** ** Incidence queries of the API

    [mesh.lookup_simplex(k)] is the kernel's look-up of the record of [k].
    Modelled from the spec: like [find], it fails on a key that does not
    exist.  The overloads are told apart by the kind of their argument. *)

(** [get_edges(const node_key&)]: the co-boundary of a node. *)
Definition get_edges_node (m : Mesh) (nid : node_key) : option (list edge_key) :=
  n_co_boundary <$> find_node m nid.

(** [get_edges(const face_key&)]: the boundary of a face. *)
Definition get_edges_face (m : Mesh) (fid : face_key) : option (list edge_key) :=
  f_edges <$> find_face m fid.

(** [get_faces(const edge_key&)]: the co-boundary of an edge. *)
Definition get_faces_edge (m : Mesh) (eid : edge_key) : option (list face_key) :=
  e_co_boundary <$> find_edge m eid.

(** [get_faces(const tet_key&)]: the boundary of a tetrahedron. *)
Definition get_faces_tet (m : Mesh) (tid : tet_key) : option (list face_key) :=
  t_faces <$> find_tetrahedron m tid.

(** [get_faces(const std::vector<tet_key>&)] *)
Definition get_faces_tets (m : Mesh) (tids : list tet_key) : option (list face_key) :=
  foldM (λ faces tid, ft ← get_faces_tet m tid; Some (KeyVectors.uni ft faces)) [] tids.

(** [get_tets(const face_key&)]: the co-boundary of a face. *)
Definition get_tets_face (m : Mesh) (fid : face_key) : option (list tet_key) :=
  f_co_boundary <$> find_face m fid.

(** [get_tets(const edge_key&)] *)
Definition get_tets_edge (m : Mesh) (eid : edge_key) : option (list tet_key) :=
  fids ← e_co_boundary <$> find_edge m eid;
  foldM (λ tets fid,
      tids ← f_co_boundary <$> find_face m fid;
      Some (foldl KeyVectors.push_new tets tids))
    [] fids.

(** [get_tets(const node_key&)] *)
Definition get_tets_node (m : Mesh) (nid : node_key) : option (list tet_key) :=
  eids ← n_co_boundary <$> find_node m nid;
  foldM (λ tets eid, te ← get_tets_edge m eid; Some (KeyVectors.uni tets te)) [] eids.

(** [get_edge(const face_key&, const face_key&)] *)
Definition get_edge_faces (m : Mesh) (f1 f2 : face_key) : option edge_key :=
  cl1 ← closure_face m f1;
  cl2 ← closure_face m f2;
  let cl1 := intersection cl1 cl2 in
  if decide (size_edges cl1 ≠ 1%nat) then Some EdgeKey
  else edges_begin cl1.

(** [get_face(const tet_key&, const tet_key&)] *)
Definition get_face_tets (m : Mesh) (t1 t2 : tet_key) : option face_key :=
  cl1 ← closure_tet m t1;
  cl2 ← closure_tet m t2;
  let cl1 := intersection cl1 cl2 in
  if decide (size_faces cl1 ≠ 1%nat) then Some FaceKey
  else faces_begin cl1.

(** Modelled from the spec: [simplex_set::difference] is the symmetric
    difference, the keys present in exactly one operand.  The set keeps the
    order of insertion: what is left of the first operand comes first, then
    the keys that only the second operand has. *)
Definition exactly_one_of (l2 l1 : list key) : list key := drop l2 l1 ++ drop l1 l2.

Definition difference (s1 s2 : simplex_set) : simplex_set :=
  mk_set (exactly_one_of (set_nodes s2) (set_nodes s1))
         (exactly_one_of (set_edges s2) (set_edges s1))
         (exactly_one_of (set_faces s2) (set_faces s1))
         (exactly_one_of (set_tets s2) (set_tets s1)).

(** [get_apex(const tet_key&, const face_key&)] *)
Definition get_apex_tet (m : Mesh) (t : tet_key) (f : face_key) : option node_key :=
  cl_t ← closure_tet m t;
  cl_f ← closure_face m f;
  let cl_t := difference cl_t cl_f in
  nodes_begin cl_t.

(** [get_apex(const face_key&, const edge_key&)]; the assertion is compiled
    in with [DEBUG]. *)
Definition get_apex_face (DEBUG : bool) (m : Mesh) (f : face_key) (e : edge_key)
  : option node_key :=
  cl_f ← closure_face m f;
  cl_e ← closure_edge m e;
  let cl_f := difference cl_f cl_e in
  _ ← (if DEBUG then assert (bool_decide (size_nodes cl_f = 1%nat)) else Some ());
  nodes_begin cl_f.

(** [is_neighbour(key1, key2)] for edges, faces and tetrahedra: the two
    simplices share a simplex of their boundaries. *)
Definition share_boundary (boundary1 boundary2 : list key) : bool :=
  existsb (λ k, bool_decide (k ∈ boundary1)) boundary2.

Definition is_neighbour_edge (m : Mesh) (key1 key2 : edge_key) : option bool :=
  boundary ← e_nodes <$> find_edge m key1;
  boundary2 ← e_nodes <$> find_edge m key2;
  Some (share_boundary boundary boundary2).

Definition is_neighbour_face (m : Mesh) (key1 key2 : face_key) : option bool :=
  boundary ← f_edges <$> find_face m key1;
  boundary2 ← f_edges <$> find_face m key2;
  Some (share_boundary boundary boundary2).

Definition is_neighbour_tet (m : Mesh) (key1 key2 : tet_key) : option bool :=
  boundary ← t_faces <$> find_tetrahedron m key1;
  boundary2 ← t_faces <$> find_tetrahedron m key2;
  Some (share_boundary boundary boundary2).

(** ** The flag rules, read on one mesh

    What it means for the stored flags of a face, an edge or a node to agree
    with what [update_flag] computes from the mesh as it stands. *)

Definition face_rule (m : Mesh) (f : face_key) : Prop :=
  ∀ st, star_face m f = Some st →
    ∃ b i,
      is_boundary_face m f = Some b ∧ is_interface_face m f = Some i ∧
      (b = true ↔ face_boundary_rule st) ∧ (i = true ↔ face_interface_rule m st).

Definition edge_rule (m : Mesh) (e : edge_key) : Prop :=
  ∀ st, star_edge m e = Some st →
    ∃ itf b c,
      is_interface_edge m e = Some itf ∧ is_boundary_edge m e = Some b ∧
      is_crossing_edge m e = Some c ∧
      (itf = true ↔ ∃ f, f ∈ set_faces st ∧ is_interface_face m f = Some true) ∧
      (b = true ↔ ∃ f, f ∈ set_faces st ∧ is_boundary_face m f = Some true) ∧
      (c = true ↔ 2 < count_itf m (set_faces st)).

Definition node_rule (m : Mesh) (n : node_key) : Prop :=
  ∀ st, star_node m n = Some st →
    ∃ itf b c,
      is_interface_node m n = Some itf ∧ is_boundary_node m n = Some b ∧
      is_crossing_node m n = Some c ∧
      (itf = true ↔ ∃ e, e ∈ set_edges st ∧ is_interface_edge m e = Some true) ∧
      (b = true ↔ ∃ e, e ∈ set_edges st ∧ is_boundary_edge m e = Some true) ∧
      (c = true ↔
         (∃ e, e ∈ set_edges st ∧ is_crossing_edge m e = Some true) ∨
         (itf = true ∧ ¬ (∃ e, e ∈ set_edges st ∧ is_crossing_edge m e = Some true) ∧
          at_least_components m 3 (set_tets st))).

(** Two meshes that differ at most in the flags of the simplices of [s]. *)
Definition agree_outside (s : simplex_set) (m m' : Mesh) : Prop :=
  same_topology m m' ∧
  (∀ j, Some j ∉ set_nodes s → nodes m !! j = nodes m' !! j) ∧
  (∀ j, Some j ∉ set_edges s → edges m !! j = edges m' !! j) ∧
  (∀ j, Some j ∉ set_faces s → faces m !! j = faces m' !! j).

(** [split(const face_key&)], over the kernel helper
    [mesh.split_face_helper(f, new_tets)], which hands back the new node, the
    map from each new tetrahedron to the one it was split from, and the
    mesh. *)
Definition split_face
    (split_face_helper : face_key → Mesh → option (node_key * list (tet_key * tet_key) * Mesh))
    (f : face_key) (m : Mesh) : option (node_key * Mesh) :=
  st_f ← star_face m f;
  tt ← foldM (λ (tt : gmap key Z) tit, l ← get_label m tit; Some (<[tit:=l]> tt))
       ∅ (set_tets st_f);
  '(n, new_tets, m) ← split_face_helper f m;
  m ← foldM (λ m (it : key * key), set_label it.1 (default 0 (tt !! it.2)) m) m new_tets;
  st_n ← star_node m n;
  let st_n := insert_node n st_n in
  m ← update st_n m;
  Some (n, m).

(** [flip_44(const face_key&, const face_key&)], over the kernel helpers of
    [split] and [collapse]. *)
Definition flip_44
    (split_edge_helper : edge_key → Mesh → option (node_key * list (tet_key * tet_key) * Mesh))
    (edge_collapse_helper : edge_key → node_key → node_key → Mesh → option (node_key * Mesh))
    (DEBUG : bool) (f1 f2 : face_key) (m : Mesh) : option (node_key * Mesh) :=
  _ ← (if DEBUG then
         i1 ← is_interface_face m f1; i2 ← is_interface_face m f2;
         _ ← assert ((i1 && i2) || (negb i1 && negb i2));
         b1 ← is_boundary_face m f1; b2 ← is_boundary_face m f2;
         assert ((b1 && b2) || (negb b1 && negb b2))
       else Some ());
  e1 ← get_edge_faces m f1 f2;
  n1 ← get_apex_face DEBUG m f1 e1;
  '(n2, m) ← split_edge split_edge_helper e1 m;
  e2 ← get_edge m n1 n2;
  _ ← (if DEBUG then assert (is_valid e2) else Some ());
  '(n3, m) ← collapse edge_collapse_helper DEBUG e2 m;
  _ ← (if DEBUG then _ ← assert (is_valid n3); assert (bool_decide (n1 = n3)) else Some ());
  Some (n3, m).

(** [flip_22(const face_key&, const face_key&)] *)
Definition flip_22
    (split_edge_helper : edge_key → Mesh → option (node_key * list (tet_key * tet_key) * Mesh))
    (edge_collapse_helper : edge_key → node_key → node_key → Mesh → option (node_key * Mesh))
    (DEBUG : bool) (f1 f2 : face_key) (m : Mesh) : option (node_key * Mesh) :=
  flip_44 split_edge_helper edge_collapse_helper DEBUG f1 f2 m.

(** [is_neighbour(key, keys)], over the look-up of a boundary list.  The
    inner loop stops at the first member of [keys] that has [k1] on its
    boundary; the members behind it are not looked up. *)
Fixpoint on_some_boundary (boundary_of : key → option (list key)) (k1 : key)
    (keys : list key) : option bool :=
  match keys with
  | [] => Some false
  | k2 :: keys =>
      boundary ← boundary_of k2;
      if decide (k1 ∈ boundary) then Some true
      else on_some_boundary boundary_of k1 keys
  end.

Definition is_neighbour_keys (boundary_of : key → option (list key)) (k : key)
    (keys : list key) : option bool :=
  boundary ← boundary_of k;
  i ← foldM (λ (i : Z) k1,
         hit ← on_some_boundary boundary_of k1 keys;
         Some (if hit : bool then i + 1 else i))
       0 boundary;
  Some (bool_decide (i = Z.of_nat (length keys))).

(** Its three instances. *)
Definition is_neighbour_edges (m : Mesh) : edge_key → list edge_key → option bool :=
  is_neighbour_keys (λ k, e_nodes <$> find_edge m k).
Definition is_neighbour_faces (m : Mesh) : face_key → list face_key → option bool :=
  is_neighbour_keys (λ k, f_edges <$> find_face m k).
Definition is_neighbour_tets (m : Mesh) : tet_key → list tet_key → option bool :=
  is_neighbour_keys (λ k, t_faces <$> find_tetrahedron m k).

(** Whether [k1] lies on the boundary of a member of [keys]. *)
Definition touches (boundary_of : key → option (list key)) (keys : list key) (k1 : key)
  : bool :=
  existsb (λ k2, bool_decide (k1 ∈ default [] (boundary_of k2))) keys.

End Kernel.

Arguments node_type : clear implicits.
Arguments Mesh : clear implicits.

Arguments connected_component : simpl never.
Arguments crossing_loop : simpl never.
Arguments crossing : simpl never.
Arguments update_flag_face : simpl never.
Arguments update_flag_edge : simpl never.
Arguments update_flag_node : simpl never.
Arguments update : simpl never.
Arguments set_label : simpl never.

(** * Utilities ([src/util.h])

    The two functions of the header that do no floating-point arithmetic. *)
Module Util.

(** [compare(n, v1, v2)]: the order on binary vectors of size [n].
    [v1[i]] does not check its index; a read past the end of a vector is an
    error here.  Both vectors are read at every index the loop reaches. *)
Fixpoint compare_from (i count : nat) (v1 v2 : list bool) : option bool :=
  match count with
  | O => Some false
  | S count' =>
      a ← v1 !! i;
      b ← v2 !! i;
      if a && negb b then Some false
      else if negb a && b then Some true
      else compare_from (S i) count' v1 v2
  end.

Definition compare (n : Z) (v1 v2 : list bool) : option bool :=
  compare_from 0 (Z.to_nat n) v1 v2.

(** [concat4digits(name, number)]; [s << number] writes an [int] in decimal,
    with a minus sign when it is negative. *)
Definition concat4digits (name : string) (number : Z) : string :=
  if decide (number < 10) then name +:+ "000" +:+ pretty number
  else if decide (number < 100) then name +:+ "00" +:+ pretty number
  else if decide (number < 1000) then name +:+ "0" +:+ pretty number
  else name +:+ pretty number.

End Util.

(** * Example meshes *)

(** Two tetrahedra glued along the face (1,2,3), with labels 1 and 2. *)
Definition two_tets : option (Mesh (Z * Z * Z)) :=
  m ← vectors_read [(0, 0, 0); (1, 0, 0); (0, 1, 0); (0, 0, 1); (1, 1, 1)]
       [((0, 1, 2, 3)%nat, 1); ((4, 1, 3, 2)%nat, 2)];
  init m.

Definition two_tets_mesh : Mesh (Z * Z * Z) := default (mk_mesh ∅ ∅ ∅ ∅) two_tets.

(** The stars of the three nodes of the shared face. *)
Definition two_tets_star (n : nat) : simplex_set :=
  default empty_set (star_node two_tets_mesh (Some n)).

(** The same two tetrahedra straight after reading, before [init]: every
    flag is still false. *)
Definition two_tets_raw : Mesh (Z * Z * Z) :=
  default (mk_mesh ∅ ∅ ∅ ∅)
    (vectors_read [(0, 0, 0); (1, 0, 0); (0, 1, 0); (0, 0, 1); (1, 1, 1)]
       [((0, 1, 2, 3)%nat, 1); ((4, 1, 3, 2)%nat, 2)]).

Definition closure_tet0 : simplex_set :=
  default empty_set (closure_tet two_tets_raw (Some 0%nat)).

Definition two_tets_updated : Mesh (Z * Z * Z) :=
  default (mk_mesh ∅ ∅ ∅ ∅) (update closure_tet0 two_tets_raw).

Definition two_tets_relabelled : Mesh (Z * Z * Z) :=
  default (mk_mesh ∅ ∅ ∅ ∅) (set_label (Some 1%nat) 1 two_tets_mesh).

(** Three tetrahedra of label 1 that meet in node 0 only. *)
Definition three_fans : Mesh (Z * Z * Z) :=
  default (mk_mesh ∅ ∅ ∅ ∅)
    (m ← vectors_read
          [(0, 0, 0); (1, 0, 0); (0, 1, 0); (0, 0, 1); (-1, 0, 0); (0, -1, 0);
           (0, 0, -1); (5, 5, 0); (5, 0, 5); (0, 5, 5)]
          [((0, 1, 2, 3)%nat, 1); ((0, 4, 5, 6)%nat, 1); ((0, 7, 8, 9)%nat, 1)];
     init m).

Definition three_fans_star : simplex_set :=
  default empty_set (star_node three_fans (Some 0%nat)).

(** The tetrahedron of the scenario: nodes (0,0,0), (1,0,0), (0,1,0),
    (0,0,1), label 5. *)
Definition one_tet : Mesh (Z * Z * Z) :=
  default (mk_mesh ∅ ∅ ∅ ∅)
    (m ← vectors_read [(0, 0, 0); (1, 0, 0); (0, 1, 0); (0, 0, 1)] [((0, 1, 2, 3)%nat, 5)];
     init m).

(** [split(t)] on it, with the model of the subdivision. *)
Definition one_tet_split : option (node_key * Mesh (Z * Z * Z)) :=
  split_tet (split_tetrahedron (0, 0, 0)) (Some 0%nat) one_tet.

Definition one_tet_split_mesh : Mesh (Z * Z * Z) :=
  default one_tet (snd <$> one_tet_split).

Definition one_tet_split_star : simplex_set :=
  default empty_set (star_node one_tet_split_mesh (Some 4%nat)).

(** Three tetrahedra around the edge between nodes 0 and 1, all of label 0:
    that edge is interior and its link has the three nodes 2, 3 and 4. *)
Definition three_around : Mesh (Z * Z * Z) :=
  default (mk_mesh ∅ ∅ ∅ ∅)
    (m ← vectors_read [(0, 0, -1); (0, 0, 1); (1, 0, 0); (-1, 1, 0); (-1, -1, 0)]
          [((0, 1, 2, 3)%nat, 0); ((0, 1, 3, 4)%nat, 0); ((0, 1, 4, 2)%nat, 0)];
     init m).

Definition three_around_edge : edge_key :=
  default EdgeKey (get_edge three_around (Some 0%nat) (Some 1%nat)).

Definition three_around_link : simplex_set :=
  default empty_set (link_edge three_around three_around_edge).

(** A kernel that refuses every collapse. *)
Definition refuse_collapse {vec3 : Type} (e : edge_key) (n1 n2 : node_key) (m : Mesh vec3)
  : option (node_key * Mesh vec3) := Some (NodeKey, m).

(** Stand-ins for the kernel that accept: a collapse onto the first node and
    a split that reports tetrahedron 1 as split from tetrahedron 0 and names
    node 0, both leaving the mesh as it is. *)
Definition keep_first {vec3 : Type} (e : edge_key) (n1 n2 : node_key) (m : Mesh vec3)
  : option (node_key * Mesh vec3) := Some (n1, m).

Definition report_split {vec3 : Type} (k : key) (m : Mesh vec3)
  : option (node_key * list (tet_key * tet_key) * Mesh vec3) :=
  Some (Some 0%nat, [(Some 1%nat, Some 0%nat)], m).

Definition two_tets_collapsed : node_key * Mesh (Z * Z * Z) :=
  default (NodeKey, two_tets_raw) (collapse keep_first false (Some 0%nat) two_tets_raw).

Definition two_tets_split : node_key * Mesh (Z * Z * Z) :=
  default (NodeKey, two_tets_mesh) (split_edge report_split (Some 0%nat) two_tets_mesh).

Definition two_tets_face0 : simplex_set :=
  default empty_set (closure_face two_tets_mesh (Some 0%nat)).
Definition two_tets_face1 : simplex_set :=
  default empty_set (closure_face two_tets_mesh (Some 1%nat)).
Definition two_tets_edge0 : simplex_set :=
  default empty_set (closure_edge two_tets_mesh (Some 0%nat)).
Definition two_tets_tet (i : nat) : simplex_set :=
  default empty_set (closure_tet two_tets_mesh (Some i)).
Definition two_tets_edge_star : simplex_set :=
  default empty_set (star_edge two_tets_mesh (Some 0%nat)).

Definition two_tets_flipped : node_key * Mesh (Z * Z * Z) :=
  default (NodeKey, two_tets_mesh)
    (flip_44 report_split keep_first true (Some 1%nat) (Some 2%nat) two_tets_mesh).


Definition three_around_flipped : node_key * Mesh (Z * Z * Z) :=
  default (NodeKey, three_around)
    (flip_32 report_split keep_first true three_around_edge three_around).


(** The three tetrahedra of [three_fans] and a fourth one across the face
    (0,1,2) of the first, all of label 1: around node 0 the first and the
    fourth hang together, the other two stand alone. *)
Definition four_fans : Mesh (Z * Z * Z) :=
  default (mk_mesh ∅ ∅ ∅ ∅)
    (m ← vectors_read
          [(0, 0, 0); (1, 0, 0); (0, 1, 0); (0, 0, 1); (-1, 0, 0); (0, -1, 0);
           (0, 0, -1); (5, 5, 0); (5, 0, 5); (0, 5, 5); (1, 1, -1)]
          [((0, 1, 2, 3)%nat, 1); ((0, 4, 5, 6)%nat, 1); ((0, 7, 8, 9)%nat, 1);
           ((0, 2, 1, 10)%nat, 1)];
     init m).

Definition four_fans_star : simplex_set :=
  default empty_set (star_node four_fans (Some 0%nat)).

(** What is left of that star when the component of tetrahedron 0 is taken
    out. *)
Definition four_fans_rest : simplex_set :=
  default empty_set (connected_component 5 four_fans four_fans_star (Some 0%nat)).

(** * Properties *)

Section Properties.
Context {vec3 : Type}.
Implicit Types (m : Mesh vec3) (s : simplex_set) (k : key).

(** ** Pools *)

(** Running a chain of flag setters on a mesh whose record was just written. *)
Ltac run_setters :=
  repeat first
    [ progress unfold set_interface_node, set_boundary_node, set_crossing_node,
        set_interface_edge, set_boundary_edge, set_crossing_edge,
        set_interface_face, set_boundary_face,
        put_node, put_edge, put_face, put_tet,
        find_node, find_edge, find_face, find_tetrahedron in *
    | progress simpl
    | rewrite lookup_insert_eq
    | rewrite insert_insert_eq ].

Lemma put_node_Some k x m m' :
  put_node k x m = Some m' →
  ∃ i, k = Some i ∧ m' = mk_mesh (<[i:=x]> (nodes m)) (edges m) (faces m) (tetrahedra m).
Proof. destruct k as [i|]; simpl; [|done]. intros [= <-]. eauto. Qed.

Lemma put_edge_Some k x m m' :
  put_edge k x m = Some m' →
  ∃ i, k = Some i ∧ m' = mk_mesh (nodes m) (<[i:=x]> (edges m)) (faces m) (tetrahedra m).
Proof. destruct k as [i|]; simpl; [|done]. intros [= <-]. eauto. Qed.

Lemma put_face_Some k x m m' :
  put_face k x m = Some m' →
  ∃ i, k = Some i ∧ m' = mk_mesh (nodes m) (edges m) (<[i:=x]> (faces m)) (tetrahedra m).
Proof. destruct k as [i|]; simpl; [|done]. intros [= <-]. eauto. Qed.

Lemma put_tet_Some k x m m' :
  put_tet k x m = Some m' →
  ∃ i, k = Some i ∧ m' = mk_mesh (nodes m) (edges m) (faces m) (<[i:=x]> (tetrahedra m)).
Proof. destruct k as [i|]; simpl; [|done]. intros [= <-]. eauto. Qed.

(** ** Key sets *)

Lemma contains_spec k (l : list key) : contains k l = true ↔ k ∈ l.
Proof. unfold contains. by rewrite bool_decide_eq_true. Qed.

Lemma elem_of_ins x k (l : list key) : x ∈ ins k l ↔ x = k ∨ x ∈ l.
Proof.
  unfold ins, contains. case_bool_decide.
  - split; [by right|]. by intros [->|].
  - rewrite elem_of_app, list_elem_of_singleton. tauto.
Qed.

Lemma NoDup_ins k (l : list key) : NoDup l → NoDup (ins k l).
Proof.
  intros Hl. unfold ins, contains. case_bool_decide; [done|].
  apply NoDup_app. split; [done|]. split; [|apply NoDup_singleton].
  intros x Hx ->%list_elem_of_singleton. done.
Qed.

Lemma elem_of_ins_all x (ks l : list key) : x ∈ ins_all ks l ↔ x ∈ ks ∨ x ∈ l.
Proof.
  unfold ins_all. revert l. induction ks as [|k ks IH]; intros l; simpl.
  - rewrite elem_of_nil. tauto.
  - rewrite IH, elem_of_ins, elem_of_cons. tauto.
Qed.

Lemma NoDup_ins_all (ks l : list key) : NoDup l → NoDup (ins_all ks l).
Proof.
  unfold ins_all. revert l. induction ks as [|k ks IH]; intros l Hl; simpl; [done|].
  by apply IH, NoDup_ins.
Qed.

Lemma ins_all_nil (l : list key) : ins_all [] l = l.
Proof. done. Qed.

Lemma elem_of_era x k (l : list key) : x ∈ era k l ↔ x ≠ k ∧ x ∈ l.
Proof. unfold era. by rewrite list_elem_of_filter. Qed.

Lemma elem_of_keep x (l2 l1 : list key) : x ∈ keep l2 l1 ↔ x ∈ l1 ∧ x ∈ l2.
Proof. unfold keep. rewrite list_elem_of_filter. tauto. Qed.

Lemma elem_of_drop x (l2 l1 : list key) : x ∈ drop l2 l1 ↔ x ∈ l1 ∧ x ∉ l2.
Proof. unfold drop. rewrite list_elem_of_filter. tauto. Qed.

(** A duplicate-free list has length one exactly when it has a unique member. *)
Lemma NoDup_length_1 (l : list key) :
  NoDup l → (length l = 1%nat ↔ ∃ x, x ∈ l ∧ ∀ y, y ∈ l → y = x).
Proof.
  intros Hl. split.
  - destruct l as [|x [|y l]]; simpl; try done. intros _. exists x.
    split; [by left|]. by intros y ->%list_elem_of_singleton.
  - intros (x & Hx & Hu). destruct l as [|a [|b l]]; simpl; [|done|].
    + by apply elem_of_nil in Hx.
    + apply NoDup_cons in Hl as [Hab _]. exfalso. apply Hab.
      rewrite (Hu a) by left. rewrite (Hu b) by (right; left). by left.
Qed.

Lemma set_NoDup_empty : set_NoDup empty_set.
Proof. repeat split; apply NoDup_nil_2. Qed.

Lemma set_NoDup_union s1 s2 : set_NoDup s1 → set_NoDup (set_union s1 s2).
Proof. intros (?&?&?&?). repeat split; simpl; by apply NoDup_ins_all. Qed.

(** ** Loops *)

Lemma foldM_ext {A B} (f g : B → A → option B) b l :
  (∀ b a, a ∈ l → f b a = g b a) → foldM f b l = foldM g b l.
Proof.
  revert b. induction l as [|a l IH]; intros b H; simpl; [done|].
  rewrite H by left. destruct (g b a) as [b'|]; simpl; [|done].
  apply IH. intros ??. intros Hin. apply H. by right.
Qed.

Lemma foldM_invariant {A B} (P : B → Prop) (f : B → A → option B) b l b' :
  (∀ b a b', a ∈ l → P b → f b a = Some b' → P b') →
  P b → foldM f b l = Some b' → P b'.
Proof.
  revert b. induction l as [|a l IH]; intros b Hf Hb; simpl.
  - by intros [= <-].
  - destruct (f b a) as [b1|] eqn:E; simpl; [|done].
    apply IH; [|by eapply Hf; [left|..]].
    intros ???? ??. eapply Hf; [by right|done..].
Qed.

(** ** What [star] and [closure] return *)

Lemma foldM_union_NoDup {A} (g : A → option simplex_set) s l s' :
  foldM (λ s a, sa ← g a; Some (set_union s sa)) s l = Some s' →
  set_NoDup s → set_NoDup s'.
Proof.
  intros H Hs. revert H. apply (foldM_invariant set_NoDup); [|done].
  intros b a b' _ Hb. destruct (g a); simpl; [|done]. intros [= <-].
  by apply set_NoDup_union.
Qed.

Lemma star_face_NoDup m f s : star_face m f = Some s → set_NoDup s.
Proof.
  unfold star_face. destruct (find_face m f); simpl; [|done]. intros [= <-].
  repeat split; simpl; try apply NoDup_nil_2; [apply NoDup_singleton|].
  apply NoDup_ins_all, NoDup_nil_2.
Qed.

Lemma star_edge_NoDup m e s : star_edge m e = Some s → set_NoDup s.
Proof.
  unfold star_edge. destruct (find_edge m e); simpl; [|done]. intros H.
  eapply foldM_union_NoDup; [done|].
  repeat split; simpl; try apply NoDup_nil_2. apply NoDup_singleton.
Qed.

Lemma star_node_NoDup m n s : star_node m n = Some s → set_NoDup s.
Proof.
  unfold star_node. destruct (find_node m n); simpl; [|done]. intros H.
  eapply foldM_union_NoDup; [done|].
  repeat split; simpl; try apply NoDup_nil_2. apply NoDup_singleton.
Qed.

(** The edges of [star(e)] are [e] alone; the edges of [star(n)] all exist. *)
Lemma star_face_edges m f s : star_face m f = Some s → set_edges s = [] ∧ set_nodes s = [].
Proof.
  unfold star_face. destruct (find_face m f); simpl; [|done]. by intros [= <-].
Qed.

Lemma star_edge_edges m e s :
  star_edge m e = Some s → set_edges s = [e] ∧ is_Some (find_edge m e).
Proof.
  unfold star_edge. destruct (find_edge m e) as [x|]; simpl; [|done]. intros H.
  split; [|by eauto]. revert H. apply (foldM_invariant (λ s, set_edges s = [e])); [|done].
  intros b f b' _ Hb. destruct (star_face m f) as [sf|] eqn:Hsf; simpl; [|done].
  intros [= <-]. simpl. apply star_face_edges in Hsf as [-> _]. by rewrite ins_all_nil.
Qed.

Lemma star_node_edges_exist m n s e :
  star_node m n = Some s → e ∈ set_edges s → is_Some (find_edge m e).
Proof.
  unfold star_node. destruct (find_node m n) as [x|]; simpl; [|done]. intros H.
  revert e. revert H.
  apply (foldM_invariant (λ s, ∀ e, e ∈ set_edges s → is_Some (find_edge m e))).
  - intros b e0 b' _ Hb. destruct (star_edge m e0) as [se|] eqn:Hse; simpl; [|done].
    intros [= <-] e. simpl. rewrite elem_of_ins_all.
    apply star_edge_edges in Hse as [-> He0].
    intros [->%list_elem_of_singleton|?]; [done|by apply Hb].
  - simpl. intros e He. by apply elem_of_nil in He.
Qed.

Lemma star_face_faces m f s :
  star_face m f = Some s → set_faces s = [f] ∧ is_Some (find_face m f).
Proof.
  unfold star_face. destruct (find_face m f); simpl; [|done]. intros [= <-]. eauto.
Qed.

Lemma star_edge_faces_exist m e s f :
  star_edge m e = Some s → f ∈ set_faces s → is_Some (find_face m f).
Proof.
  unfold star_edge. destruct (find_edge m e) as [x|]; simpl; [|done]. intros H.
  revert f. revert H.
  apply (foldM_invariant (λ s, ∀ f, f ∈ set_faces s → is_Some (find_face m f))).
  - intros b f0 b' _ Hb. destruct (star_face m f0) as [sf|] eqn:Hsf; simpl; [|done].
    intros [= <-] f. simpl. rewrite elem_of_ins_all.
    apply star_face_faces in Hsf as [-> Hf0].
    intros [->%list_elem_of_singleton|?]; [done|by apply Hb].
  - simpl. intros f Hf. by apply elem_of_nil in Hf.
Qed.

Lemma star_node_faces_exist m n s f :
  star_node m n = Some s → f ∈ set_faces s → is_Some (find_face m f).
Proof.
  unfold star_node. destruct (find_node m n) as [x|]; simpl; [|done]. intros H.
  revert f. revert H.
  apply (foldM_invariant (λ s, ∀ f, f ∈ set_faces s → is_Some (find_face m f))).
  - intros b e0 b' _ Hb. destruct (star_edge m e0) as [se|] eqn:Hse; simpl; [|done].
    intros [= <-] f. simpl. rewrite elem_of_ins_all.
    intros [?|?]; [by eapply star_edge_faces_exist|by apply Hb].
  - simpl. intros f Hf. by apply elem_of_nil in Hf.
Qed.

Lemma find_Some_valid {A} (p : gmap nat A) (k : key) :
  is_Some (i ← k; p !! i) → is_valid k = true.
Proof. destruct k; [done|]. by intros [??]. Qed.

(** ** Unfolding equations of the bounded recursions *)

Lemma connected_component_S fuel m st_n t :
  connected_component (S fuel) m st_n t =
    label ← get_label m t;
    cl_t ← closure_tet m t;
    foldM (λ st_n fit,
        t2 ← get_tet m t fit;
        if contains_tet st_n t2 then
          label2 ← get_label m t2;
          if decide (label = label2) then connected_component fuel m st_n t2
          else Some st_n
        else Some st_n)
      (erase_tet t st_n) (set_faces cl_t).
Proof. reflexivity. Qed.

Lemma crossing_loop_S fuel m c st_n :
  crossing_loop (S fuel) m c st_n =
    if decide (0 < size_tetrahedra st_n)%nat then
      if decide (c = 2) then Some true
      else
        t ← tetrahedra_begin st_n;
        st_n ← connected_component (S (size_tetrahedra st_n)) m st_n t;
        crossing_loop fuel m (c + 1) st_n
    else Some false.
Proof. reflexivity. Qed.

(** ** The navigator only reads the incidence structure *)

Lemma same_incidence_refl m : same_incidence m m.
Proof. done. Qed.

Lemma same_incidence_sym m m' : same_incidence m m' → same_incidence m' m.
Proof. intros (?&?&?). by repeat split. Qed.

Lemma same_incidence_trans m1 m2 m3 :
  same_incidence m1 m2 → same_incidence m2 m3 → same_incidence m1 m3.
Proof. intros (?&?&?) (?&?&?). repeat split; congruence. Qed.

Lemma same_topology_refl m : same_topology m m.
Proof. done. Qed.

Lemma same_topology_sym m m' : same_topology m m' → same_topology m' m.
Proof. intros [??]. split; [by apply same_incidence_sym|done]. Qed.

Lemma same_topology_trans m1 m2 m3 :
  same_topology m1 m2 → same_topology m2 m3 → same_topology m1 m3.
Proof.
  intros [??] [??]. split; [by eapply same_incidence_trans|congruence].
Qed.

Lemma same_incidence_node m m' k :
  same_incidence m m' → strip_node <$> find_node m k = strip_node <$> find_node m' k.
Proof.
  intros (H&_&_). destruct k as [i|]; simpl; [|done].
  by rewrite <-!lookup_fmap, H.
Qed.

Lemma same_incidence_edge m m' k :
  same_incidence m m' → strip_edge <$> find_edge m k = strip_edge <$> find_edge m' k.
Proof.
  intros (_&H&_). destruct k as [i|]; simpl; [|done].
  by rewrite <-!lookup_fmap, H.
Qed.

Lemma same_incidence_face m m' k :
  same_incidence m m' → strip_face <$> find_face m k = strip_face <$> find_face m' k.
Proof.
  intros (_&_&H). destruct k as [i|]; simpl; [|done].
  by rewrite <-!lookup_fmap, H.
Qed.

Lemma same_topology_tet m m' k :
  same_topology m m' → find_tetrahedron m k = find_tetrahedron m' k.
Proof. intros [_ H]. unfold find_tetrahedron. by rewrite H. Qed.

Lemma exists_node_topo m m' k : same_incidence m m' → exists_node m k = exists_node m' k.
Proof.
  intros H. apply (same_incidence_node _ _ k) in H. unfold exists_node.
  destruct (find_node m k), (find_node m' k); simplify_eq/=; try done.
Qed.

Lemma exists_edge_topo m m' k : same_incidence m m' → exists_edge m k = exists_edge m' k.
Proof.
  intros H. apply (same_incidence_edge _ _ k) in H. unfold exists_edge.
  destruct (find_edge m k), (find_edge m' k); simplify_eq/=; try done.
Qed.

Lemma exists_face_topo m m' k : same_incidence m m' → exists_face m k = exists_face m' k.
Proof.
  intros H. apply (same_incidence_face _ _ k) in H. unfold exists_face.
  destruct (find_face m k), (find_face m' k); simplify_eq/=; try done.
Qed.

Lemma star_face_topo m m' f : same_incidence m m' → star_face m f = star_face m' f.
Proof.
  intros H. apply (same_incidence_face _ _ f) in H. unfold star_face.
  destruct (find_face m f) as [x|], (find_face m' f) as [x'|]; simplify_eq/=; try done.
  congruence.
Qed.

Lemma star_edge_topo m m' e : same_incidence m m' → star_edge m e = star_edge m' e.
Proof.
  intros H. pose proof (same_incidence_edge _ _ e H) as He. unfold star_edge.
  destruct (find_edge m e) as [x|], (find_edge m' e) as [x'|]; simplify_eq/=; try done.
  assert (e_co_boundary x = e_co_boundary x') as -> by congruence.
  apply foldM_ext. intros s f _. by rewrite (star_face_topo m m').
Qed.

Lemma star_node_topo m m' n : same_incidence m m' → star_node m n = star_node m' n.
Proof.
  intros H. pose proof (same_incidence_node _ _ n H) as He. unfold star_node.
  destruct (find_node m n) as [x|], (find_node m' n) as [x'|]; simplify_eq/=; try done.
  assert (n_co_boundary x = n_co_boundary x') as -> by congruence.
  apply foldM_ext. intros s f _. by rewrite (star_edge_topo m m').
Qed.

Lemma closure_node_topo m m' n : same_incidence m m' → closure_node m n = closure_node m' n.
Proof.
  intros H. pose proof (same_incidence_node _ _ n H) as He. unfold closure_node.
  destruct (find_node m n) as [x|], (find_node m' n) as [x'|]; simplify_eq/=; done.
Qed.

Lemma closure_edge_topo m m' e : same_incidence m m' → closure_edge m e = closure_edge m' e.
Proof.
  intros H. pose proof (same_incidence_edge _ _ e H) as He. unfold closure_edge.
  destruct (find_edge m e) as [x|], (find_edge m' e) as [x'|]; simplify_eq/=; try done.
  assert (e_nodes x = e_nodes x') as -> by congruence.
  apply foldM_ext. intros s f _. by rewrite (closure_node_topo m m').
Qed.

Lemma closure_face_topo m m' f : same_incidence m m' → closure_face m f = closure_face m' f.
Proof.
  intros H. pose proof (same_incidence_face _ _ f H) as He. unfold closure_face.
  destruct (find_face m f) as [x|], (find_face m' f) as [x'|]; simplify_eq/=; try done.
  assert (f_edges x = f_edges x') as -> by congruence.
  apply foldM_ext. intros s e _. by rewrite (closure_edge_topo m m').
Qed.

Lemma closure_tet_topo m m' t : same_topology m m' → closure_tet m t = closure_tet m' t.
Proof.
  intros [H Ht]. unfold closure_tet, find_tetrahedron. rewrite Ht.
  destruct (t ≫= _) as [x|]; simpl; [|done].
  apply foldM_ext. intros s f _. by rewrite (closure_face_topo m m').
Qed.

Lemma get_label_topo m m' t : same_topology m m' → get_label m t = get_label m' t.
Proof. intros [_ H]. unfold get_label, find_tetrahedron. by rewrite H. Qed.

Lemma get_tet_topo m m' t f : same_incidence m m' → get_tet m t f = get_tet m' t f.
Proof. intros H. unfold get_tet. by rewrite (star_face_topo m m'). Qed.

Lemma connected_component_topo fuel m m' s t :
  same_topology m m' → connected_component fuel m s t = connected_component fuel m' s t.
Proof.
  intros H. revert s t.
  induction fuel as [|fuel IH]; intros s t; [done|]. rewrite !connected_component_S.
  rewrite (get_label_topo m m') by done. destruct (get_label m' t) as [l|]; simpl; [|done].
  rewrite (closure_tet_topo m m') by done. destruct (closure_tet m' t) as [cl|]; simpl; [|done].
  apply foldM_ext. intros s' f _.
  rewrite (get_tet_topo m m') by apply H. destruct (get_tet m' t f) as [t2|]; simpl; [|done].
  rewrite (get_label_topo m m') by done. by rewrite IH.
Qed.

Lemma crossing_loop_topo fuel m m' c s :
  same_topology m m' → crossing_loop fuel m c s = crossing_loop fuel m' c s.
Proof.
  intros H. revert c s. induction fuel as [|fuel IH]; intros c s; [done|].
  rewrite !crossing_loop_S. repeat case_decide; try done.
  destruct (tetrahedra_begin s) as [t|]; simpl; [|done].
  rewrite (connected_component_topo _ m m') by done.
  destruct (connected_component _ m' s t); simpl; [apply IH|done].
Qed.

Lemma crossing_topo m m' n : same_topology m m' → crossing m n = crossing m' n.
Proof.
  intros H. unfold crossing. rewrite (star_node_topo m m') by apply H.
  destruct (star_node m' n); simpl; [by apply crossing_loop_topo|done].
Qed.

(** Overwriting the flags of one simplex keeps the incidence structure. *)

Lemma same_incidence_put_node i x x' m :
  nodes m !! i = Some x → strip_node x' = strip_node x →
  same_incidence m (mk_mesh (<[i:=x']> (nodes m)) (edges m) (faces m) (tetrahedra m)).
Proof.
  intros Hx E. repeat split; simpl.
  rewrite fmap_insert, E. symmetry. apply insert_id. by rewrite lookup_fmap, Hx.
Qed.

Lemma same_incidence_put_edge i x x' m :
  edges m !! i = Some x → strip_edge x' = strip_edge x →
  same_incidence m (mk_mesh (nodes m) (<[i:=x']> (edges m)) (faces m) (tetrahedra m)).
Proof.
  intros Hx E. repeat split; simpl.
  rewrite fmap_insert, E. symmetry. apply insert_id. by rewrite lookup_fmap, Hx.
Qed.

Lemma same_incidence_put_face i x x' m :
  faces m !! i = Some x → strip_face x' = strip_face x →
  same_incidence m (mk_mesh (nodes m) (edges m) (<[i:=x']> (faces m)) (tetrahedra m)).
Proof.
  intros Hx E. repeat split; simpl.
  rewrite fmap_insert, E. symmetry. apply insert_id. by rewrite lookup_fmap, Hx.
Qed.

(** ** Normal forms of [update_flag] *)

Lemma face_flags_tets m m' x :
  tetrahedra m = tetrahedra m' → face_flags m x = face_flags m' x.
Proof.
  intros E. unfold face_flags, get_label, find_tetrahedron. by rewrite E.
Qed.

Lemma update_flag_face_nf i m :
  update_flag_face (Some i) m =
    x ← faces m !! i; fl ← face_flags m x;
    Some (mk_mesh (nodes m) (edges m) (<[i:=with_face_flags fl x]> (faces m)) (tetrahedra m)).
Proof.
  unfold update_flag_face, set_interface_face, set_boundary_face, star_face.
  simpl. destruct (faces m !! i) as [x|] eqn:Hx; simpl; [|done].
  rewrite !lookup_insert_eq. simpl. rewrite !lookup_insert_eq. simpl.
  rewrite !insert_insert_eq.
  unfold face_flags, size_tetrahedra, tetrahedra_begin. simpl. fold (co_tets x).
  destruct (co_tets x) as [|t0 [|t1 [|t2 l]]]; simpl; try done.
  - rewrite ?lookup_insert_eq; simpl; rewrite ?insert_insert_eq.
    change (get_label _ t0) with (get_label m t0).
    destruct (get_label m t0) as [l|]; simpl; [|done].
    rewrite ?lookup_insert_eq; simpl; rewrite ?insert_insert_eq.
    by destruct (decide (l ≠ 0));
      [rewrite bool_decide_eq_true_2 by done | rewrite bool_decide_eq_false_2 by done].
  - change (get_label _ t0) with (get_label m t0).
    change (get_label _ t1) with (get_label m t1).
    destruct (get_label m t0) as [l0|]; simpl; [|done].
    destruct (get_label m t1) as [l1|]; simpl; [|done].
    rewrite ?lookup_insert_eq; simpl; rewrite ?insert_insert_eq.
    by destruct (decide (l0 ≠ l1));
      [rewrite bool_decide_eq_true_2 by done | rewrite bool_decide_eq_false_2 by done].
Qed.

Lemma count_itf_cons m f fs :
  count_itf m (f :: fs) = (if face_itf m f then 1 else 0) + count_itf m fs.
Proof.
  unfold count_itf. rewrite filter_cons.
  destruct (face_itf m f); simpl; lia.
Qed.

Lemma update_flag_edge_body_step i x m f itf b c cnt :
  update_flag_edge_body (Some i)
    (mk_mesh (nodes m) (<[i:=with_edge_flags itf b c x]> (edges m)) (faces m) (tetrahedra m),
     cnt) f =
  Some
    (mk_mesh (nodes m)
       (<[i:=with_edge_flags (itf || face_itf m f) (b || face_bnd m f) c x]> (edges m))
       (faces m) (tetrahedra m),
     cnt + (if face_itf m f then 1 else 0)).
Proof.
  unfold update_flag_edge_body, exists_face, is_boundary_face, is_interface_face,
    face_itf, face_bnd.
  change (find_face (mk_mesh _ _ (faces m) _) f) with (find_face m f).
  destruct (find_face m f) as [y|] eqn:Hy.
  - rewrite bool_decide_eq_true_2 by eauto.
    destruct (f_boundary y) eqn:Hb, (f_interface y) eqn:Hi; run_setters;
      rewrite ?Hb; run_setters; rewrite ?Hy; simpl; rewrite ?Hi; run_setters;
      rewrite ?orb_true_r, ?orb_false_r, ?Z.add_0_r; done.
  - rewrite bool_decide_eq_false_2 by (by intros [??]).
    simpl. by rewrite ?orb_false_r, ?Z.add_0_r.
Qed.

Lemma update_flag_edge_loop i x m fs itf b c cnt :
  foldM (update_flag_edge_body (Some i))
    (mk_mesh (nodes m) (<[i:=with_edge_flags itf b c x]> (edges m)) (faces m) (tetrahedra m),
     cnt) fs =
  Some
    (mk_mesh (nodes m)
       (<[i:=with_edge_flags (itf || existsb (face_itf m) fs)
                             (b || existsb (face_bnd m) fs) c x]> (edges m))
       (faces m) (tetrahedra m),
     cnt + count_itf m fs).
Proof.
  revert itf b cnt. induction fs as [|f fs IH]; intros itf b cnt.
  - simpl. rewrite !orb_false_r. unfold count_itf. simpl. by rewrite Z.add_0_r.
  - cbn [foldM]. rewrite update_flag_edge_body_step. simpl.
    by rewrite IH, count_itf_cons, !orb_assoc, Z.add_assoc.
Qed.

Lemma update_flag_edge_nf i m :
  update_flag_edge (Some i) m =
    x ← edges m !! i; st_e ← star_edge m (Some i);
    let fs := set_faces st_e in
    Some (mk_mesh (nodes m)
            (<[i:=with_edge_flags (existsb (face_itf m) fs) (existsb (face_bnd m) fs)
                    (bool_decide (2 < count_itf m fs)) x]> (edges m))
            (faces m) (tetrahedra m)).
Proof.
  unfold update_flag_edge.
  destruct (edges m !! i) as [x|] eqn:Hx; run_setters; rewrite ?Hx; run_setters; [|done].
  rewrite <-(star_edge_topo m) by (by eapply same_incidence_put_edge).
  destruct (star_edge m (Some i)) as [st|]; simpl; [|done].
  change (mk_edge (e_nodes x) (e_co_boundary x) false false false)
    with (with_edge_flags false false false x).
  rewrite update_flag_edge_loop. simpl. rewrite Z.add_0_l.
  case_decide.
  - rewrite bool_decide_eq_true_2 by done. by run_setters.
  - by rewrite bool_decide_eq_false_2 by done.
Qed.

Lemma update_flag_node_body_step i x m e itf b c :
  update_flag_node_body (Some i)
    (mk_mesh (<[i:=with_node_flags itf b c x]> (nodes m)) (edges m) (faces m) (tetrahedra m)) e =
  Some
    (mk_mesh
       (<[i:=with_node_flags (itf || edge_itf m e) (b || edge_bnd m e) (c || edge_crs m e) x]>
          (nodes m))
       (edges m) (faces m) (tetrahedra m)).
Proof.
  unfold update_flag_node_body, exists_edge, is_boundary_edge, is_interface_edge,
    is_crossing_edge, edge_itf, edge_bnd, edge_crs.
  change (find_edge (mk_mesh _ (edges m) _ _) e) with (find_edge m e).
  destruct (find_edge m e) as [y|] eqn:Hy.
  - rewrite bool_decide_eq_true_2 by eauto.
    destruct (e_interface y) eqn:Hi, (e_boundary y) eqn:Hb, (e_crossing y) eqn:Hc;
      run_setters; rewrite ?Hy; simpl; rewrite ?Hi, ?Hb, ?Hc; run_setters;
      rewrite ?Hy; simpl; rewrite ?Hi, ?Hb, ?Hc; run_setters;
      rewrite ?Hy; simpl; rewrite ?Hi, ?Hb, ?Hc; run_setters;
      rewrite ?orb_true_r, ?orb_false_r; done.
  - rewrite bool_decide_eq_false_2 by (by intros [??]).
    simpl. by rewrite ?orb_false_r.
Qed.

Lemma update_flag_node_loop i x m es itf b c :
  foldM (update_flag_node_body (Some i))
    (mk_mesh (<[i:=with_node_flags itf b c x]> (nodes m)) (edges m) (faces m) (tetrahedra m))
    es =
  Some
    (mk_mesh
       (<[i:=with_node_flags (itf || existsb (edge_itf m) es) (b || existsb (edge_bnd m) es)
                             (c || existsb (edge_crs m) es) x]> (nodes m))
       (edges m) (faces m) (tetrahedra m)).
Proof.
  revert itf b c. induction es as [|e es IH]; intros itf b c.
  - simpl. by rewrite !orb_false_r.
  - cbn [foldM]. rewrite update_flag_node_body_step. simpl.
    by rewrite IH, !orb_assoc.
Qed.

Lemma update_flag_node_nf i m :
  update_flag_node (Some i) m =
    x ← nodes m !! i; st_n ← star_node m (Some i);
    let es := set_edges st_n in
    let itf := existsb (edge_itf m) es in
    let c := existsb (edge_crs m) es in
    cr ← (if negb c && itf then crossing m (Some i) else Some false);
    Some (mk_mesh
            (<[i:=with_node_flags itf (existsb (edge_bnd m) es) (c || cr) x]> (nodes m))
            (edges m) (faces m) (tetrahedra m)).
Proof.
  unfold update_flag_node.
  destruct (nodes m !! i) as [x|] eqn:Hx; run_setters; rewrite ?Hx; run_setters; [|done].
  rewrite <-(star_node_topo m) by (by eapply same_incidence_put_node).
  destruct (star_node m (Some i)) as [st|]; simpl; [|done].
  change (mk_node (n_pos x) (n_co_boundary x) false false false)
    with (with_node_flags false false false x).
  rewrite update_flag_node_loop. simpl.
  unfold is_crossing_node, is_interface_node. run_setters.
  destruct (existsb (edge_crs m) (set_edges st)) eqn:Hc; simpl; [done|].
  destruct (existsb (edge_itf m) (set_edges st)) eqn:Hi; simpl; [|done].
  rewrite <-(crossing_topo m);
    [|split; [by eapply same_incidence_put_node|done]].
  destruct (crossing m (Some i)) as [[]|]; simpl; run_setters; done.
Qed.

Lemma update_flag_face_Some f m m' :
  update_flag_face f m = Some m' →
  ∃ i x fl, f = Some i ∧ faces m !! i = Some x ∧ face_flags m x = Some fl ∧
    m' = mk_mesh (nodes m) (edges m) (<[i:=with_face_flags fl x]> (faces m)) (tetrahedra m).
Proof.
  destruct f as [i|]; [|done]. rewrite update_flag_face_nf.
  destruct (faces m !! i) as [x|] eqn:?; simpl; [|done].
  destruct (face_flags m x) as [fl|] eqn:?; simpl; [|done].
  intros [= <-]. by exists i, x, fl.
Qed.

Lemma update_flag_edge_Some e m m' :
  update_flag_edge e m = Some m' →
  ∃ i x st, e = Some i ∧ edges m !! i = Some x ∧ star_edge m e = Some st ∧
    m' = mk_mesh (nodes m)
           (<[i:=with_edge_flags (existsb (face_itf m) (set_faces st))
                   (existsb (face_bnd m) (set_faces st))
                   (bool_decide (2 < count_itf m (set_faces st))) x]> (edges m))
           (faces m) (tetrahedra m).
Proof.
  destruct e as [i|]; [|done]. rewrite update_flag_edge_nf.
  destruct (edges m !! i) as [x|] eqn:?; simpl; [|done].
  destruct (star_edge m (Some i)) as [st|] eqn:?; simpl; [|done].
  intros [= <-]. by exists i, x, st.
Qed.

Lemma update_flag_node_Some n m m' :
  update_flag_node n m = Some m' →
  ∃ i x st cr, n = Some i ∧ nodes m !! i = Some x ∧ star_node m n = Some st ∧
    crossing_query m n (set_edges st) = Some cr ∧
    m' = mk_mesh
           (<[i:=with_node_flags (existsb (edge_itf m) (set_edges st))
                   (existsb (edge_bnd m) (set_edges st))
                   (existsb (edge_crs m) (set_edges st) || cr) x]> (nodes m))
           (edges m) (faces m) (tetrahedra m).
Proof.
  destruct n as [i|]; [|done]. rewrite update_flag_node_nf.
  destruct (nodes m !! i) as [x|] eqn:?; simpl; [|done].
  destruct (star_node m (Some i)) as [st|] eqn:?; simpl; [|done].
  fold (crossing_query m (Some i) (set_edges st)).
  destruct (crossing_query m (Some i) (set_edges st)) as [cr|] eqn:?; simpl; [|done].
  intros [= <-]. by exists i, x, st, cr.
Qed.

(** ** Simplices whose flags are up to date

    A simplex is up to date when recomputing its flags changes nothing. *)

Lemma face_fixed_iff i m :
  update_flag_face (Some i) m = Some m ↔
  ∃ x fl, faces m !! i = Some x ∧ face_flags m x = Some fl ∧ with_face_flags fl x = x.
Proof.
  split.
  - intros (j & x & fl & [= <-] & Hx & Hfl & Hm)%update_flag_face_Some.
    exists x, fl. split; [done|]. split; [done|].
    apply (f_equal faces) in Hm. simpl in Hm.
    apply (f_equal (λ p, p !! i)) in Hm. rewrite lookup_insert_eq, Hx in Hm. congruence.
  - intros (x & fl & Hx & Hfl & E). rewrite update_flag_face_nf, Hx. simpl.
    rewrite Hfl. simpl. rewrite E, insert_id by done. by destruct m.
Qed.

Lemma edge_fixed_iff i m :
  update_flag_edge (Some i) m = Some m ↔
  ∃ x st, edges m !! i = Some x ∧ star_edge m (Some i) = Some st ∧
    with_edge_flags (existsb (face_itf m) (set_faces st)) (existsb (face_bnd m) (set_faces st))
      (bool_decide (2 < count_itf m (set_faces st))) x = x.
Proof.
  split.
  - intros (j & x & st & [= <-] & Hx & Hst & Hm)%update_flag_edge_Some.
    exists x, st. split; [done|]. split; [done|].
    apply (f_equal edges) in Hm. simpl in Hm.
    apply (f_equal (λ p, p !! i)) in Hm. rewrite lookup_insert_eq, Hx in Hm. congruence.
  - intros (x & st & Hx & Hst & E). rewrite update_flag_edge_nf, Hx. simpl.
    rewrite Hst. simpl. rewrite E, insert_id by done. by destruct m.
Qed.

Lemma node_fixed_iff i m :
  update_flag_node (Some i) m = Some m ↔
  ∃ x st cr, nodes m !! i = Some x ∧ star_node m (Some i) = Some st ∧
    crossing_query m (Some i) (set_edges st) = Some cr ∧
    with_node_flags (existsb (edge_itf m) (set_edges st)) (existsb (edge_bnd m) (set_edges st))
      (existsb (edge_crs m) (set_edges st) || cr) x = x.
Proof.
  split.
  - intros (j & x & st & cr & [= <-] & Hx & Hst & Hcr & Hm)%update_flag_node_Some.
    exists x, st, cr. split; [done|]. split; [done|]. split; [done|].
    apply (f_equal nodes) in Hm. simpl in Hm.
    apply (f_equal (λ p, p !! i)) in Hm. rewrite lookup_insert_eq, Hx in Hm. congruence.
  - intros (x & st & cr & Hx & Hst & Hcr & E). rewrite update_flag_node_nf, Hx. simpl.
    rewrite Hst. simpl. fold (crossing_query m (Some i) (set_edges st)).
    rewrite Hcr. simpl. rewrite E, insert_id by done. by destruct m.
Qed.

(** What the recomputed values depend on. *)

Lemma face_itf_faces m m' f : faces m = faces m' → face_itf m f = face_itf m' f.
Proof. intros E. unfold face_itf, find_face. by rewrite E. Qed.

Lemma face_bnd_faces m m' f : faces m = faces m' → face_bnd m f = face_bnd m' f.
Proof. intros E. unfold face_bnd, find_face. by rewrite E. Qed.

Lemma count_itf_faces m m' fs : faces m = faces m' → count_itf m fs = count_itf m' fs.
Proof.
  intros E. unfold count_itf. do 2 f_equal. apply list_filter_iff. intros f.
  by rewrite (face_itf_faces m m').
Qed.

Lemma existsb_ext {A} (f g : A → bool) l : (∀ x, f x = g x) → existsb f l = existsb g l.
Proof. intros H. induction l as [|a l IH]; simpl; [done|]. by rewrite H, IH. Qed.

Lemma edge_flags_edges m m' :
  edges m = edges m' →
  ∀ e, edge_itf m e = edge_itf m' e ∧ edge_bnd m e = edge_bnd m' e ∧
       edge_crs m e = edge_crs m' e.
Proof. intros E e. unfold edge_itf, edge_bnd, edge_crs, find_edge. by rewrite E. Qed.

Lemma crossing_query_topo m m' n es :
  same_topology m m' → edges m = edges m' →
  crossing_query m n es = crossing_query m' n es.
Proof.
  intros Ht E. unfold crossing_query.
  rewrite (existsb_ext (edge_crs m) (edge_crs m')) by (intros; by apply edge_flags_edges).
  rewrite (existsb_ext (edge_itf m) (edge_itf m')) by (intros; by apply edge_flags_edges).
  by rewrite (crossing_topo m m').
Qed.

(** Being up to date survives changes elsewhere in the mesh. *)

Lemma face_fixed_frame i m m' :
  update_flag_face (Some i) m = Some m →
  tetrahedra m = tetrahedra m' → faces m !! i = faces m' !! i →
  update_flag_face (Some i) m' = Some m'.
Proof.
  rewrite !face_fixed_iff. intros (x & fl & Hx & Hfl & E) Ht Hf.
  exists x, fl. rewrite <-Hf, <-(face_flags_tets m m') by done. done.
Qed.

Lemma edge_fixed_frame i m m' :
  update_flag_edge (Some i) m = Some m →
  same_incidence m m' → faces m = faces m' → edges m !! i = edges m' !! i →
  update_flag_edge (Some i) m' = Some m'.
Proof.
  rewrite !edge_fixed_iff. intros (x & st & Hx & Hst & E) Hi Hf He.
  exists x, st. rewrite <-He, <-(star_edge_topo m m') by done.
  split; [done|]. split; [done|].
  rewrite <-(existsb_ext (face_itf m) (face_itf m')) by (intros; by apply face_itf_faces).
  rewrite <-(existsb_ext (face_bnd m) (face_bnd m')) by (intros; by apply face_bnd_faces).
  by rewrite <-(count_itf_faces m m').
Qed.

Lemma node_fixed_frame i m m' :
  update_flag_node (Some i) m = Some m →
  same_topology m m' → edges m = edges m' → nodes m !! i = nodes m' !! i →
  update_flag_node (Some i) m' = Some m'.
Proof.
  rewrite !node_fixed_iff. intros (x & st & cr & Hx & Hst & Hcr & E) Ht He Hn.
  exists x, st, cr. rewrite <-Hn, <-(star_node_topo m m') by apply Ht.
  split; [done|]. split; [done|].
  rewrite <-(crossing_query_topo m m') by done. split; [done|].
  rewrite <-(existsb_ext (edge_itf m) (edge_itf m')) by (intros; by apply edge_flags_edges).
  rewrite <-(existsb_ext (edge_bnd m) (edge_bnd m')) by (intros; by apply edge_flags_edges).
  by rewrite <-(existsb_ext (edge_crs m) (edge_crs m')) by (intros; by apply edge_flags_edges).
Qed.

(** ** One step of flag propagation *)

Lemma update_flag_face_step f m m' :
  update_flag_face f m = Some m' →
  nodes m' = nodes m ∧ edges m' = edges m ∧ tetrahedra m' = tetrahedra m ∧
  same_incidence m m' ∧ (∀ j, Some j ≠ f → faces m' !! j = faces m !! j) ∧
  update_flag_face f m' = Some m'.
Proof.
  intros (i & x & fl & -> & Hx & Hfl & ->)%update_flag_face_Some. simpl.
  assert (same_incidence m
    (mk_mesh (nodes m) (edges m) (<[i:=with_face_flags fl x]> (faces m)) (tetrahedra m)))
    as Hinc by (by eapply same_incidence_put_face).
  repeat split; try done; try apply Hinc.
  - intros j Hj. apply lookup_insert_ne. congruence.
  - apply face_fixed_iff. exists (with_face_flags fl x), fl. simpl.
    rewrite lookup_insert_eq. split; [done|]. split; [|done].
    by rewrite <-(face_flags_tets m).
Qed.

Lemma update_flag_edge_step e m m' :
  update_flag_edge e m = Some m' →
  nodes m' = nodes m ∧ faces m' = faces m ∧ tetrahedra m' = tetrahedra m ∧
  same_incidence m m' ∧ (∀ j, Some j ≠ e → edges m' !! j = edges m !! j) ∧
  update_flag_edge e m' = Some m'.
Proof.
  intros (i & x & st & -> & Hx & Hst & ->)%update_flag_edge_Some. simpl.
  assert (same_incidence m
    (mk_mesh (nodes m)
       (<[i:=with_edge_flags (existsb (face_itf m) (set_faces st))
               (existsb (face_bnd m) (set_faces st))
               (bool_decide (2 < count_itf m (set_faces st))) x]> (edges m))
       (faces m) (tetrahedra m))) as Hinc by (by eapply same_incidence_put_edge).
  repeat split; try done; try apply Hinc.
  - intros j Hj. apply lookup_insert_ne. congruence.
  - apply edge_fixed_iff. eexists _, st. simpl. rewrite lookup_insert_eq.
    split; [done|]. split; [by rewrite <-(star_edge_topo m)|]. done.
Qed.

Lemma update_flag_node_step n m m' :
  update_flag_node n m = Some m' →
  edges m' = edges m ∧ faces m' = faces m ∧ tetrahedra m' = tetrahedra m ∧
  same_incidence m m' ∧ (∀ j, Some j ≠ n → nodes m' !! j = nodes m !! j) ∧
  update_flag_node n m' = Some m'.
Proof.
  intros (i & x & st & cr & -> & Hx & Hst & Hcr & ->)%update_flag_node_Some. simpl.
  set (x' := with_node_flags _ _ _ x).
  assert (same_incidence m (mk_mesh (<[i:=x']> (nodes m)) (edges m) (faces m) (tetrahedra m)))
    as Hinc by (by eapply same_incidence_put_node).
  repeat split; try done; try apply Hinc.
  - intros j Hj. apply lookup_insert_ne. congruence.
  - apply node_fixed_iff. exists x', st, cr. simpl. rewrite lookup_insert_eq.
    split; [done|]. split; [by rewrite <-(star_node_topo m)|].
    split; [by rewrite <-(crossing_query_topo m)|]. done.
Qed.

(** ** The three phases of [update] *)

Lemma update_phases s m :
  update s m =
    m ← face_phase (set_faces s) m; m ← edge_phase (set_edges s) m;
    node_phase (set_nodes s) m.
Proof. reflexivity. Qed.

Lemma face_phase_spec l m m' :
  face_phase l m = Some m' →
  nodes m' = nodes m ∧ edges m' = edges m ∧ tetrahedra m' = tetrahedra m ∧
  same_incidence m m' ∧ (∀ j, Some j ∉ l → faces m' !! j = faces m !! j) ∧
  (∀ f, f ∈ l → exists_face m' f = true → update_flag_face f m' = Some m').
Proof.
  unfold face_phase. revert m. induction l as [|f l IH]; intros m; simpl.
  - intros [= <-]. repeat split; try done. intros f Hf. by apply elem_of_nil in Hf.
  - destruct (exists_face m f) eqn:Hex.
    + destruct (update_flag_face f m) as [m1|] eqn:Hup; simpl; [|done].
      intros (Hn & He & Ht & Hi & Hf & Hfix)%IH.
      apply update_flag_face_step in Hup as (Hn1 & He1 & Ht1 & Hi1 & Hf1 & Hfix1).
      split; [congruence|]. split; [congruence|]. split; [congruence|].
      split; [by eapply same_incidence_trans|]. split.
      * intros j Hj. rewrite not_elem_of_cons in Hj. destruct Hj as [Hj1 Hj2].
        rewrite Hf by done. by apply Hf1.
      * intros f' [->|Hf']%elem_of_cons Hex'; [|by apply Hfix].
        destruct (decide (f ∈ l)) as [Hin|Hnin]; [by apply Hfix|].
        destruct f as [i|]; [|done].
        eapply face_fixed_frame; [exact Hfix1|congruence|]. symmetry. by apply Hf.
    + intros (Hn & He & Ht & Hi & Hf & Hfix)%IH.
      repeat split; try done; try apply Hi.
      * intros j Hj. rewrite not_elem_of_cons in Hj. apply Hf, Hj.
      * intros f' [->|Hf']%elem_of_cons Hex'; [|by apply Hfix].
        rewrite <-(exists_face_topo m m') in Hex' by done. congruence.
Qed.

Lemma edge_phase_spec l m m' :
  edge_phase l m = Some m' →
  nodes m' = nodes m ∧ faces m' = faces m ∧ tetrahedra m' = tetrahedra m ∧
  same_incidence m m' ∧ (∀ j, Some j ∉ l → edges m' !! j = edges m !! j) ∧
  (∀ e, e ∈ l → exists_edge m' e = true → update_flag_edge e m' = Some m').
Proof.
  unfold edge_phase. revert m. induction l as [|e l IH]; intros m; simpl.
  - intros [= <-]. repeat split; try done. intros e He. by apply elem_of_nil in He.
  - destruct (exists_edge m e) eqn:Hex.
    + destruct (update_flag_edge e m) as [m1|] eqn:Hup; simpl; [|done].
      intros (Hn & Hf & Ht & Hi & He & Hfix)%IH.
      apply update_flag_edge_step in Hup as (Hn1 & Hf1 & Ht1 & Hi1 & He1 & Hfix1).
      split; [congruence|]. split; [congruence|]. split; [congruence|].
      split; [by eapply same_incidence_trans|]. split.
      * intros j Hj. rewrite not_elem_of_cons in Hj. destruct Hj as [Hj1 Hj2].
        rewrite He by done. by apply He1.
      * intros e' [->|He']%elem_of_cons Hex'; [|by apply Hfix].
        destruct (decide (e ∈ l)) as [Hin|Hnin]; [by apply Hfix|].
        destruct e as [i|]; [|done].
        eapply edge_fixed_frame; [exact Hfix1|done|congruence|]. symmetry. by apply He.
    + intros (Hn & Hf & Ht & Hi & He & Hfix)%IH.
      repeat split; try done; try apply Hi.
      * intros j Hj. rewrite not_elem_of_cons in Hj. apply He, Hj.
      * intros e' [->|He']%elem_of_cons Hex'; [|by apply Hfix].
        rewrite <-(exists_edge_topo m m') in Hex' by done. congruence.
Qed.

Lemma node_phase_spec l m m' :
  node_phase l m = Some m' →
  edges m' = edges m ∧ faces m' = faces m ∧ tetrahedra m' = tetrahedra m ∧
  same_incidence m m' ∧ (∀ j, Some j ∉ l → nodes m' !! j = nodes m !! j) ∧
  (∀ n, n ∈ l → exists_node m' n = true → update_flag_node n m' = Some m').
Proof.
  unfold node_phase. revert m. induction l as [|n l IH]; intros m; simpl.
  - intros [= <-]. repeat split; try done. intros n Hn. by apply elem_of_nil in Hn.
  - destruct (exists_node m n) eqn:Hex.
    + destruct (update_flag_node n m) as [m1|] eqn:Hup; simpl; [|done].
      intros (He & Hf & Ht & Hi & Hn & Hfix)%IH.
      apply update_flag_node_step in Hup as (He1 & Hf1 & Ht1 & Hi1 & Hn1 & Hfix1).
      split; [congruence|]. split; [congruence|]. split; [congruence|].
      split; [by eapply same_incidence_trans|]. split.
      * intros j Hj. rewrite not_elem_of_cons in Hj. destruct Hj as [Hj1 Hj2].
        rewrite Hn by done. by apply Hn1.
      * intros n' [->|Hn']%elem_of_cons Hex'; [|by apply Hfix].
        destruct (decide (n ∈ l)) as [Hin|Hnin]; [by apply Hfix|].
        destruct n as [i|]; [|done].
        eapply node_fixed_frame; [exact Hfix1|by split|congruence|].
        symmetry. by apply Hn.
    + intros (He & Hf & Ht & Hi & Hn & Hfix)%IH.
      repeat split; try done; try apply Hi.
      * intros j Hj. rewrite not_elem_of_cons in Hj. apply Hn, Hj.
      * intros n' [->|Hn']%elem_of_cons Hex'; [|by apply Hfix].
        rewrite <-(exists_node_topo m m') in Hex' by done. congruence.
Qed.

(** A phase over simplices that are all up to date changes nothing. *)

Lemma face_phase_fixed l m :
  (∀ f, f ∈ l → exists_face m f = true → update_flag_face f m = Some m) →
  face_phase l m = Some m.
Proof.
  unfold face_phase. induction l as [|f l IH]; intros H; simpl; [done|].
  destruct (exists_face m f) eqn:Hex.
  - rewrite H by (done || by left). simpl. apply IH. intros ???. apply H; [by right|done].
  - apply IH. intros ???. apply H; [by right|done].
Qed.

Lemma edge_phase_fixed l m :
  (∀ e, e ∈ l → exists_edge m e = true → update_flag_edge e m = Some m) →
  edge_phase l m = Some m.
Proof.
  unfold edge_phase. induction l as [|e l IH]; intros H; simpl; [done|].
  destruct (exists_edge m e) eqn:Hex.
  - rewrite H by (done || by left). simpl. apply IH. intros ???. apply H; [by right|done].
  - apply IH. intros ???. apply H; [by right|done].
Qed.

Lemma node_phase_fixed l m :
  (∀ n, n ∈ l → exists_node m n = true → update_flag_node n m = Some m) →
  node_phase l m = Some m.
Proof.
  unfold node_phase. induction l as [|n l IH]; intros H; simpl; [done|].
  destruct (exists_node m n) eqn:Hex.
  - rewrite H by (done || by left). simpl. apply IH. intros ???. apply H; [by right|done].
  - apply IH. intros ???. apply H; [by right|done].
Qed.

(** ** [update] as a whole *)

Lemma update_frame s m m' :
  update s m = Some m' →
  tetrahedra m' = tetrahedra m ∧ same_incidence m m' ∧
  (∀ j, Some j ∉ set_nodes s → nodes m' !! j = nodes m !! j) ∧
  (∀ j, Some j ∉ set_edges s → edges m' !! j = edges m !! j) ∧
  (∀ j, Some j ∉ set_faces s → faces m' !! j = faces m !! j).
Proof.
  rewrite update_phases.
  destruct (face_phase (set_faces s) m) as [m1|] eqn:H1; simpl; [|done].
  destruct (edge_phase (set_edges s) m1) as [m2|] eqn:H2; simpl; [|done].
  intros H3.
  apply face_phase_spec in H1 as (Hn1 & He1 & Ht1 & Hi1 & Hf1 & _).
  apply edge_phase_spec in H2 as (Hn2 & Hf2 & Ht2 & Hi2 & He2 & _).
  apply node_phase_spec in H3 as (He3 & Hf3 & Ht3 & Hi3 & Hn3 & _).
  split; [congruence|].
  split; [eapply same_incidence_trans; [|done]; by eapply same_incidence_trans|].
  split; [|split].
  - intros j Hj. rewrite Hn3 by done. congruence.
  - intros j Hj. rewrite He3, He2 by done. congruence.
  - intros j Hj. rewrite Hf3, Hf2. by apply Hf1.
Qed.

Lemma exists_face_Some m f : exists_face m f = true → ∃ i, f = Some i.
Proof.
  unfold exists_face. rewrite bool_decide_eq_true. destruct f; [eauto|]. by intros [??].
Qed.

Lemma exists_edge_Some m e : exists_edge m e = true → ∃ i, e = Some i.
Proof.
  unfold exists_edge. rewrite bool_decide_eq_true. destruct e; [eauto|]. by intros [??].
Qed.

Lemma exists_node_Some m n : exists_node m n = true → ∃ i, n = Some i.
Proof.
  unfold exists_node. rewrite bool_decide_eq_true. destruct n; [eauto|]. by intros [??].
Qed.

(** ** [set_label] *)

Lemma set_label_effect t label m m' :
  set_label t label m = Some m' →
  ∃ i x cl,
    t = Some i ∧ tetrahedra m !! i = Some x ∧ closure_tet m t = Some cl ∧
    tetrahedra m' = <[i:=mk_tet (t_faces x) label]> (tetrahedra m) ∧
    same_incidence m m' ∧
    (∀ j, Some j ∉ set_nodes cl → nodes m' !! j = nodes m !! j) ∧
    (∀ j, Some j ∉ set_edges cl → edges m' !! j = edges m !! j) ∧
    (∀ j, Some j ∉ set_faces cl → faces m' !! j = faces m !! j).
Proof.
  unfold set_label, put_label. destruct t as [i|]; [|done]. simpl.
  destruct (tetrahedra m !! i) as [x|] eqn:Hx; simpl; [|done].
  set (m1 := mk_mesh (nodes m) (edges m) (faces m)
               (<[i:=mk_tet (t_faces x) label]> (tetrahedra m))).
  assert (same_incidence m m1) as Hi1 by done.
  assert (closure_tet m1 (Some i) = closure_tet m (Some i)) as Hcl.
  { unfold closure_tet. simpl. rewrite lookup_insert_eq, Hx. simpl.
    apply foldM_ext. intros s f _. by rewrite (closure_face_topo m m1). }
  rewrite Hcl. destruct (closure_tet m (Some i)) as [cl|]; simpl; [|done].
  intros (Ht & Hi & Hn & He & Hf)%update_frame.
  exists i, x, cl. repeat split; try done; try apply Hi.
Qed.

(** Relabelling a list of tetrahedra, as [split(t)] does with the star of
    the new node. *)
Lemma set_labels_effect l label m m' :
  foldM (λ m tit, set_label tit label m) m l = Some m' →
  same_incidence m m' ∧
  (∀ j, Some j ∈ l →
     ∃ x, tetrahedra m !! j = Some x ∧ tetrahedra m' !! j = Some (mk_tet (t_faces x) label)) ∧
  (∀ j, Some j ∉ l → tetrahedra m' !! j = tetrahedra m !! j) ∧
  (None ∉ l) ∧ dom (tetrahedra m') = dom (tetrahedra m).
Proof.
  revert m. induction l as [|t l IH]; intros m; simpl.
  - intros [= <-]. repeat split; try done.
    + intros j Hk. by apply elem_of_nil in Hk.
    + by intros ?%elem_of_nil.
  - destruct (set_label t label m) as [m1|] eqn:H1; simpl; [|done].
    apply set_label_effect in H1 as (i & x & cl & -> & Hx & _ & Ht & Hi & _).
    intros (Hi' & Hin & Hout & Hnone & Hdom)%IH.
    split; [by eapply same_incidence_trans|]. split; [|split; [|split]].
    + intros j Hk. destruct (decide (Some j ∈ l)) as [Hkl|Hkl].
      * destruct (Hin j Hkl) as (y & Hy & Hy'). rewrite Ht in Hy.
        destruct (decide (i = j)) as [->|Hne].
        -- rewrite lookup_insert_eq in Hy. injection Hy as <-. eauto.
        -- rewrite lookup_insert_ne in Hy by done. eauto.
      * apply elem_of_cons in Hk as [[= ->]|Hk]; [|done].
        rewrite Hout, Ht, lookup_insert_eq by done. eauto.
    + intros j Hk. apply not_elem_of_cons in Hk as [Hne Hk].
      rewrite Hout, Ht by done. apply lookup_insert_ne. congruence.
    + apply not_elem_of_cons. split; [done|done].
    + rewrite Hdom, Ht. apply dom_insert_lookup_L. eauto.
Qed.

(** ** The walk of [connected_component] *)

Lemma reach_in m S t x : reach m S t x → x = t ∨ x ∈ S.
Proof. destruct 1; [by left|by right]. Qed.

Lemma reach_mono m S S' t x :
  (∀ y, y ∈ S → y ∈ S') → reach m S t x → reach m S' t x.
Proof.
  intros HS. induction 1 as [|u v _ IH Hadj Hv]; [constructor|].
  eapply reach_step; [exact IH|done|by apply HS].
Qed.

Lemma reach_trans m S t u x : reach m S t u → reach m S u x → reach m S t x.
Proof.
  intros Htu. induction 1 as [|v w _ IH Hadj Hw]; [done|].
  by eapply reach_step.
Qed.

(** Two sublists of a duplicate-free list with the same members are equal. *)
Lemma sublist_unique (l l1 l2 : list key) :
  NoDup l → l1 `sublist_of` l → l2 `sublist_of` l → (∀ x, x ∈ l1 ↔ x ∈ l2) → l1 = l2.
Proof.
  intros Hnd. revert l1 l2. induction Hnd as [|a l Ha Hnd IH]; intros l1 l2 H1 H2 Hm.
  - apply sublist_nil_r in H1, H2. by subst.
  - apply sublist_cons_r in H1 as [H1|(l1' & -> & H1)];
      apply sublist_cons_r in H2 as [H2|(l2' & -> & H2)].
    + by apply IH.
    + exfalso. apply Ha. eapply (sublist_subseteq _ _ H1), Hm. by left.
    + exfalso. apply Ha. eapply (sublist_subseteq _ _ H2), Hm. by left.
    + f_equal. apply IH; [done..|]. intros x. split; intros Hx.
      * assert (x ∈ a :: l2') as [->|?]%elem_of_cons by (apply Hm; by right); [|done].
        destruct Ha. by apply (sublist_subseteq _ _ H1).
      * assert (x ∈ a :: l1') as [->|?]%elem_of_cons by (apply Hm; by right); [|done].
        destruct Ha. by apply (sublist_subseteq _ _ H2).
Qed.

Lemma removes_unique m S t S1 S2 :
  NoDup S → removes m S t S1 → removes m S t S2 → S1 = S2.
Proof.
  intros Hnd [Hs1 Hm1] [Hs2 Hm2]. eapply sublist_unique; [done..|].
  intros x. by rewrite Hm1, Hm2.
Qed.

(** The faces listed by [closure(t)] all exist. *)

Lemma closure_edge_faces m e s : closure_edge m e = Some s → set_faces s = [].
Proof.
  unfold closure_edge. destruct (find_edge m e) as [x|]; simpl; [|done].
  apply (foldM_invariant (λ s, set_faces s = [])); [|done].
  intros b n b' _ Hb. unfold closure_node. destruct (find_node m n); simpl; [|done].
  intros [= <-]. simpl. by rewrite Hb.
Qed.

Lemma closure_face_faces m f s :
  closure_face m f = Some s → set_faces s = [f] ∧ is_Some (find_face m f).
Proof.
  unfold closure_face. destruct (find_face m f) as [x|]; simpl; [|done].
  intros H. split; [|by eauto]. revert H.
  apply (foldM_invariant (λ s, set_faces s = [f])); [|done].
  intros b e b' _ Hb. destruct (closure_edge m e) as [se|] eqn:Hse; simpl; [|done].
  intros [= <-]. simpl. apply closure_edge_faces in Hse as ->. by rewrite ins_all_nil.
Qed.

Lemma closure_tet_faces_exist m t cl f :
  closure_tet m t = Some cl → f ∈ set_faces cl → is_Some (find_face m f).
Proof.
  unfold closure_tet. destruct (find_tetrahedron m t) as [x|]; simpl; [|done]. intros H.
  revert f. revert H.
  apply (foldM_invariant (λ s, ∀ f, f ∈ set_faces s → is_Some (find_face m f))).
  - intros b f0 b' _ Hb. destruct (closure_face m f0) as [sf|] eqn:Hsf; simpl; [|done].
    intros [= <-] f. simpl. rewrite elem_of_ins_all.
    apply closure_face_faces in Hsf as [-> Hf0].
    intros [->%list_elem_of_singleton|?]; [done|by apply Hb].
  - simpl. intros f Hf. by apply elem_of_nil in Hf.
Qed.

Lemma closure_tet_label m t cl : closure_tet m t = Some cl → is_Some (get_label m t).
Proof.
  unfold closure_tet, get_label. destruct (find_tetrahedron m t); simpl; [eauto|done].
Qed.

Lemma get_tet_is_Some m t f : is_Some (find_face m f) → is_Some (get_tet m t f).
Proof. intros [x Hx]. unfold get_tet, star_face. rewrite Hx. simpl. eauto. Qed.

Lemma era_sublist k (l : list key) : era k l `sublist_of` l.
Proof. apply sublist_filter. Qed.

Lemma era_length_lt k (l : list key) : k ∈ l → (length (era k l) < length l)%nat.
Proof. intros Hk. unfold era. eapply length_filter_lt; [done|]. by intros []. Qed.

Lemma walk_loop fuel m t l :
  (∀ st t st', connected_component fuel m st t = Some st' → walk_result m st t st') →
  ∀ fs st_a st_b,
    foldM (λ st_n fit,
        t2 ← get_tet m t fit;
        if contains_tet st_n t2 then
          label2 ← get_label m t2;
          if decide (l = label2) then connected_component fuel m st_n t2
          else Some st_n
        else Some st_n) st_a fs = Some st_b →
    set_nodes st_b = set_nodes st_a ∧ set_edges st_b = set_edges st_a ∧
    set_faces st_b = set_faces st_a ∧
    set_tets st_b `sublist_of` set_tets st_a ∧
    (∀ x, x ∈ set_tets st_a → x ∉ set_tets st_b →
       ∃ f v, f ∈ fs ∧ get_tet m t f = Some v ∧ get_label m v = Some l ∧
              v ∈ set_tets st_a ∧ reach m (set_tets st_a) v x) ∧
    (∀ a b, a ∈ set_tets st_a → a ∉ set_tets st_b → adjacent m a b → b ∉ set_tets st_b) ∧
    (∀ f v, f ∈ fs → get_tet m t f = Some v → get_label m v = Some l → v ∉ set_tets st_b).
Proof.
  intros IHfuel. induction fs as [|f fs IH]; intros st_a st_b; simpl.
  - intros [= <-]. repeat split; try done.
    intros ?? Hf. by apply elem_of_nil in Hf.
  - destruct (get_tet m t f) as [v|] eqn:Hv; simpl; [|done].
    set (step := if contains_tet st_a v then _ else _).
    destruct step as [st_m|] eqn:Hstep; simpl; [|done]. intros Hrest.
    apply IH in Hrest as (Hn & He & Hf & Hsub & Hsound & Hclosed & Hdone).
    pose proof (sublist_subseteq _ _ Hsub) as Hsub'.
    (* what the step did *)
    assert (set_nodes st_m = set_nodes st_a ∧ set_edges st_m = set_edges st_a ∧
            set_faces st_m = set_faces st_a ∧
            set_tets st_m `sublist_of` set_tets st_a ∧
            (∀ x, x ∈ set_tets st_a → x ∉ set_tets st_m →
               get_label m v = Some l ∧ v ∈ set_tets st_a ∧ reach m (set_tets st_a) v x) ∧
            (∀ a b, a ∈ set_tets st_a → a ∉ set_tets st_m → adjacent m a b →
               b ∉ set_tets st_m) ∧
            (get_label m v = Some l → v ∉ set_tets st_m))
      as (Hn1 & He1 & Hf1 & Hsub1 & Hsound1 & Hclosed1 & Hdone1).
    { unfold step in Hstep. unfold contains_tet in Hstep.
      destruct (contains v (set_tets st_a)) eqn:Hc.
      - apply contains_spec in Hc.
        destruct (get_label m v) as [l2|] eqn:Hl2; simpl in Hstep; [|done].
        case_decide as Hll; [subst l2|].
        + apply IHfuel in Hstep as [].
          repeat split; try done.
          * by apply walk_sound0.
          * intros a b Ha. apply walk_closed0. by right.
        + injection Hstep as <-. repeat split; try done. congruence.
      - injection Hstep as <-. repeat split; try done.
        intros _. intros Hin%contains_spec. congruence. }
    pose proof (sublist_subseteq _ _ Hsub1) as Hsub1'.
    split; [congruence|]. split; [congruence|]. split; [congruence|].
    split; [by etrans|]. split; [|split].
    + intros x Hx Hxb. destruct (decide (x ∈ set_tets st_m)) as [Hxm|Hxm].
      * destruct (Hsound x Hxm Hxb) as (f' & v' & Hf' & Hv' & Hl' & Hin' & Hr').
        exists f', v'. split; [by right|]. split; [done|]. split; [done|].
        split; [by apply Hsub1'|]. eapply reach_mono; [|done]. apply Hsub1'.
      * destruct (Hsound1 x Hx Hxm) as (Hl' & Hin' & Hr').
        exists f, v. split; [by left|]. done.
    + intros a b Ha Hab Hadj. destruct (decide (a ∈ set_tets st_m)) as [Ham|Ham].
      * by eapply Hclosed.
      * intros Hb. eapply Hclosed1; [done..|]. by apply Hsub'.
    + intros f' v' [->|Hf']%elem_of_cons Hv' Hl'; [|by eapply Hdone].
      rewrite Hv in Hv'. injection Hv' as <-. intros Hb. by eapply Hdone1, Hsub'.
Qed.

Lemma connected_component_spec fuel m st t st' :
  connected_component fuel m st t = Some st' → walk_result m st t st'.
Proof.
  revert st t st'. induction fuel as [|fuel IHfuel]; intros st t st'; [done|].
  rewrite connected_component_S.
  destruct (get_label m t) as [l|] eqn:Hl; simpl; [|done].
  destruct (closure_tet m t) as [cl|] eqn:Hcl; simpl; [|done].
  intros (Hn & He & Hf & Hsub & Hsound & Hclosed & Hdone)%(walk_loop _ _ _ _ IHfuel).
  simpl in *.
  pose proof (sublist_subseteq _ _ Hsub) as Hsub'.
  split; try done.
  - etrans; [done|]. apply era_sublist.
  - intros Ht%Hsub'. apply elem_of_era in Ht. by destruct Ht.
  - intros x Hx Hx'. destruct (decide (x = t)) as [->|Hne]; [constructor|].
    destruct (Hsound x) as (f & v & Hfin & Hv & Hlv & Hvin & Hr); [by apply elem_of_era|done|].
    apply elem_of_era in Hvin as [_ Hvin].
    eapply reach_trans.
    + eapply reach_step; [constructor| |done]. by exists l, cl, f.
    + eapply reach_mono; [|done]. intros y Hy%elem_of_era. apply Hy.
  - intros a b Ha Ha' Hadj. destruct (decide (a = t)) as [->|Hne].
    + destruct Hadj as (l' & cl' & f & Hl' & Hcl' & Hfin & Hb & Hlb).
      simplify_eq. by eapply Hdone.
    + destruct Ha as [->|Ha]; [done|]. eapply Hclosed; [|done..]. by apply elem_of_era.
Qed.

(** The component of [t] is exactly what a run removes. *)
Lemma connected_component_removes fuel m st t st' :
  connected_component fuel m st t = Some st' →
  removes m (set_tets st) t (set_tets st').
Proof.
  intros [Hn He Hf Hsub Hroot Hsound Hclosed]%connected_component_spec.
  split; [done|]. intros x. split.
  - intros Hx. split; [by apply (sublist_subseteq _ _ Hsub)|].
    intros Hr. revert Hx. induction Hr as [|u v Hr IH Hadj Hv]; [done|].
    eapply Hclosed; [by eapply reach_in|done..].
  - intros [Hx Hnr]. destruct (decide (x ∈ set_tets st')) as [|Hx']; [done|].
    destruct Hnr. by apply Hsound.
Qed.

(** Enough fuel: a run over a walkable set never stops short. *)
Lemma connected_component_total fuel m st t :
  walkable m (t :: set_tets st) →
  (length (era t (set_tets st)) < fuel)%nat →
  is_Some (connected_component fuel m st t).
Proof.
  revert st t. induction fuel as [|fuel IHfuel]; intros st t Hw Hlen; [lia|].
  rewrite connected_component_S.
  destruct (Hw t) as [cl Hcl]; [by left|].
  destruct (closure_tet_label _ _ _ Hcl) as [l Hl]. rewrite Hl, Hcl. simpl.
  assert (∀ fs st_a,
    (∀ f, f ∈ fs → f ∈ set_faces cl) →
    set_tets st_a `sublist_of` era t (set_tets st) →
    is_Some (foldM (λ st_n fit,
        t2 ← get_tet m t fit;
        if contains_tet st_n t2 then
          label2 ← get_label m t2;
          if decide (l = label2) then connected_component fuel m st_n t2
          else Some st_n
        else Some st_n) st_a fs)) as Hloop.
  { induction fs as [|f fs IH]; intros st_a Hfs Hsub; simpl; [eauto|].
    destruct (get_tet_is_Some m t f) as [v Hv].
    { eapply closure_tet_faces_exist; [done|]. apply Hfs. by left. }
    rewrite Hv. simpl. unfold contains_tet.
    destruct (contains v (set_tets st_a)) eqn:Hc.
    - apply contains_spec in Hc.
      assert (v ∈ set_tets st) as Hvst.
      { apply (sublist_subseteq _ _ Hsub) in Hc. apply elem_of_era in Hc. apply Hc. }
      destruct (Hw v) as [clv Hclv]; [by right|].
      destruct (closure_tet_label _ _ _ Hclv) as [lv Hlv]. rewrite Hlv. simpl.
      case_decide.
      + destruct (IHfuel st_a v) as [st_m Hm].
        * intros u [->|Hu]%elem_of_cons; [by apply Hw; right|].
          apply Hw. right. apply (sublist_subseteq _ _ Hsub) in Hu.
          apply elem_of_era in Hu. apply Hu.
        * pose proof (era_length_lt v _ Hc). pose proof (sublist_length _ _ Hsub). lia.
        * rewrite Hm. simpl. apply IH; [intros; apply Hfs; by right|].
          apply connected_component_spec in Hm as []. by etrans.
      + simpl. apply IH; [intros; apply Hfs; by right|done].
    - simpl. apply IH; [intros; apply Hfs; by right|done]. }
  apply Hloop; [done|]. simpl. done.
Qed.

(** ** The loop of [crossing] *)

Lemma crossing_loop_spec j m st b :
  (j ≤ 2)%nat → NoDup (set_tets st) →
  crossing_loop (S j) m (2 - Z.of_nat j) st = Some b →
  (b = true ↔ at_least_components m (S j) (set_tets st)).
Proof.
  revert st b. induction j as [|j IH]; intros st b Hj Hnd; rewrite crossing_loop_S.
  - unfold size_tetrahedra. destruct (set_tets st) as [|t l]; simpl.
    + intros [= <-]. split; [done|]. inversion 1.
    + intros [= <-]. split; [constructor|done].
  - unfold size_tetrahedra, tetrahedra_begin.
    destruct (set_tets st) as [|t l] eqn:Hst; simpl.
    + intros [= <-]. split; [done|]. inversion 1.
    + rewrite decide_False by lia. simpl.
      destruct (connected_component _ m st t) as [st1|] eqn:Hcc; simpl; [|done].
      replace (2 - Z.of_nat (S j) + 1) with (2 - Z.of_nat j) by lia.
      pose proof (connected_component_removes _ _ _ _ _ Hcc) as Hrem.
      rewrite Hst in Hrem. intros Hb.
      apply IH in Hb; [|lia|by eapply sublist_NoDup, Hrem].
      rewrite Hb. split.
      * intros Halc. by eapply alc_more.
      * inversion 1 as [| |k t' l0 l' Hrem' Halc]; subst.
        by rewrite (removes_unique _ _ _ _ _ Hnd Hrem Hrem').
Qed.

Lemma walkable_sublist m (l l' : list key) :
  l' `sublist_of` l → walkable m l → walkable m l'.
Proof. intros Hs Hw t Ht. apply Hw. by apply (sublist_subseteq _ _ Hs). Qed.

Lemma crossing_loop_total j m st :
  walkable m (set_tets st) →
  is_Some (crossing_loop (S j) m (2 - Z.of_nat j) st).
Proof.
  revert st. induction j as [|j IH]; intros st Hw; rewrite crossing_loop_S.
  - repeat case_decide; eauto. lia.
  - unfold size_tetrahedra, tetrahedra_begin.
    destruct (set_tets st) as [|t l] eqn:Hst; simpl; [eauto|].
    rewrite decide_False by lia. simpl.
    destruct (connected_component_total (S (S (length l))) m st t) as [st1 Hcc].
    { rewrite Hst. intros u [->|Hu]%elem_of_cons; apply Hw; [by left|done]. }
    { rewrite Hst. pose proof (sublist_length _ _ (era_sublist t (t :: l))).
      simpl in *. lia. }
    rewrite Hcc. simpl. replace (2 - Z.of_nat (S j) + 1) with (2 - Z.of_nat j) by lia.
    apply IH. apply connected_component_spec in Hcc as [].
    eapply walkable_sublist; [done|]. by rewrite Hst.
Qed.

Lemma crossing_spec m n st b :
  star_node m n = Some st → crossing m n = Some b →
  (b = true ↔ at_least_components m 3 (set_tets st)).
Proof.
  intros Hst. unfold crossing. rewrite Hst. simpl.
  apply (crossing_loop_spec 2); [done|]. by eapply star_node_NoDup.
Qed.

Lemma crossing_total m n st :
  star_node m n = Some st → walkable m (set_tets st) → is_Some (crossing m n).
Proof.
  intros Hst Hw. unfold crossing. rewrite Hst. simpl.
  by apply (crossing_loop_total 2).
Qed.

(** The flags of the incident edges, read as a disjunction. *)

Lemma existsb_edge_itf m es :
  existsb (edge_itf m) es = true ↔ ∃ e, e ∈ es ∧ is_interface_edge m e = Some true.
Proof.
  unfold edge_itf, is_interface_edge. induction es as [|a es IH]; simpl.
  - split; [done|]. intros (e & He & _). by apply elem_of_nil in He.
  - rewrite orb_true_iff, IH. split.
    + intros [Ha|(e & He & Hf)]; [|exists e; split; [by right|done]].
      exists a. split; [by left|]. destruct (find_edge m a); simpl in *; congruence.
    + intros (e & [->|He]%elem_of_cons & Hf); [left|right; eauto].
      destruct (find_edge m a); simpl in *; congruence.
Qed.

Lemma existsb_edge_bnd m es :
  existsb (edge_bnd m) es = true ↔ ∃ e, e ∈ es ∧ is_boundary_edge m e = Some true.
Proof.
  unfold edge_bnd, is_boundary_edge. induction es as [|a es IH]; simpl.
  - split; [done|]. intros (e & He & _). by apply elem_of_nil in He.
  - rewrite orb_true_iff, IH. split.
    + intros [Ha|(e & He & Hf)]; [|exists e; split; [by right|done]].
      exists a. split; [by left|]. destruct (find_edge m a); simpl in *; congruence.
    + intros (e & [->|He]%elem_of_cons & Hf); [left|right; eauto].
      destruct (find_edge m a); simpl in *; congruence.
Qed.

Lemma existsb_edge_crs m es :
  existsb (edge_crs m) es = true ↔ ∃ e, e ∈ es ∧ is_crossing_edge m e = Some true.
Proof.
  unfold edge_crs, is_crossing_edge. induction es as [|a es IH]; simpl.
  - split; [done|]. intros (e & He & _). by apply elem_of_nil in He.
  - rewrite orb_true_iff, IH. split.
    + intros [Ha|(e & He & Hf)]; [|exists e; split; [by right|done]].
      exists a. split; [by left|]. destruct (find_edge m a); simpl in *; congruence.
    + intros (e & [->|He]%elem_of_cons & Hf); [left|right; eauto].
      destruct (find_edge m a); simpl in *; congruence.
Qed.

(** ** The tetrahedra of a star, by co-boundary links *)

Lemma foldM_union_tets {A} (g : A → option simplex_set) s0 l s' :
  foldM (λ s a, sa ← g a; Some (set_union s sa)) s0 l = Some s' →
  ∀ c, c ∈ set_tets s' ↔
       c ∈ set_tets s0 ∨ ∃ a sa, a ∈ l ∧ g a = Some sa ∧ c ∈ set_tets sa.
Proof.
  revert s0. induction l as [|a l IH]; intros s0; simpl.
  - intros [= <-] c. split; [by left|]. intros [|(a & sa & Ha & _)]; [done|].
    by apply elem_of_nil in Ha.
  - destruct (g a) as [sa|] eqn:Hga; simpl; [|done]. intros Hrest c.
    rewrite (IH _ Hrest). simpl. rewrite elem_of_ins_all. split.
    + intros [[Hc|Hc]|(a' & sa' & Ha' & Hg' & Hc)].
      * right. exists a, sa. split; [by left|done].
      * by left.
      * right. exists a', sa'. split; [by right|done].
    + intros [Hc|(a' & sa' & [->|Ha']%elem_of_cons & Hg' & Hc)].
      * left. by right.
      * left. left. congruence.
      * right. by exists a', sa'.
Qed.

Lemma star_face_tets m f sf c :
  star_face m f = Some sf → (c ∈ set_tets sf ↔ linkF m f c).
Proof.
  unfold star_face, linkF. destruct (find_face m f) as [x|]; simpl; [|done].
  intros [= <-]. simpl. rewrite elem_of_ins_all. split.
  - intros [Hc|Hc]; [by exists x|by apply elem_of_nil in Hc].
  - intros (y & [= <-] & Hc). by left.
Qed.

Lemma star_edge_tets m e se c :
  star_edge m e = Some se → (c ∈ set_tets se ↔ ∃ f, linkE m e f ∧ linkF m f c).
Proof.
  unfold star_edge, linkE. destruct (find_edge m e) as [x|]; simpl; [|done].
  intros Hfold. rewrite (foldM_union_tets _ _ _ _ Hfold). simpl. split.
  - intros [Hc|(f & sf & Hf & Hsf & Hc)]; [by apply elem_of_nil in Hc|].
    exists f. split; [by exists x|]. by apply (star_face_tets _ _ _ _ Hsf).
  - intros (f & (y & [= <-] & Hf) & Hl). right.
    destruct (star_face m f) as [sf|] eqn:Hsf.
    + exists f, sf. split; [done|]. split; [done|]. by apply (star_face_tets _ _ _ _ Hsf).
    + exfalso. destruct Hl as (z & Hz & _). unfold star_face in Hsf. by rewrite Hz in Hsf.
Qed.

Lemma foldM_union_Some {A} (g : A → option simplex_set) s0 l s' a :
  foldM (λ s a, sa ← g a; Some (set_union s sa)) s0 l = Some s' → a ∈ l → is_Some (g a).
Proof.
  revert s0. induction l as [|b l IH]; intros s0; simpl.
  - intros _ Ha. by apply elem_of_nil in Ha.
  - destruct (g b) as [sb|] eqn:Hgb; simpl; [|done].
    intros Hrest [->|Ha]%elem_of_cons; [eauto|by eapply IH].
Qed.

Lemma star_node_tets m n st c :
  star_node m n = Some st →
  (c ∈ set_tets st ↔ ∃ e f, linkN m n e ∧ linkE m e f ∧ linkF m f c).
Proof.
  unfold star_node, linkN. destruct (find_node m n) as [x|]; simpl; [|done].
  intros Hfold. rewrite (foldM_union_tets _ _ _ _ Hfold). simpl. split.
  - intros [Hc|(e & se & He & Hse & Hc)]; [by apply elem_of_nil in Hc|].
    apply (star_edge_tets _ _ _ _ Hse) in Hc as (f & H1 & H2).
    exists e, f. split; [by exists x|done].
  - intros (e & f & (y & [= <-] & He) & H1 & H2). right.
    destruct (foldM_union_Some _ _ _ _ _ Hfold He) as [se Hse].
    exists e, se. split; [done|]. split; [done|].
    apply (star_edge_tets _ _ _ _ Hse). by exists f.
Qed.

(** ** Referential integrity and the operations that never fail on it *)

Lemma all_pool_spec {A} (P : nat → A → bool) (p : gmap nat A) :
  all_pool P p = true ↔ ∀ i x, p !! i = Some x → P i x = true.
Proof.
  unfold all_pool. rewrite forallb_forall. split.
  - intros H i x Hx. apply (H (i, x)). apply list_elem_of_In. by apply elem_of_map_to_list.
  - intros H [i x] Hin%list_elem_of_In%elem_of_map_to_list. by apply H.
Qed.

Lemma forallb_elem_of {A} (P : A → bool) (l : list A) :
  forallb P l = true ↔ ∀ x, x ∈ l → P x = true.
Proof. rewrite forallb_forall. by setoid_rewrite list_elem_of_In. Qed.

Lemma closedb_closed m : closedb m = true → closed m.
Proof.
  unfold closedb. rewrite !andb_true_iff, !all_pool_spec.
  intros [[[Hn He] Hf] Ht]. split.
  - intros i x e Hx Hin. specialize (Hn i x Hx). rewrite forallb_elem_of in Hn.
    apply Hn in Hin. unfold exists_edge in Hin. by apply bool_decide_eq_true in Hin.
  - intros i x Hx. specialize (He i x Hx). rewrite !andb_true_iff in He.
    destruct He as [[H1 H2] _]. apply bool_decide_eq_true in H1. split; [done|].
    intros v Hv. rewrite forallb_elem_of in H2. apply H2 in Hv.
    by apply bool_decide_eq_true in Hv.
  - intros i x f Hx Hin. specialize (He i x Hx). rewrite !andb_true_iff in He.
    destruct He as [_ H3]. rewrite forallb_elem_of in H3. apply H3 in Hin.
    by apply bool_decide_eq_true in Hin.
  - intros i x Hx. specialize (Hf i x Hx). rewrite !andb_true_iff in Hf.
    destruct Hf as [[H1 H2] _]. apply bool_decide_eq_true in H1. split; [done|].
    intros v Hv. rewrite forallb_elem_of in H2. apply H2 in Hv.
    by apply bool_decide_eq_true in Hv.
  - intros i x t Hx Hin. specialize (Hf i x Hx). rewrite !andb_true_iff in Hf.
    destruct Hf as [_ H3]. rewrite forallb_elem_of in H3. apply H3 in Hin.
    destruct (find_tetrahedron m t) as [y|]; simpl in Hin; [|done].
    exists y. split; [done|]. by apply contains_spec.
  - intros i x f Hx Hin. specialize (Ht i x Hx). rewrite forallb_elem_of in Ht.
    apply Ht in Hin. by apply bool_decide_eq_true in Hin.
Qed.

Lemma foldM_total {A B} (P : B → Prop) (f : B → A → option B) b l :
  (∀ b a, a ∈ l → P b → ∃ b', f b a = Some b' ∧ P b') →
  P b → ∃ b', foldM f b l = Some b' ∧ P b'.
Proof.
  revert b. induction l as [|a l IH]; intros b Hf Hb; simpl; [by eauto|].
  destruct (Hf b a) as (b1 & -> & Hb1); [by left|done|]. simpl.
  apply IH; [|done]. intros b2 a2 Ha2. apply Hf. by right.
Qed.

Lemma star_face_total m f : is_Some (find_face m f) → is_Some (star_face m f).
Proof. intros [x Hx]. unfold star_face. rewrite Hx. simpl. eauto. Qed.

Lemma star_edge_total m e : closed m → is_Some (find_edge m e) → is_Some (star_edge m e).
Proof.
  intros Hc [x Hx]. unfold star_edge. rewrite Hx. simpl.
  destruct (foldM_total (λ _, True)
              (λ s f, sf ← star_face m f; Some (set_union s sf))
              (insert_edge_key e empty_set) (e_co_boundary x)) as (s & Hs & _); [|done|by eauto].
  intros b f Hf _. destruct e as [i|]; [|done].
  destruct (star_face_total m f) as [sf Hsf]; [by eapply cl_edge_co|].
  rewrite Hsf. simpl. eauto.
Qed.

Lemma star_node_total m n : closed m → is_Some (find_node m n) → is_Some (star_node m n).
Proof.
  intros Hc [x Hx]. unfold star_node. rewrite Hx. simpl.
  destruct (foldM_total (λ _, True)
              (λ s e, se ← star_edge m e; Some (set_union s se))
              (insert_node n empty_set) (n_co_boundary x)) as (s & Hs & _); [|done|by eauto].
  intros b e He _. destruct n as [i|]; [|done].
  destruct (star_edge_total m e) as [se Hse]; [done|by eapply cl_node_co|].
  rewrite Hse. simpl. eauto.
Qed.

Lemma closure_node_total m n : is_Some (find_node m n) → is_Some (closure_node m n).
Proof. intros [x Hx]. unfold closure_node. rewrite Hx. simpl. eauto. Qed.

Lemma closure_edge_total m e : closed m → is_Some (find_edge m e) → is_Some (closure_edge m e).
Proof.
  intros Hc [x Hx]. unfold closure_edge. rewrite Hx. simpl.
  destruct (foldM_total (λ _, True)
              (λ s n, sn ← closure_node m n; Some (set_union s sn))
              (insert_edge_key e empty_set) (e_nodes x)) as (s & Hs & _); [|done|by eauto].
  intros b v Hv _. destruct e as [i|]; [|done].
  destruct (closure_node_total m v) as [sv Hsv]; [by eapply cl_edge_nodes|].
  rewrite Hsv. simpl. eauto.
Qed.

Lemma closure_face_total m f : closed m → is_Some (find_face m f) → is_Some (closure_face m f).
Proof.
  intros Hc [x Hx]. unfold closure_face. rewrite Hx. simpl.
  destruct (foldM_total (λ _, True)
              (λ s e, se ← closure_edge m e; Some (set_union s se))
              (insert_face_key f empty_set) (f_edges x)) as (s & Hs & _); [|done|by eauto].
  intros b e He _. destruct f as [i|]; [|done].
  destruct (closure_edge_total m e) as [se Hse]; [done|by eapply cl_face_edges|].
  rewrite Hse. simpl. eauto.
Qed.

Lemma closure_tet_total m t :
  closed m → is_Some (find_tetrahedron m t) → is_Some (closure_tet m t).
Proof.
  intros Hc [x Hx]. unfold closure_tet. rewrite Hx. simpl.
  destruct (foldM_total (λ _, True)
              (λ s f, sf ← closure_face m f; Some (set_union s sf))
              (insert_tet_key t empty_set) (t_faces x)) as (s & Hs & _); [|done|by eauto].
  intros b f Hf _. destruct t as [i|]; [|done].
  destruct (closure_face_total m f) as [sf Hsf]; [done|by eapply cl_tet_faces|].
  rewrite Hsf. simpl. eauto.
Qed.

(** [closed] only reads the incidence lists. *)

Lemma same_shape_sym m m' : same_shape m m' → same_shape m' m.
Proof. intros [H1 H2]. split; [by apply same_incidence_sym|done]. Qed.

Lemma same_shape_trans m1 m2 m3 : same_shape m1 m2 → same_shape m2 m3 → same_shape m1 m3.
Proof.
  intros [H1 H2] [H3 H4]. split; [by eapply same_incidence_trans|congruence].
Qed.

Lemma same_shape_node m m' k x' :
  same_shape m m' → find_node m' k = Some x' →
  ∃ x, find_node m k = Some x ∧ n_co_boundary x = n_co_boundary x'.
Proof.
  intros [H _] Hx'. apply (same_incidence_node _ _ k) in H. rewrite Hx' in H.
  destruct (find_node m k) as [x|]; simplify_eq/=. unfold strip_node in H.
  exists x. split; [done|congruence].
Qed.

Lemma same_shape_edge m m' k x' :
  same_shape m m' → find_edge m' k = Some x' →
  ∃ x, find_edge m k = Some x ∧ e_nodes x = e_nodes x' ∧ e_co_boundary x = e_co_boundary x'.
Proof.
  intros [H _] Hx'. apply (same_incidence_edge _ _ k) in H. rewrite Hx' in H.
  destruct (find_edge m k) as [x|]; simplify_eq/=. unfold strip_edge in H.
  exists x. split; [done|]. split; congruence.
Qed.

Lemma same_shape_face m m' k x' :
  same_shape m m' → find_face m' k = Some x' →
  ∃ x, find_face m k = Some x ∧ f_edges x = f_edges x' ∧ f_co_boundary x = f_co_boundary x'.
Proof.
  intros [H _] Hx'. apply (same_incidence_face _ _ k) in H. rewrite Hx' in H.
  destruct (find_face m k) as [x|]; simplify_eq/=. unfold strip_face in H.
  exists x. split; [done|]. split; congruence.
Qed.

Lemma same_shape_tet m m' k x' :
  same_shape m m' → find_tetrahedron m' k = Some x' →
  ∃ x, find_tetrahedron m k = Some x ∧ t_faces x = t_faces x'.
Proof.
  intros [_ H] Hx'. destruct k as [i|]; [|done]. simpl in *.
  apply (f_equal (λ p, p !! i)) in H. rewrite !lookup_fmap, Hx' in H.
  destruct (tetrahedra m !! i) as [x|]; simplify_eq/=. by exists x.
Qed.

Lemma closed_same_shape m m' : same_shape m m' → closed m → closed m'.
Proof.
  intros Hs Hc. pose proof (same_shape_sym _ _ Hs) as Hs'.
  assert (∀ k, is_Some (find_node m k) → is_Some (find_node m' k)) as HN.
  { intros k [x Hx]. destruct (same_shape_node _ _ _ _ Hs' Hx) as (?&?&_). eauto. }
  assert (∀ k, is_Some (find_edge m k) → is_Some (find_edge m' k)) as HE.
  { intros k [x Hx]. destruct (same_shape_edge _ _ _ _ Hs' Hx) as (?&?&_). eauto. }
  assert (∀ k, is_Some (find_face m k) → is_Some (find_face m' k)) as HF.
  { intros k [x Hx]. destruct (same_shape_face _ _ _ _ Hs' Hx) as (?&?&_). eauto. }
  split.
  - intros i x' e Hx' He.
    destruct (same_shape_node _ _ (Some i) _ Hs Hx') as (x & Hx & E).
    rewrite <-E in He. apply HE. by eapply (cl_node_co _ Hc).
  - intros i x' Hx'.
    destruct (same_shape_edge _ _ (Some i) _ Hs Hx') as (x & Hx & E & _).
    rewrite <-E. destruct (cl_edge_nodes _ Hc i x Hx) as [H1 H2]. split; [done|].
    intros v Hv. by apply HN, H2.
  - intros i x' f Hx' Hf.
    destruct (same_shape_edge _ _ (Some i) _ Hs Hx') as (x & Hx & _ & E).
    rewrite <-E in Hf. apply HF. by eapply (cl_edge_co _ Hc).
  - intros i x' Hx'.
    destruct (same_shape_face _ _ (Some i) _ Hs Hx') as (x & Hx & E & _).
    rewrite <-E. destruct (cl_face_edges _ Hc i x Hx) as [H1 H2]. split; [done|].
    intros v Hv. by apply HE, H2.
  - intros i x' t Hx' Ht.
    destruct (same_shape_face _ _ (Some i) _ Hs Hx') as (x & Hx & _ & E).
    rewrite <-E in Ht. destruct (cl_face_co _ Hc i x t Hx Ht) as (y & Hy & Hin).
    destruct (same_shape_tet _ _ _ _ Hs' Hy) as (y' & Hy' & E'). exists y'.
    split; [done|]. by rewrite E'.
  - intros i x' f Hx' Hf.
    destruct (same_shape_tet _ _ (Some i) _ Hs Hx') as (x & Hx & E).
    rewrite <-E in Hf. apply HF. by eapply (cl_tet_faces _ Hc).
Qed.

(** The tetrahedra of a star exist, and the walk of [crossing] can visit them. *)

Lemma star_node_tets_exist m n st c :
  closed m → star_node m n = Some st → c ∈ set_tets st → is_Some (find_tetrahedron m c).
Proof.
  intros Hc Hst Hin. apply (star_node_tets _ _ _ _ Hst) in Hin as (e & f & _ & _ & (x & Hx & Hin)).
  destruct f as [i|]; [|done]. destruct (cl_face_co _ Hc i x c Hx Hin) as (y & Hy & _). eauto.
Qed.

Lemma star_node_walkable m n st :
  closed m → star_node m n = Some st → walkable m (set_tets st).
Proof.
  intros Hc Hst t Ht. apply closure_tet_total; [done|]. by eapply star_node_tets_exist.
Qed.

Lemma face_flags_total m i x : closed m → faces m !! i = Some x → is_Some (face_flags m x).
Proof.
  intros Hc Hx. unfold face_flags.
  assert (∀ t, t ∈ co_tets x → is_Some (get_label m t)) as Hl.
  { intros t Ht. unfold co_tets in Ht. apply elem_of_ins_all in Ht as [Ht|Ht].
    - destruct (cl_face_co _ Hc i x t Hx Ht) as (y & Hy & _). unfold get_label.
      rewrite Hy. simpl. eauto.
    - by apply elem_of_nil in Ht. }
  destruct (co_tets x) as [|t0 [|t1 [|t2 l]]]; simpl; eauto.
  - destruct (Hl t0) as [l0 ->]; [by left|]. simpl. eauto.
  - destruct (Hl t0) as [l0 ->]; [by left|].
    destruct (Hl t1) as [l1 ->]; [right; by left|]. simpl. eauto.
Qed.

Lemma update_flag_face_total m f :
  closed m → exists_face m f = true →
  ∃ m', update_flag_face f m = Some m' ∧ same_topology m m'.
Proof.
  intros Hc Hex. destruct (exists_face_Some _ _ Hex) as [i ->].
  apply bool_decide_eq_true in Hex as [x Hx]. simpl in Hx.
  rewrite update_flag_face_nf, Hx. simpl.
  destruct (face_flags_total m i x Hc Hx) as [fl ->]. simpl.
  eexists. split; [done|]. split; [|done]. by eapply same_incidence_put_face.
Qed.

Lemma update_flag_edge_total m e :
  closed m → exists_edge m e = true →
  ∃ m', update_flag_edge e m = Some m' ∧ same_topology m m'.
Proof.
  intros Hc Hex. destruct (exists_edge_Some _ _ Hex) as [i ->].
  apply bool_decide_eq_true in Hex as [x Hx].
  destruct (star_edge_total m (Some i) Hc) as [st Hst]; [by eauto|].
  simpl in Hx. rewrite update_flag_edge_nf, Hx, Hst. simpl.
  eexists. split; [done|]. split; [|done]. by eapply same_incidence_put_edge.
Qed.

Lemma update_flag_node_total m n :
  closed m → exists_node m n = true →
  ∃ m', update_flag_node n m = Some m' ∧ same_topology m m'.
Proof.
  intros Hc Hex. destruct (exists_node_Some _ _ Hex) as [i ->].
  apply bool_decide_eq_true in Hex as [x Hx].
  destruct (star_node_total m (Some i) Hc) as [st Hst]; [by eauto|].
  destruct (crossing_total m (Some i) st Hst) as [cr Hcr]; [by eapply star_node_walkable|].
  simpl in Hx. rewrite update_flag_node_nf, Hx, Hst. simpl. rewrite Hcr.
  destruct (negb _ && _); simpl; (eexists; split; [done|]; split; [|done];
    by eapply same_incidence_put_node).
Qed.

Lemma same_topology_shape m m' : same_topology m m' → same_shape m m'.
Proof. intros [H1 H2]. split; [done|by rewrite H2]. Qed.

(** [update] and [set_label] never fail on a mesh whose references exist. *)

Lemma update_total s m : closed m → ∃ m', update s m = Some m' ∧ same_topology m m'.
Proof.
  intros Hc. unfold update.
  destruct (foldM_total (λ b, same_topology m b)
              (λ m fit, if exists_face m fit then update_flag_face fit m else Some m)
              m (set_faces s)) as (m1 & -> & H1); [|apply same_topology_refl|].
  { intros b f _ Hb. destruct (exists_face b f) eqn:Hex; [|by eauto].
    destruct (update_flag_face_total b f) as (b' & -> & Hb'); [|done|].
    - eapply closed_same_shape; [|done]. by apply same_topology_shape.
    - exists b'. split; [done|]. by eapply same_topology_trans. }
  simpl.
  destruct (foldM_total (λ b, same_topology m b)
              (λ m eit, if exists_edge m eit then update_flag_edge eit m else Some m)
              m1 (set_edges s)) as (m2 & -> & H2); [|done|].
  { intros b e _ Hb. destruct (exists_edge b e) eqn:Hex; [|by eauto].
    destruct (update_flag_edge_total b e) as (b' & -> & Hb'); [|done|].
    - eapply closed_same_shape; [|done]. by apply same_topology_shape.
    - exists b'. split; [done|]. by eapply same_topology_trans. }
  simpl.
  apply (foldM_total (λ b, same_topology m b)); [|done].
  intros b n _ Hb. destruct (exists_node b n) eqn:Hex; [|by eauto].
  destruct (update_flag_node_total b n) as (b' & -> & Hb'); [|done|].
  - eapply closed_same_shape; [|done]. by apply same_topology_shape.
  - exists b'. split; [done|]. by eapply same_topology_trans.
Qed.

Lemma set_label_total t label m :
  closed m → is_Some (find_tetrahedron m t) →
  ∃ m', set_label t label m = Some m' ∧ same_shape m m'.
Proof.
  intros Hc [x Hx]. unfold set_label, put_label. rewrite Hx. simpl.
  destruct t as [i|]; [|done]. simpl in *.
  set (m1 := mk_mesh (nodes m) (edges m) (faces m)
               (<[i:=mk_tet (t_faces x) label]> (tetrahedra m))).
  assert (same_shape m m1) as Hs.
  { split; [done|]. simpl. rewrite fmap_insert. simpl. symmetry. apply insert_id.
    by rewrite lookup_fmap, Hx. }
  pose proof (closed_same_shape _ _ Hs Hc) as Hc1.
  destruct (closure_tet_total m1 (Some i) Hc1) as [cl Hcl].
  { simpl. rewrite lookup_insert_eq. eauto. }
  rewrite Hcl. simpl.
  destruct (update_total cl m1 Hc1) as (m' & -> & Ht). exists m'. split; [done|].
  eapply same_shape_trans; [done|]. by apply same_topology_shape.
Qed.

(** ** What a closure holds *)

Lemma foldM_union_proj {A} (pr : simplex_set → list key)
    (g : A → option simplex_set) s0 l s' :
  (∀ s1 s2, pr (set_union s1 s2) = ins_all (pr s2) (pr s1)) →
  foldM (λ s a, sa ← g a; Some (set_union s sa)) s0 l = Some s' →
  ∀ c, c ∈ pr s' ↔ c ∈ pr s0 ∨ ∃ a sa, a ∈ l ∧ g a = Some sa ∧ c ∈ pr sa.
Proof.
  intros Hpr. revert s0. induction l as [|a l IH]; intros s0; simpl.
  - intros [= <-] c. split; [by left|]. intros [|(a & sa & Ha & _)]; [done|].
    by apply elem_of_nil in Ha.
  - destruct (g a) as [sa|] eqn:Hga; simpl; [|done]. intros Hrest c.
    rewrite (IH _ Hrest), Hpr, elem_of_ins_all. split.
    + intros [[Hc|Hc]|(a' & sa' & Ha' & Hg' & Hc)].
      * right. exists a, sa. split; [by left|done].
      * by left.
      * right. exists a', sa'. split; [by right|done].
    + intros [Hc|(a' & sa' & [->|Ha']%elem_of_cons & Hg' & Hc)].
      * left. by right.
      * left. left. congruence.
      * right. by exists a', sa'.
Qed.

Lemma closure_edge_down m e s : closure_edge m e = Some s → down_closed m s ∧ e ∈ set_edges s.
Proof.
  unfold closure_edge. destruct (find_edge m e) as [x|] eqn:Hx; simpl; [|done]. intros Hfold.
  pose proof (foldM_union_proj set_nodes _ _ _ _ (λ _ _, eq_refl) Hfold) as HN.
  pose proof (foldM_union_proj set_edges _ _ _ _ (λ _ _, eq_refl) Hfold) as HE.
  pose proof (foldM_union_proj set_faces _ _ _ _ (λ _ _, eq_refl) Hfold) as HF.
  assert (∀ v sv, closure_node m v = Some sv →
            is_Some (find_node m v) ∧ sv = insert_node v empty_set) as Hcn.
  { intros v sv. unfold closure_node. destruct (find_node m v); simpl; [|done].
    intros [= <-]. eauto. }
  split; [split; [|split]|].
  - intros v [Hv|(a & sa & Ha & Hsa & Hv)]%HN; [by apply elem_of_nil in Hv|].
    apply Hcn in Hsa as [Hex ->]. simpl in Hv. unfold ins in Hv. simpl in Hv.
    by apply list_elem_of_singleton in Hv as ->.
  - intros e' [He'|(a & sa & Ha & Hsa & He')]%HE.
    + simpl in He'. unfold ins in He'. simpl in He'.
      apply list_elem_of_singleton in He' as ->. exists x. split; [done|].
      intros v Hv. apply HN. right.
      destruct (foldM_union_Some _ _ _ _ _ Hfold Hv) as [sv Hsv].
      exists v, sv. split; [done|]. split; [done|].
      apply Hcn in Hsv as [_ ->]. simpl. unfold ins. simpl. by left.
    + apply Hcn in Hsa as [_ ->]. by apply elem_of_nil in He'.
  - intros f [Hf|(a & sa & Ha & Hsa & Hf)]%HF; [by apply elem_of_nil in Hf|].
    apply Hcn in Hsa as [_ ->]. by apply elem_of_nil in Hf.
  - apply HE. left. simpl. unfold ins. simpl. by left.
Qed.

Lemma foldM_union_down {A} m (g : A → option simplex_set) s0 l s' :
  foldM (λ s a, sa ← g a; Some (set_union s sa)) s0 l = Some s' →
  (∀ a sa, a ∈ l → g a = Some sa → down_closed m sa) →
  set_nodes s0 = [] → set_edges s0 = [] →
  (∀ f, f ∈ set_faces s0 →
     ∃ x, find_face m f = Some x ∧
          ∀ e, e ∈ f_edges x → ∃ a sa, a ∈ l ∧ g a = Some sa ∧ e ∈ set_edges sa) →
  down_closed m s'.
Proof.
  intros Hfold Hg Hn0 He0 Hf0.
  pose proof (foldM_union_proj set_nodes _ _ _ _ (λ _ _, eq_refl) Hfold) as HN.
  pose proof (foldM_union_proj set_edges _ _ _ _ (λ _ _, eq_refl) Hfold) as HE.
  pose proof (foldM_union_proj set_faces _ _ _ _ (λ _ _, eq_refl) Hfold) as HF.
  rewrite Hn0 in HN. rewrite He0 in HE. split; [|split].
  - intros v [Hv|(a & sa & Ha & Hsa & Hv)]%HN; [by apply elem_of_nil in Hv|].
    by apply (Hg a sa Ha Hsa).
  - intros e [He|(a & sa & Ha & Hsa & He)]%HE; [by apply elem_of_nil in He|].
    destruct (Hg a sa Ha Hsa) as (_ & H2 & _). destruct (H2 e He) as (x & Hx & Hv).
    exists x. split; [done|]. intros v Hin. apply HN. right. exists a, sa. auto.
  - intros f [Hf|(a & sa & Ha & Hsa & Hf)]%HF.
    + destruct (Hf0 f Hf) as (x & Hx & Hed). exists x. split; [done|].
      intros e He. apply HE. right. by apply Hed.
    + destruct (Hg a sa Ha Hsa) as (_ & _ & H3). destruct (H3 f Hf) as (x & Hx & Hed).
      exists x. split; [done|]. intros e Hin. apply HE. right. exists a, sa. auto.
Qed.

Lemma closure_face_down m f s : closure_face m f = Some s → down_closed m s.
Proof.
  unfold closure_face. destruct (find_face m f) as [x|] eqn:Hx; simpl; [|done]. intros Hfold.
  eapply foldM_union_down; [done|..|done|done|].
  - intros e se _ Hse. by apply closure_edge_down in Hse as [].
  - intros f' Hf'. simpl in Hf'. unfold ins in Hf'. simpl in Hf'.
    apply list_elem_of_singleton in Hf' as ->. exists x. split; [done|].
    intros e He. destruct (foldM_union_Some _ _ _ _ _ Hfold He) as [se Hse].
    exists e, se. split; [done|]. split; [done|]. by apply closure_edge_down in Hse as [].
Qed.

Lemma closure_tet_down m t s : closure_tet m t = Some s → down_closed m s.
Proof.
  unfold closure_tet. destruct (find_tetrahedron m t) as [x|] eqn:Hx; simpl; [|done].
  intros Hfold. eapply foldM_union_down; [done|..|done|done|].
  - intros f sf _ Hsf. by apply closure_face_down in Hsf.
  - intros f' Hf'. by apply elem_of_nil in Hf'.
Qed.

(** ** The walk follows face adjacency

    On a mesh whose faces have two sides, [get_tet(t, f)] is the tetrahedron
    on the other side of [f], so the steps of [connected_component] are the
    steps of [shares_face]. *)

Lemma two_sidedb_two_sided m : two_sidedb m = true → two_sided m.
Proof.
  unfold two_sidedb. rewrite andb_true_iff, !all_pool_spec. intros [Hd Ht]. split.
  - intros j y f Hy Hf. specialize (Hd j y Hy). rewrite forallb_elem_of in Hd.
    apply Hd in Hf. destruct (find_face m f) as [x|]; simpl in Hf; [|done].
    exists x. split; [done|]. by apply contains_spec.
  - intros i x Hx. specialize (Ht i x Hx). by apply bool_decide_eq_true in Ht.
Qed.

Lemma first_other_in t (l : list tet_key) v :
  first_other t l = v → is_valid v = true → v ∈ l ∧ v ≠ t.
Proof.
  induction l as [|a l IH]; simpl; [by intros <-|].
  case_decide as Ha.
  - intros <- _. split; [by left|done].
  - intros Hv Hval. destruct (IH Hv Hval). split; [by right|done].
Qed.

Lemma first_other_pair t v (l : list tet_key) :
  NoDup l → (length l ≤ 2)%nat → t ∈ l → v ∈ l → v ≠ t → first_other t l = v.
Proof.
  intros Hnd Hlen Ht Hv Hne.
  destruct l as [|a [|b [|c l]]]; simpl in *; try lia.
  - by apply elem_of_nil in Ht.
  - apply list_elem_of_singleton in Ht, Hv. congruence.
  - apply NoDup_cons in Hnd as [Hab _].
    assert (a ≠ b) by (intros ->; apply Hab; by left).
    apply elem_of_cons in Ht as [->|Ht%list_elem_of_singleton];
      apply elem_of_cons in Hv as [->|Hv%list_elem_of_singleton]; subst;
      try done; repeat case_decide; try done.
Qed.

Lemma closure_tet_faces m t x cl f :
  find_tetrahedron m t = Some x → closure_tet m t = Some cl →
  (f ∈ set_faces cl ↔ f ∈ t_faces x).
Proof.
  unfold closure_tet. intros ->. simpl. intros Hfold.
  rewrite (foldM_union_proj set_faces _ _ _ _ (λ _ _, eq_refl) Hfold). simpl. split.
  - intros [?%elem_of_nil|(a & sa & Ha & Hsa & Hf)]; [done|].
    apply closure_face_faces in Hsa as [Hsa _]. rewrite Hsa in Hf.
    by apply list_elem_of_singleton in Hf as ->.
  - intros Hf. right. destruct (foldM_union_Some _ _ _ _ _ Hfold Hf) as [sa Hsa].
    exists f, sa. split; [done|]. split; [done|].
    apply closure_face_faces in Hsa as [-> _]. by left.
Qed.

Lemma adjacent_shares_face m u v :
  closed m → two_sided m → is_Some (closure_tet m u) →
  (adjacent m u v ↔ shares_face m u v).
Proof.
  intros Hc Hts [cl Hcl]. split.
  - intros (l & cl' & f & Hl & Hcl' & Hf & Hget & Hlv).
    rewrite Hcl in Hcl'. injection Hcl' as <-.
    unfold get_label in Hl, Hlv.
    destruct (find_tetrahedron m u) as [xu|] eqn:Hxu; [|done].
    destruct (find_tetrahedron m v) as [xv|] eqn:Hxv; [|done].
    simpl in Hl, Hlv. injection Hl as Hl. injection Hlv as Hlv.
    apply (closure_tet_faces _ _ _ _ _ Hxu Hcl) in Hf.
    unfold get_tet, star_face in Hget.
    destruct (find_face m f) as [x|] eqn:Hx; simpl in Hget; [|done].
    injection Hget as Hget.
    apply first_other_in in Hget as [Hin Hne]; [|by destruct v].
    apply elem_of_ins_all in Hin as [Hin|?%elem_of_nil]; [|done].
    destruct f as [i|]; [|done].
    destruct (cl_face_co _ Hc i x v Hx Hin) as (y & Hy & Hfy).
    rewrite Hxv in Hy. injection Hy as <-.
    split; [done|]. exists xu, xv, (Some i). repeat split; try done. congruence.
  - intros (Hne & xu & xv & f & Hxu & Hxv & Hfu & Hfv & Hl).
    destruct u as [ju|]; [|done]. destruct v as [jv|]; [|done].
    destruct (ts_down _ Hts ju xu f Hxu Hfu) as (x & Hx & Hu).
    destruct (ts_down _ Hts jv xv f Hxv Hfv) as (x' & Hx' & Hv).
    rewrite Hx in Hx'. injection Hx' as <-.
    exists (t_label xu), cl, f. unfold get_label. rewrite Hxu, Hxv. simpl.
    split; [done|]. split; [done|].
    split; [by apply (closure_tet_faces _ _ _ _ _ Hxu Hcl)|]. split; [|by rewrite Hl].
    unfold get_tet, star_face. rewrite Hx. simpl. f_equal.
    destruct f as [i|]; [|done].
    apply first_other_pair.
    + apply NoDup_ins_all, NoDup_nil_2.
    + apply (ts_two _ Hts i x Hx).
    + apply elem_of_ins_all. by left.
    + apply elem_of_ins_all. by left.
    + done.
Qed.

Lemma shares_face_sym m u v : shares_face m u v → shares_face m v u.
Proof.
  intros (Hne & xu & xv & f & ? & ? & ? & ? & ?). split; [done|].
  by exists xv, xu, f.
Qed.

Lemma joined_in m S t x : joined m S t x → x = t ∨ x ∈ S.
Proof. destruct 1; [by left|by right]. Qed.

Lemma joined_mono m S S' t x :
  (∀ y, y ∈ S → y ∈ S') → joined m S t x → joined m S' t x.
Proof.
  intros HS. induction 1 as [|u v _ IH Hadj Hv]; [constructor|].
  eapply joined_step; [exact IH|done|by apply HS].
Qed.

Lemma joined_trans m S t u x : joined m S t u → joined m S u x → joined m S t x.
Proof.
  intros Htu. induction 1 as [|v w _ IH Hadj Hw]; [done|].
  by eapply joined_step.
Qed.

Lemma joined_sym m S t x : t ∈ S → joined m S t x → joined m S x t.
Proof.
  intros Ht. induction 1 as [|u v Hu IH Hadj Hv]; [constructor|].
  eapply joined_trans; [|exact IH].
  eapply joined_step; [constructor|by apply shares_face_sym|].
  by destruct (joined_in _ _ _ _ Hu) as [->|].
Qed.

(** The walk of the code and the chains of the specification reach the same
    tetrahedra. *)
Lemma reach_joined m S t x :
  closed m → two_sided m → walkable m (t :: S) →
  (reach m S t x ↔ joined m S t x).
Proof.
  intros Hc Hts Hw. split.
  - induction 1 as [|u v Hu IH Hadj Hv]; [constructor|].
    eapply joined_step; [done| |done].
    apply adjacent_shares_face; [done..| |done].
    apply Hw. destruct (reach_in _ _ _ _ Hu) as [->|]; [by left|by right].
  - induction 1 as [|u v Hu IH Hadj Hv]; [constructor|].
    eapply reach_step; [done| |done].
    apply adjacent_shares_face; [done..| |done].
    apply Hw. destruct (joined_in _ _ _ _ Hu) as [->|]; [by left|by right].
Qed.

(** ** Counting components *)

Lemma removes_component_taken m S t l' :
  closed m → two_sided m → walkable m (t :: S) →
  removes m S t l' → component_taken m S t l'.
Proof.
  intros Hc Hts Hw [_ Hrem] x. rewrite Hrem. by rewrite reach_joined.
Qed.

(** Chains between tetrahedra that are left stay among those that are left. *)
Lemma joined_restrict m S t l' a b :
  t ∈ S → component_taken m S t l' → a ∈ l' → joined m S a b → joined m l' a b.
Proof.
  intros Ht Hl Ha. induction 1 as [|u v Hu IH Hadj Hv]; [constructor|].
  eapply joined_step; [done..|].
  apply Hl. split; [done|]. intros Htv.
  apply (Hl a) in Ha as [HaS Hna]. apply Hna.
  eapply joined_trans; [exact Htv|].
  apply joined_sym; [done|]. by eapply joined_step.
Qed.

Lemma components_up m S t l' (k : nat) :
  t ∈ S → component_taken m S t l' →
  components_at_least m k l' → components_at_least m (Datatypes.S k) S.
Proof.
  intros Ht Hl (reps & Hlen & Hnd & Hin & Hsep).
  assert (∀ r, r ∈ reps → r ∈ S ∧ ¬ joined m S t r) as Hr
    by (intros r Hr; by apply Hl, Hin).
  exists (t :: reps). split; [simpl; by rewrite Hlen|]. split; [|split].
  - apply NoDup_cons. split; [|done]. intros Htr.
    destruct (Hr t Htr) as [_ Hn]. apply Hn. constructor.
  - intros r [->|Hrr]%elem_of_cons; [done|]. by apply Hr.
  - intros r1 r2 [->|H1]%elem_of_cons [->|H2]%elem_of_cons Hne; try done.
    + by apply Hr.
    + intros Hj. destruct (Hr r1 H1) as [HS Hn]. apply Hn. by apply joined_sym.
    + intros Hj. apply (Hsep r1 r2 H1 H2 Hne).
      apply (joined_restrict m S t l'); [done|done|by apply Hin|done].
Qed.

Lemma components_down m S t l' (k : nat) :
  t ∈ S → component_taken m S t l' →
  components_at_least m (Datatypes.S k) S → components_at_least m k l'.
Proof.
  intros Ht Hl (reps & Hlen & Hnd & Hin & Hsep).
  assert (∀ l : list tet_key, (∀ y, y ∈ l → y ∈ S) →
            ∀ a b, joined m l' a b → joined m S a b) as Hmono.
  { intros _ _ a b. apply joined_mono. intros y Hy. by apply Hl in Hy as []. }
  destruct (decide (Forall (λ r, r ∈ l') reps)) as [Hall|Hex].
  - rewrite Forall_forall in Hall.
    destruct reps as [|r0 reps]; [done|].
    apply NoDup_cons in Hnd as [_ Hnd].
    exists reps. split; [simpl in Hlen; lia|]. split; [done|]. split.
    + intros r Hr. apply Hall. by right.
    + intros r1 r2 H1 H2 Hne Hj.
      apply (Hsep r1 r2); [by right|by right|done|].
      by apply (Hmono [] ltac:(by intros ? ?%elem_of_nil)).
  - apply not_Forall_Exists in Hex; [|apply _].
    apply Exists_exists in Hex as (r0 & Hr0 & Hout). simpl in Hout.
    apply list_elem_of_split in Hr0 as (l1 & l2 & ->).
    apply NoDup_app in Hnd as (Hnd1 & Hdisj & [Hr02 Hnd2]%NoDup_cons).
    assert (r0 ∉ l1) as Hr01 by (intros H; apply (Hdisj _ H); by left).
    assert (∀ r, r ∈ l1 ++ l2 → r ∈ l1 ++ r0 :: l2 ∧ r ≠ r0) as Hsub.
    { intros r Hr. split.
      - apply elem_of_app in Hr as [|]; apply elem_of_app; [by left|right; by right].
      - intros ->. apply elem_of_app in Hr as [|]; done. }
    exists (l1 ++ l2). split; [|split; [|split]].
    + rewrite length_app in *. simpl in Hlen. lia.
    + apply NoDup_app. split; [done|]. split; [|done].
      intros x H1 H2. apply (Hdisj x H1). by right.
    + intros r Hr. destruct (Hsub r Hr) as [Hrin Hne].
      destruct (decide (r ∈ l')) as [|Hnot]; [done|]. exfalso.
      assert (r0 ∈ l1 ++ r0 :: l2) as Hr0in by (apply elem_of_app; right; by left).
      assert (¬ ¬ joined m S t r0) as Hnn0
        by (intros Hn; apply Hout, Hl; split; [by apply Hin|done]).
      assert (¬ ¬ joined m S t r) as Hnn
        by (intros Hn; apply Hnot, Hl; split; [by apply Hin|done]).
      apply Hnn0. intros J0. apply Hnn. intros J.
      apply (Hsep r0 r Hr0in Hrin); [done|].
      eapply joined_trans; [|exact J]. by apply joined_sym.
    + intros r1 r2 H1 H2 Hne Hj.
      destruct (Hsub r1 H1) as [H1' _]. destruct (Hsub r2 H2) as [H2' _].
      apply (Hsep r1 r2 H1' H2' Hne).
      by apply (Hmono [] ltac:(by intros ? ?%elem_of_nil)).
Qed.

(** Taking out the component of the first tetrahedron again and again, as
    [crossing] does, counts the components. *)
Lemma at_least_components_spec m (k : nat) S :
  closed m → two_sided m → walkable m S →
  (at_least_components m k S ↔ components_at_least m k S).
Proof.
  intros Hc Hts. revert S. induction k as [|k IH]; intros S Hw.
  { split; [|constructor]. intros _. exists []. split; [done|].
    split; [apply NoDup_nil_2|].
    split; [by intros ? ?%elem_of_nil|by intros ? ? ?%elem_of_nil]. }
  destruct S as [|t l].
  { split; [inversion 1|]. intros ([|r reps] & Hlen & _ & Hin & _); [done|].
    exfalso. eapply elem_of_nil, Hin. by left. }
  assert (t ∈ t :: l) as Ht by (by left).
  assert (walkable m (t :: t :: l)) as Hw'
    by (intros u [->|Hu]%elem_of_cons; by apply Hw).
  destruct k as [|k].
  { split; [|constructor]. intros _. exists [t]. split; [done|].
    split; [apply NoDup_singleton|]. split.
    - by intros r ->%list_elem_of_singleton.
    - intros r1 r2 ->%list_elem_of_singleton ->%list_elem_of_singleton. done. }
  split.
  - inversion 1 as [| |k0 t0 l0 l' Hrem Halc]; subst.
    pose proof (removes_component_taken _ _ _ _ Hc Hts Hw' Hrem) as Htk.
    eapply components_up; [done..|]. apply IH; [|done].
    destruct Hrem as [Hsub _]. by eapply walkable_sublist.
  - intros Hcomp.
    destruct (connected_component_total (Datatypes.S (length (t :: l))) m
                (mk_set [] [] [] (t :: l)) t) as [st' Hcc].
    { done. }
    { simpl. pose proof (sublist_length _ _ (era_sublist t (t :: l))). simpl in *. lia. }
    apply connected_component_removes in Hcc. simpl in Hcc.
    pose proof (removes_component_taken _ _ _ _ Hc Hts Hw' Hcc) as Htk.
    eapply alc_more; [exact Hcc|]. apply IH.
    + destruct Hcc as [Hsub _]. by eapply walkable_sublist.
    + by eapply components_down.
Qed.

Lemma crossing_components m n st b :
  closed m → two_sided m → star_node m n = Some st → crossing m n = Some b →
  (b = true ↔ components_at_least m 3 (set_tets st)).
Proof.
  intros Hc Hts Hst Hcr. rewrite (crossing_spec _ _ _ _ Hst Hcr).
  apply at_least_components_spec; [done..|]. by eapply star_node_walkable.
Qed.

(** ** Face flags *)

(** C2. For a face [f] with one or two co-bounding tetrahedra, [update_flag(f)]
    runs to completion and afterwards the boundary flag of [f] is true iff [f]
    has exactly one co-tetrahedron, and its interface flag is true iff [f] is
    boundary with a nonzero-label tetrahedron or has two co-tetrahedra with
    differing labels.  In particular a face between tetrahedra labelled 1 and
    2 ends up interface and not boundary.  Labels and incidence lists are
    left as they were. *)
Theorem update_flag_face_rule m f st_f :
  star_face m f = Some st_f →
  (size_tetrahedra st_f = 1 ∨ size_tetrahedra st_f = 2)%nat →
  (∀ t, t ∈ set_tets st_f → is_Some (get_label m t)) →
  ∃ m' b i,
    update_flag_face f m = Some m' ∧ same_topology m m' ∧
    is_boundary_face m' f = Some b ∧ is_interface_face m' f = Some i ∧
    (b = true ↔ face_boundary_rule st_f) ∧
    (i = true ↔ face_interface_rule m st_f) ∧
    (∀ t0 t1, set_tets st_f = [t0; t1] →
       get_label m t0 = Some 1 → get_label m t1 = Some 2 → i = true ∧ b = false).
Proof.
  intros Hst Hsz Hl. unfold star_face in Hst.
  destruct f as [j|]; [|done]. simpl in Hst.
  destruct (faces m !! j) as [x|] eqn:Hx; [|done]. simpl in Hst.
  injection Hst as <-. fold (co_tets x) in *.
  unfold size_tetrahedra, face_boundary_rule, face_interface_rule in *. simpl in *.
  rewrite update_flag_face_nf, Hx. simpl. unfold face_flags.
  destruct (co_tets x) as [|t0 [|t1 [|t2 l]]] eqn:Hco; simpl in Hsz; try lia.
  - destruct (Hl t0) as [l0 Hl0]; [by left|]. rewrite Hl0. simpl.
    eexists _, _, _. split; [done|]. split.
    { split; [by eapply same_incidence_put_face|done]. }
    unfold is_boundary_face, is_interface_face. simpl. rewrite lookup_insert_eq. simpl.
    split; [done|]. split; [done|]. split; [done|]. split; [|done].
    rewrite bool_decide_eq_true. split.
    + intros ?. left. by exists t0, l0.
    + intros [(?&?&?&?&?)|(?&?&?&?&?&?)]; by simplify_eq.
  - destruct (Hl t0) as [l0 Hl0]; [by left|].
    destruct (Hl t1) as [l1 Hl1]; [by right; left|]. rewrite Hl0, Hl1. simpl.
    eexists _, _, _. split; [done|]. split.
    { split; [by eapply same_incidence_put_face|done]. }
    unfold is_boundary_face, is_interface_face. simpl. rewrite lookup_insert_eq. simpl.
    split; [done|]. split; [done|]. split; [by split|]. split.
    + rewrite bool_decide_eq_true. split.
      * intros ?. right. by exists t0, t1, l0, l1.
      * intros [(?&?&?&?&?)|(?&?&?&?&?&?&?&?)]; by simplify_eq.
    + intros ?? [= <- <-] ??. simplify_eq. by rewrite bool_decide_eq_true_2.
Qed.

(** ** Intersection based look-ups *)

(** C5. [get_edge(n1, n2)] always returns a key: the unique edge common to
    the stars of [n1] and [n2] when there is exactly one (and that key is
    valid), the default-constructed invalid key when there is none or more
    than one.  [get_face(n1, n2, n3)] does the same with the faces common to
    three stars. *)
Theorem get_edge_get_face_unique m n1 n2 n3 st1 st2 st3 :
  star_node m n1 = Some st1 → star_node m n2 = Some st2 → star_node m n3 = Some st3 →
  (∃ e, get_edge m n1 n2 = Some e ∧
     (∀ e0, common2 (set_edges st1) (set_edges st2) e0 →
        (∀ y, common2 (set_edges st1) (set_edges st2) y → y = e0) →
        e = e0 ∧ is_valid e = true) ∧
     (¬ exactly_one (common2 (set_edges st1) (set_edges st2)) → e = EdgeKey)) ∧
  (∃ f, get_face m n1 n2 n3 = Some f ∧
     (∀ f0, common3 (set_faces st1) (set_faces st2) (set_faces st3) f0 →
        (∀ y, common3 (set_faces st1) (set_faces st2) (set_faces st3) y → y = f0) →
        f = f0 ∧ is_valid f = true) ∧
     (¬ exactly_one (common3 (set_faces st1) (set_faces st2) (set_faces st3)) →
      f = FaceKey)).
Proof.
  intros H1 H2 H3. split.
  - unfold get_edge. rewrite H1, H2. simpl.
    pose proof (star_node_NoDup _ _ _ H1) as (_ & Hnd & _).
    assert (NoDup (keep (set_edges st2) (set_edges st1))) as Hk
      by (by apply NoDup_filter).
    pose proof (NoDup_length_1 _ Hk) as Hlen.
    unfold size_edges, edges_begin. simpl. case_decide as Hsz.
    + eexists. split; [done|]. split; [|done].
      intros e0 He0 Hu. exfalso. apply Hsz, Hlen. exists e0.
      split; [by apply elem_of_keep|]. intros y Hy%elem_of_keep. by apply Hu.
    + destruct (Hlen) as [Hex _].
      destruct (Hex Hsz) as (x & Hx & Hux).
      destruct (keep (set_edges st2) (set_edges st1)) as [|a [|??]] eqn:Hkeep; try done.
      simpl. eexists. split; [done|].
      apply list_elem_of_singleton in Hx as ->. split.
      * intros e0 He0 Hu.
        assert (a ∈ keep (set_edges st2) (set_edges st1)) as Ha
          by (rewrite Hkeep; by left).
        apply elem_of_keep in Ha. split; [by apply Hu|].
        eapply find_Some_valid, star_node_edges_exist; [exact H1|apply Ha].
      * intros Hne. exfalso. apply Hne. exists a. split.
        -- apply elem_of_keep. rewrite Hkeep. by left.
        -- intros y Hy. apply elem_of_keep in Hy. rewrite Hkeep in Hy.
           by apply list_elem_of_singleton in Hy.
  - unfold get_face. rewrite H1, H2, H3. simpl.
    pose proof (star_node_NoDup _ _ _ H1) as (_ & _ & Hnd & _).
    set (k := keep (set_faces st3) (keep (set_faces st2) (set_faces st1))).
    assert (NoDup k) as Hk by (by do 2 apply NoDup_filter).
    assert (∀ x, x ∈ k ↔ common3 (set_faces st1) (set_faces st2) (set_faces st3) x) as Hin.
    { intros x. unfold k, common3. rewrite !elem_of_keep. tauto. }
    pose proof (NoDup_length_1 _ Hk) as Hlen.
    unfold size_faces, faces_begin. simpl. fold k. case_decide as Hsz.
    + eexists. split; [done|]. split; [|done].
      intros f0 Hf0 Hu. exfalso. apply Hsz, Hlen. exists f0.
      split; [by apply Hin|]. intros y Hy%Hin. by apply Hu.
    + destruct (Hlen) as [Hex _].
      destruct (Hex Hsz) as (x & Hx & Hux).
      destruct k as [|a [|??]] eqn:Hkeep; try done.
      simpl. eexists. split; [done|].
      apply list_elem_of_singleton in Hx as ->.
      assert (common3 (set_faces st1) (set_faces st2) (set_faces st3) a) as Ha
        by (apply Hin; by left).
      split.
      * intros f0 Hf0 Hu. split; [by apply Hu|].
        eapply find_Some_valid, star_node_faces_exist; [exact H1|apply Ha].
      * intros Hne. exfalso. apply Hne. exists a. split; [done|].
        intros y Hy%Hin. by apply list_elem_of_singleton in Hy.
Qed.

(** C10. [get_tet(t, f)] always returns a key for an existing face [f]: a
    tetrahedron of the star of [f] other than [t] when there is one, the
    default-constructed invalid key when [f] has no co-tetrahedron besides
    [t]. *)
Theorem get_tet_other m t f :
  exists_face m f = true →
  ∃ st_f t2,
    star_face m f = Some st_f ∧ get_tet m t f = Some t2 ∧
    ((∃ x, x ∈ set_tets st_f ∧ x ≠ t) → t2 ∈ set_tets st_f ∧ t2 ≠ t) ∧
    ((∀ x, x ∈ set_tets st_f → x = t) → t2 = TetrahedronKey).
Proof.
  unfold exists_face. rewrite bool_decide_eq_true. intros [x Hx].
  unfold get_tet, star_face. rewrite Hx. simpl. eexists _, _.
  split; [done|]. split; [done|]. simpl.
  induction (ins_all (f_co_boundary x) []) as [|a l IH]; simpl.
  - split; [|done]. intros (y & Hy & _). by apply elem_of_nil in Hy.
  - case_decide as Ha.
    + split; [intros _; split; [by left|done]|].
      intros Hall. destruct Ha. apply Hall. by left.
    + subst a. destruct IH as [IH1 IH2]. split.
      * intros (y & Hy & Hne). apply elem_of_cons in Hy as [->|Hy]; [done|].
        destruct IH1 as [??]; [by exists y|]. split; [by right|done].
      * intros Hall. apply IH2. intros y Hy. apply Hall. by right.
Qed.

(** ** Flag propagation *)

(** C8. Flag propagation is idempotent: when [update(S)] has run on a mesh,
    running it again on the result, with nothing changed in between, returns
    that very mesh: every boundary, interface and crossing flag keeps the
    value the first run gave it.  And [update(S)] does run to its end on a
    mesh whose references exist. *)
Theorem update_idempotent s m :
  (closed m → is_Some (update s m)) ∧
  ∀ m', update s m = Some m' → update s m' = Some m'.
Proof.
  split.
  { intros Hc. destruct (update_total s m Hc) as (m' & -> & _). eauto. }
  intros m'. rewrite !update_phases.
  destruct (face_phase (set_faces s) m) as [m1|] eqn:H1; simpl; [|done].
  destruct (edge_phase (set_edges s) m1) as [m2|] eqn:H2; simpl; [|done].
  intros H3.
  apply face_phase_spec in H1 as (Hn1 & He1 & Ht1 & Hi1 & Hf1 & Hfix1).
  apply edge_phase_spec in H2 as (Hn2 & Hf2 & Ht2 & Hi2 & He2 & Hfix2).
  apply node_phase_spec in H3 as (He3 & Hf3 & Ht3 & Hi3 & Hn3 & Hfix3).
  assert (same_incidence m1 m') as Hi13 by (by eapply same_incidence_trans).
  rewrite face_phase_fixed; simpl.
  - rewrite edge_phase_fixed; simpl.
    + by apply node_phase_fixed.
    + intros e He Hex. destruct (exists_edge_Some _ _ Hex) as [i ->].
      eapply edge_fixed_frame; [apply Hfix2; [done|]|done|congruence|congruence].
      by rewrite (exists_edge_topo m2 m').
  - intros f Hf Hex. destruct (exists_face_Some _ _ Hex) as [i ->].
    eapply face_fixed_frame; [apply Hfix1; [done|]|congruence|congruence].
    by rewrite (exists_face_topo m1 m').
Qed.

(** C9. [set_label(t, l)] on an existing tetrahedron changes the stored
    label of [t] and nothing else in the tetrahedron pool; the incidence
    lists and the positions stay as they were; and every node, edge and face
    outside the closure of [t] keeps its whole record, flags included.  So
    the only other thing that can differ afterwards is a flag of a simplex in
    the closure of [t].  And [set_label(t, l)] does run to its end on an
    existing tetrahedron of a mesh whose references exist. *)
Theorem set_label_frame t label m :
  (closed m → is_Some (find_tetrahedron m t) → is_Some (set_label t label m)) ∧
  ∀ m', set_label t label m = Some m' →
  ∃ cl,
    closure_tet m t = Some cl ∧
    get_label m' t = Some label ∧
    (∀ t', t' ≠ t → find_tetrahedron m' t' = find_tetrahedron m t') ∧
    t_faces <$> find_tetrahedron m' t = t_faces <$> find_tetrahedron m t ∧
    same_incidence m m' ∧
    (∀ k, k ∉ set_nodes cl → find_node m' k = find_node m k) ∧
    (∀ k, k ∉ set_edges cl → find_edge m' k = find_edge m k) ∧
    (∀ k, k ∉ set_faces cl → find_face m' k = find_face m k).
Proof.
  split.
  { intros Hc Ht. destruct (set_label_total t label m Hc Ht) as (m' & -> & _). eauto. }
  intros m' (i & x & cl & -> & Hx & Hcl & Ht & Hi & Hn & He & Hf)%set_label_effect.
  exists cl. split; [done|]. unfold get_label, find_tetrahedron. simpl.
  rewrite Ht, lookup_insert_eq, Hx. simpl. split; [done|]. split.
  { intros [j|] Hj; simpl; [|done]. apply lookup_insert_ne. congruence. }
  split; [done|]. split; [done|].
  split; [|split]; intros [j|] Hj; simpl; auto.
Qed.

(** ** Node flags *)

(** C3. On a mesh whose references exist and whose faces have two sides,
    [update_flag(n)] returns, and afterwards the boundary, interface and
    crossing flags of [n] are the disjunction of the corresponding flags of
    the edges incident to [n], except that the crossing flag is also set when
    [n] is interface, no incident edge is crossing, and the star of [n] has
    at least three label-connected components: three of its tetrahedra no
    two of which are joined by a chain of tetrahedra of the star in which
    neighbours have a face in common and the same label.  Nothing but the
    flags of [n] changes. *)
Theorem update_flag_node_rule m n st :
  closed m → two_sided m → star_node m n = Some st →
  ∃ m' itf b c,
    update_flag_node n m = Some m' ∧
    same_topology m m' ∧ edges m' = edges m ∧ faces m' = faces m ∧
    (∀ j, Some j ≠ n → nodes m' !! j = nodes m !! j) ∧
    is_interface_node m' n = Some itf ∧ is_boundary_node m' n = Some b ∧
    is_crossing_node m' n = Some c ∧
    (itf = true ↔ ∃ e, e ∈ set_edges st ∧ is_interface_edge m e = Some true) ∧
    (b = true ↔ ∃ e, e ∈ set_edges st ∧ is_boundary_edge m e = Some true) ∧
    (c = true ↔
       (∃ e, e ∈ set_edges st ∧ is_crossing_edge m e = Some true) ∨
       (itf = true ∧ ¬ (∃ e, e ∈ set_edges st ∧ is_crossing_edge m e = Some true) ∧
        components_at_least m 3 (set_tets st))).
Proof.
  intros Hcl Hts Hst.
  assert (is_Some (update_flag_node n m)) as [m' Hup].
  { destruct n as [i|]; [|done]. rewrite update_flag_node_nf.
    assert (star_node m (Some i) = Some st) as Hst' by done.
    unfold star_node in Hst. simpl in Hst.
    destruct (nodes m !! i) as [x|] eqn:Hx; [|done]. simpl.
    rewrite Hst'. simpl.
    destruct (negb _ && _); simpl; [|eauto].
    destruct (crossing_total _ _ _ Hst') as [cr ->]; [by eapply star_node_walkable|].
    simpl. eauto. }
  exists m'.
  pose proof (update_flag_node_step _ _ _ Hup) as (He & Hf & Ht & Hi & Hn & _).
  pose proof Hup as (i & x & st0 & cr & -> & Hx & Hst0 & Hcr & ->)%update_flag_node_Some.
  rewrite Hst in Hst0. injection Hst0 as <-.
  eexists _, _, _. split; [done|].
  split; [by split|]. split; [done|]. split; [done|]. split; [done|].
  unfold is_interface_node, is_boundary_node, is_crossing_node.
  simpl. rewrite lookup_insert_eq. simpl.
  split; [done|]. split; [done|]. split; [done|].
  split; [apply existsb_edge_itf|]. split; [apply existsb_edge_bnd|].
  rewrite orb_true_iff, <-!existsb_edge_crs.
  unfold crossing_query in Hcr.
  destruct (existsb (edge_crs m) (set_edges st)) eqn:Hc; simpl in *.
  - split; [by left|]. by left.
  - destruct (existsb (edge_itf m) (set_edges st)) eqn:Hitf; simpl in *.
    + pose proof (crossing_components _ _ _ _ Hcl Hts Hst Hcr) as Hcs. rewrite Hcs.
      split; [intros [|]; [done|]; right; by repeat split|].
      intros [|(_ & _ & ?)]; [done|by right].
    + injection Hcr as <-. split; [by intros [|]|]. by intros [|(? & _)].
Qed.

(** ** Euler operators over an arbitrary kernel *)

Section EulerProperties.

Variable split_edge_helper :
  edge_key → Mesh vec3 → option (node_key * list (tet_key * tet_key) * Mesh vec3).
Variable split_tetrahedron : tet_key → Mesh vec3 → option (node_key * Mesh vec3).
Variable edge_collapse_helper :
  edge_key → node_key → node_key → Mesh vec3 → option (node_key * Mesh vec3).
Variable DEBUG : bool.

Local Abbreviation collapseK := (collapse edge_collapse_helper DEBUG).
Local Abbreviation split_edgeK := (split_edge split_edge_helper).
Local Abbreviation split_tetK := (split_tet split_tetrahedron).
Local Abbreviation flip_32K := (flip_32 split_edge_helper edge_collapse_helper DEBUG).

(** C4. When the kernel refuses a collapse, that is, [edge_collapse_helper]
    hands back an invalid key, and a refusing kernel leaves the mesh as it
    found it, [collapse] returns that invalid key and the mesh it was given:
    it returns before the flag update, so nothing is created, removed,
    merged, relabelled or reflagged. *)
Theorem collapse_refused e m ns n0 n1 n m1 :
  refusal_keeps_mesh edge_collapse_helper →
  get_nodes_edge m e = Some ns → ns !! 0%nat = Some n0 → ns !! 1%nat = Some n1 →
  is_valid n0 = true → is_valid n1 = true →
  edge_collapse_helper e n0 n1 m = Some (n, m1) → is_valid n = false →
  collapseK e m = Some (n, m) ∧ is_valid n = false.
Proof.
  intros Hkeep Hns H0 H1 Hv0 Hv1 Hk Hn. split; [|done].
  assert (m1 = m) as -> by (by eapply Hkeep).
  unfold collapse. rewrite Hns. simpl. rewrite H0, H1. simpl.
  rewrite Hv0, Hv1. simpl. destruct DEBUG; simpl; by rewrite Hk; simpl; rewrite Hn.
Qed.



End EulerProperties.

(** * Further properties of the API *)

(** ** Key vectors *)

Section KeyVectorFacts.
Context {K : Type} `{EqDecision K}.
Implicit Types (keys : list K).

Lemma push_new_spec keys l :
  (NoDup keys → NoDup (foldl KeyVectors.push_new keys l)) ∧
  (∀ k : K, k ∈ foldl KeyVectors.push_new keys l ↔ k ∈ keys ∨ k ∈ l) ∧
  keys `prefix_of` foldl KeyVectors.push_new keys l.
Proof.
  revert keys. induction l as [|a l IH]; intros keys; simpl.
  - split; [done|]. split; [|done]. intros x. rewrite elem_of_nil. tauto.
  - destruct (IH (KeyVectors.push_new keys a)) as (IH1 & IH2 & IH3).
    unfold KeyVectors.push_new in *. destruct (decide (a ∈ keys)) as [Ha|Ha].
    + split; [done|]. split; [|done]. intros x. rewrite IH2, elem_of_cons.
      split; [tauto|]. intros [?|[->|?]]; tauto.
    + split; [|split].
      * intros Hnd. apply IH1. apply NoDup_app. split; [done|].
        split; [|apply NoDup_singleton]. intros x Hx ->%list_elem_of_singleton. done.
      * intros x. rewrite IH2, elem_of_app, list_elem_of_singleton, elem_of_cons. tauto.
      * etrans; [|done]. by apply prefix_app_r.
Qed.

Lemma filter_snoc (P : K → Prop) `{!∀ x, Decision (P x)} keys (k : K) :
  filter P (keys ++ [k]) = if decide (P k) then filter P keys ++ [k] else filter P keys.
Proof.
  rewrite filter_app. simpl. rewrite filter_cons, filter_nil.
  destruct (decide (P k)); [done|by rewrite app_nil_r].
Qed.

Lemma foldl_keep_filter (P : K → Prop) `{!∀ x, Decision (P x)} acc l :
  foldl (λ keys (k : K), if decide (P k) then keys ++ [k] else keys) acc l = acc ++ filter P l.
Proof.
  revert acc. induction l as [|a l IH]; intros acc; simpl; [by rewrite app_nil_r|].
  rewrite IH, filter_cons. destruct (decide (P a)); [by rewrite <-app_assoc|done].
Qed.

Lemma foldl_drop_filter (P : K → Prop) `{!∀ x, Decision (P x)} acc l :
  foldl (λ keys (k : K), if decide (P k) then keys else keys ++ [k]) acc l
  = acc ++ filter (λ k : K, ¬ P k) l.
Proof.
  revert acc. induction l as [|a l IH]; intros acc; simpl; [by rewrite app_nil_r|].
  rewrite IH, filter_cons. destruct (decide (P a)).
  - by rewrite decide_False by tauto.
  - by rewrite decide_True, <-app_assoc by done.
Qed.

Lemma intersection_filter keys1 keys2 :
  KeyVectors.intersection keys1 keys2 = filter (λ k : K, k ∈ keys2) keys1.
Proof. unfold KeyVectors.intersection. by rewrite foldl_keep_filter. Qed.

Lemma difference_filter keys1 keys2 :
  KeyVectors.difference keys1 keys2
  = filter (λ k : K, k ∉ keys2) keys1 ++ filter (λ k : K, k ∉ keys1) keys2.
Proof. unfold KeyVectors.difference. by rewrite !foldl_drop_filter. Qed.

Lemma uni_NoDup_elem keys1 keys2 :
  NoDup (KeyVectors.uni keys1 keys2) ∧
  (∀ k : K, k ∈ KeyVectors.uni keys1 keys2 ↔ k ∈ keys1 ∨ k ∈ keys2).
Proof.
  unfold KeyVectors.uni.
  destruct (push_new_spec [] keys1) as (H1 & H2 & _).
  destruct (push_new_spec (foldl KeyVectors.push_new [] keys1) keys2) as (H3 & H4 & _).
  split; [apply H3, H1, NoDup_nil_2|].
  intros x. rewrite H4, H2, elem_of_nil. tauto.
Qed.

(** X1. [uni(keys1, keys2)] holds every key of either vector exactly once:
    it has no duplicates even when its arguments have, and a first vector
    that is already free of duplicates is kept as the front of the result. *)
Theorem uni_union_once keys1 keys2 :
  NoDup (KeyVectors.uni keys1 keys2) ∧
  (∀ k : K, k ∈ KeyVectors.uni keys1 keys2 ↔ k ∈ keys1 ∨ k ∈ keys2) ∧
  (NoDup keys1 → keys1 `prefix_of` KeyVectors.uni keys1 keys2).
Proof.
  unfold KeyVectors.uni.
  destruct (push_new_spec [] keys1) as (H1 & H2 & _).
  destruct (push_new_spec (foldl KeyVectors.push_new [] keys1) keys2) as (H3 & H4 & H5).
  split; [apply H3, H1, NoDup_nil_2|]. split.
  - intros x. rewrite H4, H2, elem_of_nil. tauto.
  - intros Hnd. etrans; [|done].
    assert (∀ acc l : list K, NoDup (acc ++ l) → foldl KeyVectors.push_new acc l = acc ++ l) as Hid.
    { clear. intros acc l. revert acc. induction l as [|a l IH]; intros acc Hnd; simpl.
      - by rewrite app_nil_r.
      - unfold KeyVectors.push_new at 2. apply NoDup_app in Hnd as (Ha & Hdisj & Hl).
        rewrite decide_False.
        + rewrite IH, <-app_assoc; [done|]. rewrite <-app_assoc. simpl.
          apply NoDup_app. done.
        + intros Hin. apply (Hdisj a Hin). by left. }
    by rewrite (Hid [] keys1).
Qed.

(** X2. [intersection(keys1, keys2)] keeps, in the order of [keys1], the keys
    of [keys1] that occur in [keys2]; it does not remove duplicates, so a
    vector intersected with itself comes back unchanged. *)
Theorem intersection_keeps_first keys1 keys2 :
  (∀ k : K, k ∈ KeyVectors.intersection keys1 keys2 ↔ k ∈ keys1 ∧ k ∈ keys2) ∧
  KeyVectors.intersection keys1 keys2 `sublist_of` keys1 ∧
  KeyVectors.intersection keys1 keys1 = keys1 ∧
  KeyVectors.intersection keys1 [] = [].
Proof.
  rewrite !intersection_filter. split; [|split; [|split]].
  - intros x. rewrite list_elem_of_filter. tauto.
  - apply sublist_filter.
  - assert (∀ l : list K, (∀ x, x ∈ l → x ∈ keys1) → filter (λ k : K, k ∈ keys1) l = l) as Hall.
    { induction l as [|a l IH]; intros Hl; [done|]. rewrite filter_cons.
      rewrite decide_True by (apply Hl; by left). f_equal. apply IH.
      intros x Hx. apply Hl. by right. }
    by apply Hall.
  - induction keys1 as [|a l IH]; [done|]. rewrite filter_cons.
    by rewrite decide_False by (by intros ?%elem_of_nil).
Qed.

Lemma filter_all (P : K → Prop) `{!∀ x, Decision (P x)} keys :
  (∀ x, x ∈ keys → P x) → filter P keys = keys.
Proof.
  induction keys as [|a l IH]; intros Hl; [done|]. rewrite filter_cons.
  rewrite decide_True by (apply Hl; by left). f_equal. apply IH.
  intros x Hx. apply Hl. by right.
Qed.

Lemma filter_none (P : K → Prop) `{!∀ x, Decision (P x)} keys :
  (∀ x, x ∈ keys → ¬ P x) → filter P keys = [].
Proof.
  induction keys as [|a l IH]; intros Hl; [done|]. rewrite filter_cons.
  rewrite decide_False by (apply Hl; by left). apply IH.
  intros x Hx. apply Hl. by right.
Qed.

(** X3. [difference(keys1, keys2)] is the symmetric difference: the keys of
    [keys1] that are not in [keys2], followed by the keys of [keys2] that are
    not in [keys1].  So a vector minus itself is empty, and taking out a key
    that is not there appends it instead. *)
Theorem difference_is_symmetric keys1 keys2 :
  (∀ k : K, k ∈ KeyVectors.difference keys1 keys2 ↔
            (k ∈ keys1 ∧ k ∉ keys2) ∨ (k ∈ keys2 ∧ k ∉ keys1)) ∧
  KeyVectors.difference keys1 keys1 = [] ∧
  (∀ k : K, k ∉ keys1 → KeyVectors.difference keys1 [k] = keys1 ++ [k]) ∧
  (∀ k : K, k ∈ keys1 →
     KeyVectors.difference keys1 [k] = filter (λ x : K, x ≠ k) keys1).
Proof.
  split; [|split; [|split]].
  - intros x. rewrite difference_filter, elem_of_app, !list_elem_of_filter. tauto.
  - rewrite difference_filter. rewrite !filter_none; [done|tauto..].
  - intros k Hk. rewrite difference_filter. f_equal.
    + apply filter_all. intros x Hx ->%list_elem_of_singleton. done.
    + rewrite filter_cons, decide_True by done. done.
  - intros k Hk. rewrite difference_filter.
    rewrite (filter_none _ [k]), app_nil_r.
    + apply list_filter_iff. intros x. rewrite list_elem_of_singleton. done.
    + intros x ->%list_elem_of_singleton. tauto.
Qed.

End KeyVectorFacts.

(** ** Flag propagation, level by level *)

Lemma existsb_face_itf m fs :
  existsb (face_itf m) fs = true ↔ ∃ f, f ∈ fs ∧ is_interface_face m f = Some true.
Proof.
  unfold face_itf, is_interface_face. induction fs as [|a fs IH]; simpl.
  - split; [done|]. intros (f & Hf & _). by apply elem_of_nil in Hf.
  - rewrite orb_true_iff, IH. split.
    + intros [Ha|(f & Hf & H)].
      * exists a. split; [by left|]. destruct (find_face m a); simpl in *; congruence.
      * exists f. split; [by right|done].
    + intros (f & [->|Hf]%elem_of_cons & H).
      * left. destruct (find_face m a); simpl in *; congruence.
      * right. by exists f.
Qed.

Lemma existsb_face_bnd m fs :
  existsb (face_bnd m) fs = true ↔ ∃ f, f ∈ fs ∧ is_boundary_face m f = Some true.
Proof.
  unfold face_bnd, is_boundary_face. induction fs as [|a fs IH]; simpl.
  - split; [done|]. intros (f & Hf & _). by apply elem_of_nil in Hf.
  - rewrite orb_true_iff, IH. split.
    + intros [Ha|(f & Hf & H)].
      * exists a. split; [by left|]. destruct (find_face m a); simpl in *; congruence.
      * exists f. split; [by right|done].
    + intros (f & [->|Hf]%elem_of_cons & H).
      * left. destruct (find_face m a); simpl in *; congruence.
      * right. by exists f.
Qed.

(** X4. [update_flag(e)] on an existing edge runs to its end and touches
    nothing but the three flags of [e]: afterwards [e] is interface iff some
    face of its star is interface, boundary iff some face of its star is
    boundary, and crossing iff more than two faces of its star are
    interface. *)
Theorem update_flag_edge_rule m e st :
  star_edge m e = Some st →
  ∃ m' itf b c,
    update_flag_edge e m = Some m' ∧ same_topology m m' ∧
    nodes m' = nodes m ∧ faces m' = faces m ∧
    (∀ j, Some j ≠ e → edges m' !! j = edges m !! j) ∧
    is_interface_edge m' e = Some itf ∧ is_boundary_edge m' e = Some b ∧
    is_crossing_edge m' e = Some c ∧
    (itf = true ↔ ∃ f, f ∈ set_faces st ∧ is_interface_face m f = Some true) ∧
    (b = true ↔ ∃ f, f ∈ set_faces st ∧ is_boundary_face m f = Some true) ∧
    (c = true ↔ 2 < count_itf m (set_faces st)).
Proof.
  intros Hst. destruct e as [i|]; [|done].
  assert (is_Some (edges m !! i)) as [x Hx].
  { unfold star_edge in Hst. simpl in Hst. destruct (edges m !! i); [eauto|done]. }
  rewrite update_flag_edge_nf, Hx, Hst. simpl.
  eexists _, _, _, _. split; [done|]. split.
  { split; [by eapply same_incidence_put_edge|done]. }
  split; [done|]. split; [done|]. split.
  { intros j Hj. simpl. apply lookup_insert_ne. congruence. }
  unfold is_interface_edge, is_boundary_edge, is_crossing_edge. simpl.
  rewrite lookup_insert_eq. simpl. do 3 (split; [done|]).
  split; [apply existsb_face_itf|]. split; [apply existsb_face_bnd|].
  apply bool_decide_eq_true.
Qed.

(** A simplex on which [update_flag] changes nothing carries the flags of
    its rule. *)

Lemma face_fixed_rule m f : update_flag_face f m = Some m → face_rule m f.
Proof.
  intros Hfix st Hst.
  pose proof Hfix as (i & _ & _ & -> & _)%update_flag_face_Some.
  apply face_fixed_iff in Hfix as (x & fl & Hx & Hfl & E).
  unfold star_face in Hst. simpl in Hst. rewrite Hx in Hst. simpl in Hst.
  injection Hst as <-. fold (co_tets x).
  unfold is_boundary_face, is_interface_face. simpl. rewrite Hx. simpl.
  exists (f_boundary x), (f_interface x). split; [done|]. split; [done|].
  assert (f_interface x = fl.1 ∧ f_boundary x = fl.2) as [-> ->].
  { rewrite <-E. by destruct fl. }
  unfold face_boundary_rule, face_interface_rule, size_tetrahedra, face_flags in *.
  simpl. destruct (co_tets x) as [|t0 [|t1 [|t2 l]]] eqn:Hco; simpl in *.
  - injection Hfl as <-. simpl. split; [done|]. split; [done|].
    intros [(?&?&?&_)|(?&?&?&?&?&_)]; done.
  - destruct (get_label m t0) as [l0|] eqn:Hl0; simpl in Hfl; [|done].
    injection Hfl as <-. simpl. split; [done|]. rewrite bool_decide_eq_true. split.
    + intros ?. left. by exists t0, l0.
    + intros [(?&?&?&?&?)|(?&?&?&?&?&?)]; by simplify_eq.
  - destruct (get_label m t0) as [l0|] eqn:Hl0; simpl in Hfl; [|done].
    destruct (get_label m t1) as [l1|] eqn:Hl1; simpl in Hfl; [|done].
    injection Hfl as <-. simpl. split; [done|]. rewrite bool_decide_eq_true. split.
    + intros ?. right. by exists t0, t1, l0, l1.
    + intros [(?&?&?&?&?)|(?&?&?&?&?&?&?&?)]; by simplify_eq.
  - injection Hfl as <-. simpl. split; [done|]. split; [done|].
    intros [(?&?&?&_)|(?&?&?&?&?&_)]; done.
Qed.

Lemma edge_fixed_rule m e : update_flag_edge e m = Some m → edge_rule m e.
Proof.
  intros Hfix st Hst.
  pose proof Hfix as (i & _ & _ & -> & _)%update_flag_edge_Some.
  apply edge_fixed_iff in Hfix as (x & st' & Hx & Hst' & E).
  rewrite Hst in Hst'. injection Hst' as <-.
  unfold is_interface_edge, is_boundary_edge, is_crossing_edge. simpl. rewrite Hx. simpl.
  exists (e_interface x), (e_boundary x), (e_crossing x). do 3 (split; [done|]).
  rewrite <-E. simpl.
  split; [apply existsb_face_itf|]. split; [apply existsb_face_bnd|].
  apply bool_decide_eq_true.
Qed.

Lemma node_fixed_rule m n : update_flag_node n m = Some m → node_rule m n.
Proof.
  intros Hfix st Hst.
  pose proof Hfix as (i & _ & _ & _ & -> & _)%update_flag_node_Some.
  apply node_fixed_iff in Hfix as (x & st' & cr & Hx & Hst' & Hcr & E).
  rewrite Hst in Hst'. injection Hst' as <-.
  unfold is_interface_node, is_boundary_node, is_crossing_node. simpl. rewrite Hx. simpl.
  exists (n_interface x), (n_boundary x), (n_crossing x). do 3 (split; [done|]).
  rewrite <-E. simpl.
  split; [apply existsb_edge_itf|]. split; [apply existsb_edge_bnd|].
  rewrite orb_true_iff, <-!existsb_edge_crs.
  unfold crossing_query in Hcr.
  destruct (existsb (edge_crs m) (set_edges st)) eqn:Hc; simpl in *.
  - split; [by left|]. by left.
  - destruct (existsb (edge_itf m) (set_edges st)) eqn:Hitf; simpl in *.
    + pose proof (crossing_spec _ _ _ _ Hst Hcr) as Hcs. rewrite Hcs.
      split; [intros [|]; [done|]; right; by repeat split|].
      intros [|(_ & _ & ?)]; [done|by right].
    + injection Hcr as <-. split; [by intros [|]|]. by intros [|(? & _)].
Qed.

Lemma update_fixed s m m' :
  update s m = Some m' →
  (∀ f, f ∈ set_faces s → exists_face m' f = true → update_flag_face f m' = Some m') ∧
  (∀ e, e ∈ set_edges s → exists_edge m' e = true → update_flag_edge e m' = Some m') ∧
  (∀ n, n ∈ set_nodes s → exists_node m' n = true → update_flag_node n m' = Some m').
Proof.
  rewrite update_phases.
  destruct (face_phase (set_faces s) m) as [m1|] eqn:H1; simpl; [|done].
  destruct (edge_phase (set_edges s) m1) as [m2|] eqn:H2; simpl; [|done].
  intros H3.
  apply face_phase_spec in H1 as (Hn1 & He1 & Ht1 & Hi1 & Hf1 & Hfix1).
  apply edge_phase_spec in H2 as (Hn2 & Hf2 & Ht2 & Hi2 & He2 & Hfix2).
  apply node_phase_spec in H3 as (He3 & Hf3 & Ht3 & Hi3 & Hn3 & Hfix3).
  assert (same_incidence m1 m') as Hi13 by (by eapply same_incidence_trans).
  split; [|split; [|done]].
  - intros f Hf Hex. destruct (exists_face_Some _ _ Hex) as [i ->].
    eapply face_fixed_frame; [apply Hfix1; [done|]|congruence|congruence].
    by rewrite (exists_face_topo m1 m').
  - intros e He Hex. destruct (exists_edge_Some _ _ Hex) as [i ->].
    eapply edge_fixed_frame; [apply Hfix2; [done|]|done|congruence|congruence].
    by rewrite (exists_edge_topo m2 m').
Qed.

Lemma star_face_exists m f st : star_face m f = Some st → exists_face m f = true.
Proof.
  unfold star_face, exists_face. intros H. apply bool_decide_eq_true_2.
  destruct (find_face m f); [eauto|done].
Qed.

Lemma star_edge_exists m e st : star_edge m e = Some st → exists_edge m e = true.
Proof.
  unfold star_edge, exists_edge. intros H. apply bool_decide_eq_true_2.
  destruct (find_edge m e); [eauto|done].
Qed.

Lemma star_node_exists m n st : star_node m n = Some st → exists_node m n = true.
Proof.
  unfold star_node, exists_node. intros H. apply bool_decide_eq_true_2.
  destruct (find_node m n); [eauto|done].
Qed.

(** X5. After [update(S)] every face, edge and node listed in [S] carries
    the flags of its rule, read on the resulting mesh: a face is boundary iff
    it has one co-tetrahedron and interface iff the labels across it say so,
    an edge has the disjunction of the flags of the faces of its star and is
    crossing iff more than two of them are interface, a node has the
    disjunction of the flags of the edges of its star, with the component
    count for crossing. *)
Theorem update_settles s m m' :
  update s m = Some m' →
  (∀ f, f ∈ set_faces s → face_rule m' f) ∧
  (∀ e, e ∈ set_edges s → edge_rule m' e) ∧
  (∀ n, n ∈ set_nodes s → node_rule m' n).
Proof.
  intros (Hf & He & Hn)%update_fixed. split; [|split].
  - intros f Hin st Hst. apply face_fixed_rule; [|done].
    apply Hf; [done|]. by eapply star_face_exists.
  - intros e Hin st Hst. apply edge_fixed_rule; [|done].
    apply He; [done|]. by eapply star_edge_exists.
  - intros n Hin st Hst. apply node_fixed_rule; [|done].
    apply Hn; [done|]. by eapply star_node_exists.
Qed.

(** X6. [update(S)] changes flags only, and only of simplices listed in [S]:
    the labels and the whole tetrahedron pool, the incidence lists and the
    positions stay as they were, and a node, edge or face that is not in [S]
    keeps its whole record. *)
Theorem update_touches_only_its_set s m m' :
  update s m = Some m' →
  tetrahedra m' = tetrahedra m ∧ same_incidence m m' ∧
  (∀ k, k ∉ set_nodes s → find_node m' k = find_node m k) ∧
  (∀ k, k ∉ set_edges s → find_edge m' k = find_edge m k) ∧
  (∀ k, k ∉ set_faces s → find_face m' k = find_face m k).
Proof.
  intros (Ht & Hi & Hn & He & Hf)%update_frame. split; [done|]. split; [done|].
  split; [|split]; intros [j|] Hj; simpl; auto.
Qed.

(** ** The first pass, [init] *)

Lemma fresh_gt (X : gset nat) i : i ∈ X → (i < fresh X)%nat.
Proof.
  intros Hi%elem_of_elements. unfold fresh, set_fresh. simpl.
  unfold fresh, infinite_fresh. simpl.
  induction (elements X) as [|a l IH]; [by apply elem_of_nil in Hi|].
  apply elem_of_cons in Hi as [->|Hi]; simpl; [lia|]. specialize (IH Hi). lia.
Qed.

Lemma elem_of_pool_keys {A} (p : gmap nat A) (k : key) :
  k ∈ pool_keys p ↔ ∃ i, k = Some i ∧ is_Some (p !! i).
Proof.
  unfold pool_keys. rewrite list_elem_of_fmap. split.
  - intros (i & -> & Hi%list_elem_of_filter). exists i. by destruct Hi.
  - intros (i & -> & Hi). exists i. split; [done|]. apply list_elem_of_filter.
    split; [done|]. apply elem_of_seq. split; [lia|]. simpl.
    apply fresh_gt. by apply elem_of_dom.
Qed.

Lemma unguarded_face_phase l m :
  (∀ f, f ∈ l → exists_face m f = true) →
  foldM (λ m fit, update_flag_face fit m) m l = face_phase l m.
Proof.
  unfold face_phase. revert m. induction l as [|a l IH]; intros m Hl; simpl; [done|].
  rewrite (Hl a) by left. destruct (update_flag_face a m) as [m1|] eqn:E; simpl; [|done].
  apply IH. intros f Hf. apply update_flag_face_step in E as (_ & _ & _ & Hi & _).
  rewrite <-(exists_face_topo m m1) by done. apply Hl. by right.
Qed.

Lemma unguarded_edge_phase l m :
  (∀ e, e ∈ l → exists_edge m e = true) →
  foldM (λ m eit, update_flag_edge eit m) m l = edge_phase l m.
Proof.
  unfold edge_phase. revert m. induction l as [|a l IH]; intros m Hl; simpl; [done|].
  rewrite (Hl a) by left. destruct (update_flag_edge a m) as [m1|] eqn:E; simpl; [|done].
  apply IH. intros f Hf. apply update_flag_edge_step in E as (_ & _ & _ & Hi & _).
  rewrite <-(exists_edge_topo m m1) by done. apply Hl. by right.
Qed.

Lemma unguarded_node_phase l m :
  (∀ n, n ∈ l → exists_node m n = true) →
  foldM (λ m nit, update_flag_node nit m) m l = node_phase l m.
Proof.
  unfold node_phase. revert m. induction l as [|a l IH]; intros m Hl; simpl; [done|].
  rewrite (Hl a) by left. destruct (update_flag_node a m) as [m1|] eqn:E; simpl; [|done].
  apply IH. intros f Hf. apply update_flag_node_step in E as (_ & _ & _ & Hi & _).
  rewrite <-(exists_node_topo m m1) by done. apply Hl. by right.
Qed.

Lemma pool_keys_exist {A} (p : gmap nat A) (k : key) :
  k ∈ pool_keys p → is_Some (i ← k; p !! i).
Proof. intros (i & -> & Hi)%elem_of_pool_keys. done. Qed.

Lemma init_update m :
  init m = update (mk_set (pool_keys (nodes m)) (pool_keys (edges m))
                     (pool_keys (faces m)) []) m.
Proof.
  unfold init. rewrite update_phases. simpl.
  rewrite unguarded_face_phase.
  2:{ intros f Hf. apply bool_decide_eq_true_2. by apply pool_keys_exist. }
  destruct (face_phase _ m) as [m1|] eqn:H1; simpl; [|done].
  apply face_phase_spec in H1 as (Hn1 & He1 & _).
  rewrite He1, unguarded_edge_phase.
  2:{ intros e He. apply bool_decide_eq_true_2. unfold find_edge. rewrite He1.
      by apply pool_keys_exist. }
  destruct (edge_phase _ m1) as [m2|] eqn:H2; simpl; [|done].
  apply edge_phase_spec in H2 as (Hn2 & _).
  rewrite Hn2, Hn1, unguarded_node_phase; [done|].
  intros n Hn. apply bool_decide_eq_true_2. unfold find_node. rewrite Hn2, Hn1.
  by apply pool_keys_exist.
Qed.

(** X7. The first pass [init()] changes flags only, and when it is through
    every face, edge and node of the mesh carries the flags of its rule;
    from then on [update(S)] changes nothing, whatever [S] is, and neither
    does a second [init()]. *)
Theorem init_settles m m' :
  init m = Some m' →
  same_topology m m' ∧
  (∀ f, face_rule m' f) ∧ (∀ e, edge_rule m' e) ∧ (∀ n, node_rule m' n) ∧
  (∀ s, update s m' = Some m') ∧ init m' = Some m'.
Proof.
  rewrite init_update. intros Hup.
  pose proof (update_frame _ _ _ Hup) as (Ht & Hi & _).
  destruct (update_fixed _ _ _ Hup) as (Hf & He & Hn). simpl in *.
  assert (∀ f, exists_face m' f = true → update_flag_face f m' = Some m') as Hf'.
  { intros f Hex. apply Hf; [|done]. rewrite <-(exists_face_topo m m') in Hex by done.
    apply bool_decide_eq_true in Hex. destruct f as [i|]; [|by destruct Hex].
    apply elem_of_pool_keys. eauto. }
  assert (∀ e, exists_edge m' e = true → update_flag_edge e m' = Some m') as He'.
  { intros e Hex. apply He; [|done]. rewrite <-(exists_edge_topo m m') in Hex by done.
    apply bool_decide_eq_true in Hex. destruct e as [i|]; [|by destruct Hex].
    apply elem_of_pool_keys. eauto. }
  assert (∀ n, exists_node m' n = true → update_flag_node n m' = Some m') as Hn'.
  { intros n Hex. apply Hn; [|done]. rewrite <-(exists_node_topo m m') in Hex by done.
    apply bool_decide_eq_true in Hex. destruct n as [i|]; [|by destruct Hex].
    apply elem_of_pool_keys. eauto. }
  assert (∀ s, update s m' = Some m') as Hs.
  { intros s. rewrite update_phases. rewrite face_phase_fixed by auto. simpl.
    rewrite edge_phase_fixed by auto. simpl. apply node_phase_fixed. auto. }
  split; [by split|]. split; [|split; [|split; [|split]]].
  - intros f st Hst. apply face_fixed_rule; [|done]. apply Hf'. by eapply star_face_exists.
  - intros e st Hst. apply edge_fixed_rule; [|done]. apply He'. by eapply star_edge_exists.
  - intros n st Hst. apply node_fixed_rule; [|done]. apply Hn'. by eapply star_node_exists.
  - done.
  - rewrite init_update. apply Hs.
Qed.

(** ** Flags are recomputed, not patched *)

Lemma face_flags_agree m1 m2 x1 x2 :
  tetrahedra m1 = tetrahedra m2 → strip_face x1 = strip_face x2 →
  face_flags m1 x1 = face_flags m2 x2 ∧
  ∀ fl, with_face_flags fl x1 = with_face_flags fl x2.
Proof.
  intros Ht [= He Hco]. split.
  - unfold face_flags, co_tets, get_label, find_tetrahedron. by rewrite Ht, Hco.
  - intros fl. unfold with_face_flags. by rewrite He, Hco.
Qed.

Lemma face_phase_agree l m1 m2 :
  same_topology m1 m2 → (∀ j, Some j ∉ l → faces m1 !! j = faces m2 !! j) →
  match face_phase l m1, face_phase l m2 with
  | Some a, Some b => faces a = faces b
  | None, None => True
  | _, _ => False
  end.
Proof.
  unfold face_phase. revert m1 m2. induction l as [|f l IH]; intros m1 m2 Ht Hout; simpl.
  - apply map_eq. intros j. apply Hout. by intros ?%elem_of_nil.
  - rewrite <-(exists_face_topo m1 m2) by apply Ht.
    destruct (exists_face m1 f) eqn:Hex.
    + destruct (exists_face_Some _ _ Hex) as [i ->]. rewrite !update_flag_face_nf.
      apply bool_decide_eq_true in Hex as [x1 Hx1]. simpl in Hx1. rewrite Hx1.
      pose proof (same_incidence_face m1 m2 (Some i) (proj1 Ht)) as Hs. simpl in Hs.
      rewrite Hx1 in Hs. destruct (faces m2 !! i) as [x2|] eqn:Hx2; [|done].
      simpl in Hs. assert (strip_face x1 = strip_face x2) as Hs' by congruence. simpl.
      destruct (face_flags_agree m1 m2 x1 x2 (proj2 Ht) Hs') as [Hfl Hw].
      rewrite <-Hfl. destruct (face_flags m1 x1) as [fl|]; simpl; [|done].
      apply IH.
      * destruct Ht as [Hi Htt]. split; [|done].
        eapply same_incidence_trans; [apply same_incidence_sym|].
        { by eapply same_incidence_put_face. }
        eapply same_incidence_trans; [done|]. by eapply same_incidence_put_face.
      * intros j Hj. simpl. destruct (decide (i = j)) as [->|Hne].
        -- by rewrite !lookup_insert_eq, Hw.
        -- rewrite !lookup_insert_ne by done. apply Hout.
           intros [?|?]%elem_of_cons; [congruence|done].
    + apply IH; [done|]. intros j Hj. destruct (decide (Some j = f)) as [<-|Hne].
      * apply bool_decide_eq_false in Hex. simpl in Hex.
        pose proof (same_incidence_face m1 m2 (Some j) (proj1 Ht)) as Hs. simpl in Hs.
        destruct (faces m1 !! j) eqn:E1; [destruct Hex; eauto|].
        by destruct (faces m2 !! j).
      * apply Hout. intros [?|?]%elem_of_cons; [congruence|done].
Qed.

Lemma edge_phase_agree l m1 m2 :
  same_topology m1 m2 → faces m1 = faces m2 →
  (∀ j, Some j ∉ l → edges m1 !! j = edges m2 !! j) →
  match edge_phase l m1, edge_phase l m2 with
  | Some a, Some b => edges a = edges b
  | None, None => True
  | _, _ => False
  end.
Proof.
  unfold edge_phase. revert m1 m2. induction l as [|e l IH]; intros m1 m2 Ht Hf Hout; simpl.
  - apply map_eq. intros j. apply Hout. by intros ?%elem_of_nil.
  - rewrite <-(exists_edge_topo m1 m2) by apply Ht.
    destruct (exists_edge m1 e) eqn:Hex.
    + destruct (exists_edge_Some _ _ Hex) as [i ->]. rewrite !update_flag_edge_nf.
      apply bool_decide_eq_true in Hex as [x1 Hx1]. simpl in Hx1. rewrite Hx1.
      pose proof (same_incidence_edge m1 m2 (Some i) (proj1 Ht)) as Hs. simpl in Hs.
      rewrite Hx1 in Hs. destruct (edges m2 !! i) as [x2|] eqn:Hx2; [|done].
      simpl in Hs. injection Hs as Hn Hco. simpl.
      rewrite <-(star_edge_topo m1 m2) by apply Ht.
      destruct (star_edge m1 (Some i)) as [st|]; simpl; [|done].
      rewrite <-(existsb_ext _ _ _ (λ f, face_itf_faces m1 m2 f Hf)).
      rewrite <-(existsb_ext _ _ _ (λ f, face_bnd_faces m1 m2 f Hf)).
      rewrite <-(count_itf_faces m1 m2 _ Hf).
      apply IH.
      * destruct Ht as [Hi Htt]. split; [|done].
        eapply same_incidence_trans; [apply same_incidence_sym|].
        { by eapply same_incidence_put_edge. }
        eapply same_incidence_trans; [done|]. by eapply same_incidence_put_edge.
      * done.
      * intros j Hj. simpl. destruct (decide (i = j)) as [->|Hne].
        -- rewrite !lookup_insert_eq. unfold with_edge_flags. by rewrite Hn, Hco.
        -- rewrite !lookup_insert_ne by done. apply Hout.
           intros [?|?]%elem_of_cons; [congruence|done].
    + apply IH; [done..|]. intros j Hj. destruct (decide (Some j = e)) as [<-|Hne].
      * apply bool_decide_eq_false in Hex. simpl in Hex.
        pose proof (same_incidence_edge m1 m2 (Some j) (proj1 Ht)) as Hs. simpl in Hs.
        destruct (edges m1 !! j) eqn:E1; [destruct Hex; eauto|].
        by destruct (edges m2 !! j).
      * apply Hout. intros [?|?]%elem_of_cons; [congruence|done].
Qed.

Lemma node_phase_agree l m1 m2 :
  same_topology m1 m2 → edges m1 = edges m2 →
  (∀ j, Some j ∉ l → nodes m1 !! j = nodes m2 !! j) →
  match node_phase l m1, node_phase l m2 with
  | Some a, Some b => nodes a = nodes b
  | None, None => True
  | _, _ => False
  end.
Proof.
  unfold node_phase. revert m1 m2. induction l as [|n l IH]; intros m1 m2 Ht He Hout; simpl.
  - apply map_eq. intros j. apply Hout. by intros ?%elem_of_nil.
  - rewrite <-(exists_node_topo m1 m2) by apply Ht.
    destruct (exists_node m1 n) eqn:Hex.
    + destruct (exists_node_Some _ _ Hex) as [i ->]. rewrite !update_flag_node_nf.
      apply bool_decide_eq_true in Hex as [x1 Hx1]. simpl in Hx1. rewrite Hx1.
      pose proof (same_incidence_node m1 m2 (Some i) (proj1 Ht)) as Hs. simpl in Hs.
      rewrite Hx1 in Hs. destruct (nodes m2 !! i) as [x2|] eqn:Hx2; [|done].
      simpl in Hs. injection Hs as Hp Hco. simpl.
      rewrite <-(star_node_topo m1 m2) by apply Ht.
      destruct (star_node m1 (Some i)) as [st|]; simpl; [|done].
      pose proof (edge_flags_edges m1 m2 He) as Hfl.
      rewrite <-(existsb_ext (edge_itf m1) (edge_itf m2)) by (intros; apply Hfl).
      rewrite <-(existsb_ext (edge_bnd m1) (edge_bnd m2)) by (intros; apply Hfl).
      rewrite <-(existsb_ext (edge_crs m1) (edge_crs m2)) by (intros; apply Hfl).
      rewrite <-(crossing_topo m1 m2) by done.
      destruct (if negb _ && _ then crossing m1 (Some i) else Some false) as [cr|];
        simpl; [|done].
      apply IH.
      * destruct Ht as [Hi Htt]. split; [|done].
        eapply same_incidence_trans; [apply same_incidence_sym|].
        { by eapply same_incidence_put_node. }
        eapply same_incidence_trans; [done|]. by eapply same_incidence_put_node.
      * done.
      * intros j Hj. simpl. destruct (decide (i = j)) as [->|Hne].
        -- rewrite !lookup_insert_eq. unfold with_node_flags. by rewrite Hp, Hco.
        -- rewrite !lookup_insert_ne by done. apply Hout.
           intros [?|?]%elem_of_cons; [congruence|done].
    + apply IH; [done..|]. intros j Hj. destruct (decide (Some j = n)) as [<-|Hne].
      * apply bool_decide_eq_false in Hex. simpl in Hex.
        pose proof (same_incidence_node m1 m2 (Some j) (proj1 Ht)) as Hs. simpl in Hs.
        destruct (nodes m1 !! j) eqn:E1; [destruct Hex; eauto|].
        by destruct (nodes m2 !! j).
      * apply Hout. intros [?|?]%elem_of_cons; [congruence|done].
Qed.

Lemma mesh_eq (a b : Mesh vec3) :
  nodes a = nodes b → edges a = edges b → faces a = faces b →
  tetrahedra a = tetrahedra b → a = b.
Proof. destruct a, b. simpl. by intros -> -> -> ->. Qed.

(** [update(S)] itself leaves a mesh that agrees with the one it started
    from outside [S]. *)
Lemma update_agree_outside s m m' : update s m = Some m' → agree_outside s m m'.
Proof.
  intros (Ht & Hi & Hn & He & Hf)%update_frame.
  split; [by split|]. split; [|split]; intros j Hj; symmetry; auto.
Qed.

(** Flags inside [S] are overwritten before they are read. *)
Lemma update_agree s m1 m2 :
  agree_outside s m1 m2 → update s m1 = update s m2.
Proof.
  intros (Ht & Hn & He & Hf). rewrite !update_phases.
  pose proof (face_phase_agree (set_faces s) m1 m2 Ht Hf) as H1.
  destruct (face_phase (set_faces s) m1) as [a1|] eqn:Ha1,
           (face_phase (set_faces s) m2) as [a2|] eqn:Ha2; try done. simpl.
  apply face_phase_spec in Ha1 as (Hn1 & He1 & Ht1 & Hi1 & _).
  apply face_phase_spec in Ha2 as (Hn2 & He2 & Ht2 & Hi2 & _).
  assert (same_topology a1 a2) as Hta.
  { destruct Ht as [Hi Htt]. split; [|congruence].
    eapply same_incidence_trans; [by apply same_incidence_sym|].
    exact (same_incidence_trans _ _ _ Hi Hi2). }
  assert (∀ j, Some j ∉ set_edges s → edges a1 !! j = edges a2 !! j) as He'
    by (intros; rewrite He1, He2; auto).
  pose proof (edge_phase_agree (set_edges s) a1 a2 Hta H1 He') as H2.
  destruct (edge_phase (set_edges s) a1) as [b1|] eqn:Hb1,
           (edge_phase (set_edges s) a2) as [b2|] eqn:Hb2; try done. simpl.
  apply edge_phase_spec in Hb1 as (Hn1' & Hf1' & Ht1' & Hi1' & _).
  apply edge_phase_spec in Hb2 as (Hn2' & Hf2' & Ht2' & Hi2' & _).
  assert (same_topology b1 b2) as Htb.
  { destruct Hta as [Hi Htt]. split; [|congruence].
    eapply same_incidence_trans; [by apply same_incidence_sym|].
    exact (same_incidence_trans _ _ _ Hi Hi2'). }
  assert (∀ j, Some j ∉ set_nodes s → nodes b1 !! j = nodes b2 !! j) as Hn'
    by (intros; rewrite Hn1', Hn2', Hn1, Hn2; auto).
  pose proof (node_phase_agree (set_nodes s) b1 b2 Htb H2 Hn') as H3.
  destruct (node_phase (set_nodes s) b1) as [c1|] eqn:Hc1,
           (node_phase (set_nodes s) b2) as [c2|] eqn:Hc2; try done.
  apply node_phase_spec in Hc1 as (He1'' & Hf1'' & Ht1'' & _).
  apply node_phase_spec in Hc2 as (He2'' & Hf2'' & Ht2'' & _).
  f_equal. apply mesh_eq; [done|congruence..|].
  destruct Ht as [_ Htt]. congruence.
Qed.

(** X8. [update(S)] recomputes the flags of the simplices of [S] from the
    labels, the incidence lists and the flags outside [S]; the flags those
    simplices had before are never read.  Two meshes that differ only in
    flags of simplices of [S] are taken to the same mesh, or both runs stop
    on a failed look-up. *)
Theorem update_recomputes s m1 m2 :
  agree_outside s m1 m2 → update s m1 = update s m2.
Proof. intros H. by apply update_agree. Qed.

(** X9. The last label wins: relabelling a tetrahedron a second time gives
    the mesh that the second call alone would have given, flags included. *)
Theorem set_label_last_wins t l1 l2 m m1 :
  set_label t l1 m = Some m1 → set_label t l2 m1 = set_label t l2 m.
Proof.
  intros (i & x & cl & -> & Hx & Hcl & Ht & Hi & Hn & He & Hf)%set_label_effect.
  unfold set_label, put_label. simpl. rewrite Hx, Ht, lookup_insert_eq. simpl.
  rewrite insert_insert_eq.
  set (A := mk_mesh (nodes m1) (edges m1) (faces m1) _).
  set (B := mk_mesh (nodes m) (edges m) (faces m) _).
  assert (same_incidence m B) as HmB by done.
  assert (same_incidence B A) as HBA by done.
  assert (closure_tet B (Some i) = Some cl) as HclB.
  { rewrite <-Hcl. unfold closure_tet. simpl. rewrite lookup_insert_eq, Hx. simpl.
    apply foldM_ext. intros s f _. by rewrite (closure_face_topo m B). }
  assert (closure_tet A (Some i) = Some cl) as HclA.
  { rewrite <-HclB. unfold closure_tet. simpl. rewrite !lookup_insert_eq. simpl.
    apply foldM_ext. intros s f _. by rewrite (closure_face_topo B A). }
  rewrite HclA, HclB. simpl. apply update_agree.
  split; [split; [by apply same_incidence_sym|done]|]. simpl. auto.
Qed.

(** ** The walk over a star *)

Lemma walkable_forallb m (S : list tet_key) :
  forallb (λ t, bool_decide (is_Some (closure_tet m t))) S = true → walkable m S.
Proof.
  intros H t Ht. rewrite forallb_forall in H.
  apply list_elem_of_In, H in Ht. by apply bool_decide_eq_true in Ht.
Qed.

(** X10. On a mesh whose references exist and whose faces have two sides,
    [connected_component(st_n, t)] returns, provided every tetrahedron it can
    visit exists with its faces, and takes out of [st_n] exactly the
    tetrahedra joined to [t]: those reached from [t] by a chain of
    tetrahedra of [st_n] in which neighbours have a face in common and the
    same label.  The other tetrahedra stay, in their order, and the nodes,
    edges and faces of the set are not touched. *)
Theorem connected_component_takes_component fuel m st t :
  closed m → two_sided m →
  walkable m (t :: set_tets st) →
  (length (era t (set_tets st)) < fuel)%nat →
  ∃ st',
    connected_component fuel m st t = Some st' ∧
    set_nodes st' = set_nodes st ∧ set_edges st' = set_edges st ∧
    set_faces st' = set_faces st ∧
    set_tets st' `sublist_of` set_tets st ∧
    ∀ x, x ∈ set_tets st' ↔ x ∈ set_tets st ∧ ¬ joined m (set_tets st) t x.
Proof.
  intros Hc Hts Hw Hfuel.
  destruct (connected_component_total fuel m st t Hw Hfuel) as [st' Hcc].
  exists st'. split; [done|].
  pose proof (connected_component_spec _ _ _ _ _ Hcc) as [Hn He Hf _ _ _ _].
  pose proof (connected_component_removes _ _ _ _ _ Hcc) as Hrem.
  pose proof (removes_component_taken _ _ _ _ Hc Hts Hw Hrem) as Htk.
  destruct Hrem as [Hsub _]. done.
Qed.

(** X11. [crossing(n)] on a mesh whose references exist and whose faces have
    two sides returns, and it returns true iff the star of [n] has at least
    three label-connected components: three of its tetrahedra no two of
    which are joined by a chain of tetrahedra of the star in which
    neighbours have a face in common and the same label. *)
Theorem crossing_counts_components m n st :
  closed m → two_sided m → star_node m n = Some st →
  ∃ b, crossing m n = Some b ∧ (b = true ↔ components_at_least m 3 (set_tets st)).
Proof.
  intros Hc Hts Hst.
  destruct (crossing_total m n st Hst) as [b Hb]; [by eapply star_node_walkable|].
  exists b. split; [done|]. by eapply crossing_components.
Qed.

(** ** Incidence queries *)

Lemma push_new_ins (l : list key) (k : key) : KeyVectors.push_new l k = ins k l.
Proof.
  unfold KeyVectors.push_new, ins, contains. by case_bool_decide; case_decide.
Qed.

Lemma foldl_push_new_ins_all (ks l : list key) : foldl KeyVectors.push_new l ks = ins_all ks l.
Proof.
  unfold ins_all. revert l. induction ks as [|k ks IH]; intros l; simpl; [done|].
  by rewrite push_new_ins, IH.
Qed.

Lemma ins_all_app (a b l : list key) : ins_all (a ++ b) l = ins_all b (ins_all a l).
Proof. unfold ins_all. by rewrite foldl_app. Qed.

Lemma ins_elem (k : key) (l : list key) : k ∈ l → ins k l = l.
Proof. intros Hk. unfold ins, contains. by rewrite bool_decide_eq_true_2. Qed.

Lemma ins_not_elem (k : key) (l : list key) : k ∉ l → ins k l = l ++ [k].
Proof. intros Hk. unfold ins, contains. by rewrite bool_decide_eq_false_2. Qed.

Lemma ins_all_dedup (ks l : list key) : ins_all (ins_all ks []) l = ins_all ks l.
Proof.
  revert l. induction ks as [|k ks IH] using rev_ind; intros l; [done|].
  rewrite !ins_all_app. cbn [ins_all foldl].
  destruct (decide (k ∈ ks)) as [Hk|Hk].
  - rewrite (ins_elem k (ins_all ks [])) by (apply elem_of_ins_all; by left).
    rewrite (ins_elem k (ins_all ks l)) by (apply elem_of_ins_all; by left). apply IH.
  - rewrite (ins_not_elem k (ins_all ks [])).
    + change (foldl _ l (ins_all ks [] ++ [k])) with (ins_all (ins_all ks [] ++ [k]) l).
      rewrite ins_all_app. cbn [ins_all foldl]. by rewrite IH.
    + rewrite elem_of_ins_all. intros [?|?%elem_of_nil]; done.
Qed.

Lemma ins_all_NoDup_nil (l : list key) : NoDup l → ins_all l [] = l.
Proof.
  induction l as [|k l IH] using rev_ind; intros Hnd; [done|].
  apply NoDup_app in Hnd as (Hl & Hdisj & _). rewrite ins_all_app, IH by done.
  cbn [ins_all foldl]. apply ins_not_elem.
  intros Hk. apply (Hdisj k Hk). by left.
Qed.

Lemma uni_ins_all (a b : list key) : NoDup a → KeyVectors.uni a b = ins_all b a.
Proof.
  intros Ha. unfold KeyVectors.uni. by rewrite !foldl_push_new_ins_all, ins_all_NoDup_nil.
Qed.

Lemma get_tets_edge_fold m fs s :
  foldM (λ tets fid,
      tids ← f_co_boundary <$> find_face m fid;
      Some (foldl KeyVectors.push_new tets tids)) (set_tets s) fs
  = set_tets <$> foldM (λ s f, sf ← star_face m f; Some (set_union s sf)) s fs.
Proof.
  revert s. induction fs as [|f fs IH]; intros s; simpl; [done|].
  destruct (find_face m f) as [x|] eqn:Hx.
  - assert (star_face m f = Some (mk_set [] [] [f] (ins_all (f_co_boundary x) []))) as ->
      by (unfold star_face; by rewrite Hx).
    simpl. rewrite foldl_push_new_ins_all, <-IH. simpl. by rewrite ins_all_dedup.
  - assert (star_face m f = None) as -> by (unfold star_face; by rewrite Hx). done.
Qed.

Lemma get_tets_edge_star m e : get_tets_edge m e = set_tets <$> star_edge m e.
Proof.
  unfold get_tets_edge, star_edge. destruct (find_edge m e) as [x|]; simpl; [|done].
  by rewrite <-get_tets_edge_fold.
Qed.

Lemma get_tets_node_fold m es s :
  NoDup (set_tets s) →
  foldM (λ tets eid, te ← get_tets_edge m eid; Some (KeyVectors.uni tets te)) (set_tets s) es
  = set_tets <$> foldM (λ s e, se ← star_edge m e; Some (set_union s se)) s es.
Proof.
  revert s. induction es as [|e es IH]; intros s Hnd; simpl; [done|].
  rewrite get_tets_edge_star. destruct (star_edge m e) as [se|] eqn:Hse; simpl; [|done].
  rewrite uni_ins_all by done. rewrite <-IH; [done|]. simpl. by apply NoDup_ins_all.
Qed.

(** X12. [get_tets(e)] and [get_tets(n)] list the tetrahedra of the star of
    the edge or node: the same keys in the same order, each once, and they
    fail on exactly the same missing keys as [star] does.  A tetrahedron is
    listed for an edge iff it is in the co-boundary of a face that is in the
    co-boundary of the edge. *)
Theorem get_tets_star m e n :
  get_tets_edge m e = set_tets <$> star_edge m e ∧
  get_tets_node m n = set_tets <$> star_node m n ∧
  (∀ ts, get_tets_edge m e = Some ts →
     NoDup ts ∧ ∀ c, c ∈ ts ↔ ∃ f, linkE m e f ∧ linkF m f c) ∧
  (∀ ts, get_tets_node m n = Some ts →
     NoDup ts ∧ ∀ c, c ∈ ts ↔ ∃ e' f, linkN m n e' ∧ linkE m e' f ∧ linkF m f c).
Proof.
  assert (get_tets_node m n = set_tets <$> star_node m n) as Hn.
  { unfold get_tets_node, star_node. destruct (find_node m n) as [x|]; simpl; [|done].
    rewrite <-get_tets_node_fold; [done|]. apply NoDup_nil_2. }
  split; [apply get_tets_edge_star|]. split; [done|]. split.
  - intros ts. rewrite get_tets_edge_star.
    destruct (star_edge m e) as [st|] eqn:Hst; simpl; [|done]. intros [= <-].
    split; [by eapply star_edge_NoDup|]. intros c. by apply star_edge_tets.
  - intros ts. rewrite Hn.
    destruct (star_node m n) as [st|] eqn:Hst; simpl; [|done]. intros [= <-].
    split; [by eapply star_node_NoDup|]. intros c. by apply star_node_tets.
Qed.

(** X13. [get_faces(tids)] returns iff every tetrahedron of the vector
    exists, and then lists the faces of those tetrahedra, each face once,
    however many of the tetrahedra share it. *)
Theorem get_faces_tets_union m tids :
  (is_Some (get_faces_tets m tids) ↔ ∀ t, t ∈ tids → is_Some (find_tetrahedron m t)) ∧
  ∀ fs, get_faces_tets m tids = Some fs →
    NoDup fs ∧
    ∀ f, f ∈ fs ↔ ∃ t x, t ∈ tids ∧ find_tetrahedron m t = Some x ∧ f ∈ t_faces x.
Proof.
  unfold get_faces_tets, get_faces_tet.
  assert (∀ acc : list key, NoDup acc →
    (is_Some (foldM (λ faces tid, ft ← t_faces <$> find_tetrahedron m tid;
                       Some (KeyVectors.uni ft faces)) acc tids)
       ↔ ∀ t, t ∈ tids → is_Some (find_tetrahedron m t)) ∧
    ∀ fs, foldM (λ faces tid, ft ← t_faces <$> find_tetrahedron m tid;
                   Some (KeyVectors.uni ft faces)) acc tids = Some fs →
      NoDup fs ∧
      ∀ f, f ∈ fs ↔ f ∈ acc ∨
        ∃ t x, t ∈ tids ∧ find_tetrahedron m t = Some x ∧ f ∈ t_faces x) as H.
  { induction tids as [|t tids IH]; intros acc Hnd; simpl.
    - split; [split; [by intros _ t ?%elem_of_nil|eauto]|].
      intros fs [= <-]. split; [done|]. intros f. split; [by left|].
      intros [?|(t & x & ?%elem_of_nil & _)]; done.
    - destruct (find_tetrahedron m t) as [x|] eqn:Hx; simpl.
      + destruct (uni_NoDup_elem (t_faces x) acc) as (Hu1 & Hu2).
        destruct (IH _ Hu1) as [IH1 IH2]. split.
        * rewrite IH1. split.
          -- intros Hall t' [->|?]%elem_of_cons; [by rewrite Hx|auto].
          -- intros Hall t' Ht'. apply Hall. by right.
        * intros fs Hfs. destruct (IH2 fs Hfs) as [Hnd' Hin]. split; [done|].
          intros f. rewrite Hin, Hu2. split.
          -- intros [[?|?]|(t' & x' & ? & ? & ?)].
             ++ right. exists t, x. split; [by left|done].
             ++ by left.
             ++ right. exists t', x'. split; [by right|done].
          -- intros [?|(t' & x' & [->|?]%elem_of_cons & Hx' & ?)].
             ++ left. by right.
             ++ left. left. congruence.
             ++ right. by exists t', x'.
      + split; [|done]. split; [by intros [??]|].
        intros Hall. destruct (Hall t) as [? Hc]; [by left|]. congruence. }
  destruct (H [] (NoDup_nil_2)) as [H1 H2]. split; [done|].
  intros fs Hfs. destruct (H2 fs Hfs) as [Hnd Hin]. split; [done|].
  intros f. rewrite Hin. split; [|by right]. intros [?%elem_of_nil|?]; done.
Qed.

(** ** Look-ups through closures *)

Lemma closure_face_NoDup m f s : closure_face m f = Some s → set_NoDup s.
Proof.
  unfold closure_face. destruct (find_face m f); simpl; [|done]. intros H.
  eapply foldM_union_NoDup; [done|].
  repeat split; simpl; try apply NoDup_nil_2. apply NoDup_singleton.
Qed.

Lemma closure_tet_NoDup m t s : closure_tet m t = Some s → set_NoDup s.
Proof.
  unfold closure_tet. destruct (find_tetrahedron m t); simpl; [|done]. intros H.
  eapply foldM_union_NoDup; [done|].
  repeat split; simpl; try apply NoDup_nil_2. apply NoDup_singleton.
Qed.

Lemma keep_self (l : list key) : keep l l = l.
Proof.
  unfold keep.
  assert (∀ l' : list key, (∀ x, x ∈ l' → x ∈ l) → filter (λ x, x ∈ l) l' = l') as H.
  { induction l' as [|a l' IH]; intros Hl; [done|]. rewrite filter_cons.
    rewrite decide_True by (apply Hl; by left). f_equal. apply IH.
    intros x Hx. apply Hl. by right. }
  by apply H.
Qed.

(** The one key two duplicate-free levels have in common, or the default
    key. *)
Lemma pick_unique (l1 l2 : list key) :
  NoDup l1 →
  ∃ e, (if decide (length (keep l2 l1) ≠ 1%nat) then Some None else head (keep l2 l1))
         = Some e ∧
    (∀ e0, common2 l1 l2 e0 → (∀ y, common2 l1 l2 y → y = e0) → e = e0) ∧
    (¬ exactly_one (common2 l1 l2) → e = None) ∧
    (e ≠ None → e ∈ l1 ∧ e ∈ l2).
Proof.
  intros Hnd.
  assert (NoDup (keep l2 l1)) as Hk by (by apply NoDup_filter).
  pose proof (NoDup_length_1 _ Hk) as Hlen. case_decide as Hsz.
  - exists None. split; [done|]. split; [|done].
    intros e0 He0 Hu. exfalso. apply Hsz, Hlen. exists e0.
    split; [by apply elem_of_keep|]. intros y Hy%elem_of_keep. by apply Hu.
  - destruct Hlen as [Hex _]. destruct (Hex Hsz) as (x & Hx & Hux).
    destruct (keep l2 l1) as [|a [|??]] eqn:Hkeep; try done.
    apply list_elem_of_singleton in Hx as ->.
    assert (a ∈ keep l2 l1) as Ha by (rewrite Hkeep; by left).
    apply elem_of_keep in Ha. exists a. split; [done|]. split; [|split; [|done]].
    + intros e0 He0 Hu. by apply Hu.
    + intros Hne. exfalso. apply Hne. exists a. split; [done|].
      intros y Hy. apply elem_of_keep in Hy. rewrite Hkeep in Hy.
      by apply list_elem_of_singleton in Hy.
Qed.

(** X14. [get_edge(f1, f2)] on two existing faces always returns a key: the
    edge the two faces have in common when there is exactly one, and then
    the key is valid and names an existing edge, the default-constructed
    invalid key otherwise.  [get_face(t1, t2)] does the same with the faces
    of two tetrahedra.  Asked for a face and itself, [get_edge] returns the
    invalid key unless the face has a single edge. *)
Theorem closure_lookups_unique m f1 f2 t1 t2 cf1 cf2 ct1 ct2 :
  closure_face m f1 = Some cf1 → closure_face m f2 = Some cf2 →
  closure_tet m t1 = Some ct1 → closure_tet m t2 = Some ct2 →
  (∃ e, get_edge_faces m f1 f2 = Some e ∧
     (∀ e0, common2 (set_edges cf1) (set_edges cf2) e0 →
        (∀ y, common2 (set_edges cf1) (set_edges cf2) y → y = e0) →
        e = e0 ∧ is_Some (find_edge m e)) ∧
     (¬ exactly_one (common2 (set_edges cf1) (set_edges cf2)) → e = EdgeKey)) ∧
  (∃ f, get_face_tets m t1 t2 = Some f ∧
     (∀ f0, common2 (set_faces ct1) (set_faces ct2) f0 →
        (∀ y, common2 (set_faces ct1) (set_faces ct2) y → y = f0) →
        f = f0 ∧ is_Some (find_face m f)) ∧
     (¬ exactly_one (common2 (set_faces ct1) (set_faces ct2)) → f = FaceKey)) ∧
  (size_edges cf1 ≠ 1%nat → get_edge_faces m f1 f1 = Some EdgeKey) ∧
  (size_faces ct1 ≠ 1%nat → get_face_tets m t1 t1 = Some FaceKey).
Proof.
  intros Hf1 Hf2 Ht1 Ht2. split; [|split; [|split]].
  - unfold get_edge_faces. rewrite Hf1, Hf2. simpl.
    pose proof (closure_face_NoDup _ _ _ Hf1) as (_ & Hnd & _).
    destruct (pick_unique (set_edges cf1) (set_edges cf2) Hnd) as (e & He & Hu & Hn & _).
    exists e. split; [done|]. split; [|done].
    intros e0 He0 Huniq. specialize (Hu e0 He0 Huniq). subst e0. split; [done|].
    destruct (closure_face_down _ _ _ Hf1) as (_ & Hed & _).
    destruct (Hed e (proj1 He0)) as (x & Hx & _). eauto.
  - unfold get_face_tets. rewrite Ht1, Ht2. simpl.
    pose proof (closure_tet_NoDup _ _ _ Ht1) as (_ & _ & Hnd & _).
    destruct (pick_unique (set_faces ct1) (set_faces ct2) Hnd) as (f & Hf & Hu & Hn & _).
    exists f. split; [done|]. split; [|done].
    intros f0 Hf0 Huniq. specialize (Hu f0 Hf0 Huniq). subst f0. split; [done|].
    destruct (closure_tet_down _ _ _ Ht1) as (_ & _ & Hfa).
    destruct (Hfa f (proj1 Hf0)) as (x & Hx & _). eauto.
  - intros Hsz. unfold get_edge_faces. rewrite Hf1. simpl.
    unfold size_edges in *. simpl. rewrite keep_self. by rewrite decide_True.
  - intros Hsz. unfold get_face_tets. rewrite Ht1. simpl.
    unfold size_faces in *. simpl. rewrite keep_self. by rewrite decide_True.
Qed.

(** The keys of exactly one of two lists. *)
Lemma elem_of_exactly_one_of x (l2 l1 : list key) :
  x ∈ exactly_one_of l2 l1 ↔ (x ∈ l1 ∧ x ∉ l2) ∨ (x ∈ l2 ∧ x ∉ l1).
Proof. unfold exactly_one_of. by rewrite elem_of_app, !elem_of_drop. Qed.

Lemma exactly_one_of_sub (l2 l1 : list key) :
  (∀ x, x ∈ l2 → x ∈ l1) → exactly_one_of l2 l1 = drop l2 l1.
Proof.
  intros Hsub. unfold exactly_one_of. unfold drop at 2.
  rewrite (filter_none (λ x, x ∉ l1) l2); [by rewrite app_nil_r|].
  intros x Hx Hn. by apply Hn, Hsub.
Qed.

(** The first of them is a key of the first list, unless the first list lies
    within the second. *)
Lemma head_exactly_one_of (l2 l1 : list key) n :
  head (exactly_one_of l2 l1) = Some n →
  (n ∈ l1 ∧ n ∉ l2) ∨ (n ∈ l2 ∧ (n ∉ l1) ∧ ∀ x, x ∈ l1 → x ∈ l2).
Proof.
  unfold exactly_one_of. destruct (drop l2 l1) as [|a l] eqn:Hd; simpl.
  - intros Hn. right.
    assert (n ∈ drop l1 l2) as [H1 H2]%elem_of_drop.
    { apply head_Some in Hn as [l' ->]. by left. }
    split; [done|]. split; [done|]. intros x Hx.
    destruct (decide (x ∈ l2)) as [|Hx2]; [done|].
    assert (x ∈ drop l2 l1) as Hin by (by apply elem_of_drop).
    rewrite Hd in Hin. by apply elem_of_nil in Hin.
  - intros [= <-]. left. apply elem_of_drop. rewrite Hd. by left.
Qed.

(** The nodes of the closure of an edge are its two ends, and the closure of
    a simplex holds the closures of the simplices it lists. *)
Lemma closure_edge_nodes m e x ce n :
  find_edge m e = Some x → closure_edge m e = Some ce →
  n ∈ set_nodes ce → n ∈ e_nodes x.
Proof.
  unfold closure_edge. intros ->. simpl. intros Hfold.
  rewrite (foldM_union_proj set_nodes _ _ _ _ (λ _ _, eq_refl) Hfold). simpl.
  intros [?%elem_of_nil|(a & sa & Ha & Hsa & Hn)]; [done|].
  unfold closure_node in Hsa. destruct (find_node m a); simpl in Hsa; [|done].
  injection Hsa as <-. simpl in Hn. unfold ins in Hn. simpl in Hn.
  by apply list_elem_of_singleton in Hn as ->.
Qed.

Lemma closure_edge_within m s e ce n :
  down_closed m s → e ∈ set_edges s → closure_edge m e = Some ce →
  n ∈ set_nodes ce → n ∈ set_nodes s.
Proof.
  intros (_ & Hed & _) He Hce Hn. destruct (Hed e He) as (x & Hx & Hnodes).
  apply Hnodes. by eapply closure_edge_nodes.
Qed.

Lemma closure_face_within m s f cf n :
  down_closed m s → f ∈ set_faces s → closure_face m f = Some cf →
  n ∈ set_nodes cf → n ∈ set_nodes s.
Proof.
  intros Hs Hf Hcf. pose proof Hs as (_ & _ & Hfa).
  destruct (Hfa f Hf) as (x & Hx & Hedges).
  unfold closure_face in Hcf. rewrite Hx in Hcf. simpl in Hcf.
  rewrite (foldM_union_proj set_nodes _ _ _ _ (λ _ _, eq_refl) Hcf). simpl.
  intros [?%elem_of_nil|(e & ce & He & Hce & Hn)]; [done|].
  eapply closure_edge_within; [done|by apply Hedges|done..].
Qed.

Lemma difference_nodes_exist m s1 s2 n :
  down_closed m s1 → down_closed m s2 →
  n ∈ set_nodes (difference s1 s2) → is_Some (find_node m n).
Proof.
  intros [H1 _] [H2 _]. simpl. rewrite elem_of_exactly_one_of.
  intros [[? _]|[? _]]; auto.
Qed.

(** X15. [get_apex(t, f)] returns the first node that lies on exactly one of
    [t] and [f], an existing node: a node of [t] that is not on [f] when
    there is one, else a node of [f] that is not on [t]; it has nothing to
    return, and dereferences an end iterator, exactly when the two have the
    same nodes.  For a face [f] of [t] the node returned is a node of [t]
    off [f].  [get_apex(f, e)] does the same for a face and an edge, and
    with the assertion compiled in it returns only when that node is the
    only one. *)
Theorem get_apex_off m DEBUG t f e ct cf ce :
  closure_tet m t = Some ct → closure_face m f = Some cf → closure_edge m e = Some ce →
  (is_Some (get_apex_tet m t f) ↔
   ∃ n, (n ∈ set_nodes ct ∧ n ∉ set_nodes cf) ∨ (n ∈ set_nodes cf ∧ n ∉ set_nodes ct)) ∧
  (∀ n, get_apex_tet m t f = Some n →
     is_Some (find_node m n) ∧
     ((n ∈ set_nodes ct ∧ n ∉ set_nodes cf) ∨
      (n ∈ set_nodes cf ∧ (n ∉ set_nodes ct) ∧
       ∀ x, x ∈ set_nodes ct → x ∈ set_nodes cf))) ∧
  (f ∈ set_faces ct →
   (∀ x, x ∈ set_nodes cf → x ∈ set_nodes ct) ∧
   (is_Some (get_apex_tet m t f) ↔ ∃ n, n ∈ set_nodes ct ∧ n ∉ set_nodes cf) ∧
   ∀ n, get_apex_tet m t f = Some n → n ∈ set_nodes ct ∧ n ∉ set_nodes cf) ∧
  (∀ n, get_apex_face DEBUG m f e = Some n →
     is_Some (find_node m n) ∧
     ((n ∈ set_nodes cf ∧ n ∉ set_nodes ce) ∨
      (n ∈ set_nodes ce ∧ (n ∉ set_nodes cf) ∧
       ∀ x, x ∈ set_nodes cf → x ∈ set_nodes ce)) ∧
     (DEBUG = true →
      ∀ n', (n' ∈ set_nodes cf ∧ n' ∉ set_nodes ce) ∨
            (n' ∈ set_nodes ce ∧ n' ∉ set_nodes cf) → n' = n)) ∧
  (e ∈ set_edges cf →
   (∀ x, x ∈ set_nodes ce → x ∈ set_nodes cf) ∧
   ∀ n, get_apex_face DEBUG m f e = Some n → n ∈ set_nodes cf ∧ n ∉ set_nodes ce).
Proof.
  intros Ht Hf He.
  pose proof (closure_tet_down _ _ _ Ht) as Hdt.
  pose proof (closure_face_down _ _ _ Hf) as Hdf.
  pose proof (closure_edge_down _ _ _ He) as [Hde _].
  assert (get_apex_tet m t f = head (exactly_one_of (set_nodes cf) (set_nodes ct))) as Hat.
  { unfold get_apex_tet. by rewrite Ht, Hf. }
  assert (∀ n, get_apex_face DEBUG m f e = Some n →
            head (exactly_one_of (set_nodes ce) (set_nodes cf)) = Some n ∧
            (DEBUG = true →
             length (exactly_one_of (set_nodes ce) (set_nodes cf)) = 1%nat)) as Haf.
  { intros n. unfold get_apex_face. rewrite Hf, He. simpl.
    unfold nodes_begin, size_nodes. simpl. destruct DEBUG; simpl.
    - case_bool_decide; simpl; [|done]. done.
    - done. }
  split; [|split; [|split; [|split]]].
  - rewrite Hat. split.
    + intros [n Hn]. exists n. apply elem_of_exactly_one_of.
      apply head_Some in Hn as [l' ->]. by left.
    + intros (n & Hn%elem_of_exactly_one_of).
      destruct (exactly_one_of _ _); [by apply elem_of_nil in Hn|]. simpl. eauto.
  - intros n. rewrite Hat. intros Hn. split; [|by apply head_exactly_one_of].
    apply (difference_nodes_exist m ct cf); [done..|]. simpl.
    apply head_Some in Hn as [l' ->]. by left.
  - intros Hin.
    assert (∀ x, x ∈ set_nodes cf → x ∈ set_nodes ct) as Hsub
      by (intros x; by eapply closure_face_within).
    split; [done|]. rewrite Hat, (exactly_one_of_sub _ _ Hsub). split.
    + split.
      * intros [n Hn]. exists n. apply elem_of_drop.
        apply head_Some in Hn as [l' ->]. by left.
      * intros (n & Hn%elem_of_drop).
        destruct (drop _ _); [by apply elem_of_nil in Hn|]. simpl. eauto.
    + intros n Hn. apply elem_of_drop. apply head_Some in Hn as [l' ->]. by left.
  - intros n [Hn Hone]%Haf. split; [|split].
    + apply (difference_nodes_exist m cf ce); [done..|]. simpl.
      apply head_Some in Hn as [l' ->]. by left.
    + by apply head_exactly_one_of.
    + intros Hd n' Hn'%elem_of_exactly_one_of. specialize (Hone Hd).
      destruct (exactly_one_of (set_nodes ce) (set_nodes cf)) as [|a [|??]]; try done.
      simpl in Hn. apply list_elem_of_singleton in Hn'. congruence.
  - intros Hin.
    assert (∀ x, x ∈ set_nodes ce → x ∈ set_nodes cf) as Hsub
      by (intros x; by eapply closure_edge_within).
    split; [done|]. intros n [Hn _]%Haf. rewrite (exactly_one_of_sub _ _ Hsub) in Hn.
    apply elem_of_drop. apply head_Some in Hn as [l' ->]. by left.
Qed.

(** ** Neighbours *)

Lemma share_boundary_spec (b1 b2 : list key) :
  share_boundary b1 b2 = true ↔ ∃ k, k ∈ b1 ∧ k ∈ b2.
Proof.
  unfold share_boundary. rewrite existsb_exists. split.
  - intros (k & Hk%list_elem_of_In & Hb%bool_decide_eq_true). eauto.
  - intros (k & H1 & H2). exists k. split; [by apply list_elem_of_In|].
    by apply bool_decide_eq_true.
Qed.

Lemma share_boundary_sym (b1 b2 : list key) : share_boundary b1 b2 = share_boundary b2 b1.
Proof.
  apply eq_true_iff_eq. rewrite !share_boundary_spec. split; intros (k & ? & ?); eauto.
Qed.

Lemma share_boundary_self (b : list key) : share_boundary b b = bool_decide (b ≠ []).
Proof.
  apply eq_true_iff_eq. rewrite share_boundary_spec, bool_decide_eq_true.
  destruct b as [|a l]; split; try done.
  - intros (k & ?%elem_of_nil & _). done.
  - intros _. exists a. split; by left.
Qed.

(** X16. [is_neighbour(key1, key2)] is symmetric in its two arguments, for
    edges, faces and tetrahedra alike, failed look-ups included.  For each of
    the three kinds it returns when both simplices exist, and then says
    whether their boundaries have a key in common: two edges a node, two
    faces an edge, two tetrahedra a face.  So a simplex is a neighbour of
    itself iff its boundary is not empty. *)
Theorem is_neighbour_symmetric m k1 k2 :
  (is_neighbour_edge m k1 k2 = is_neighbour_edge m k2 k1 ∧
   is_neighbour_face m k1 k2 = is_neighbour_face m k2 k1 ∧
   is_neighbour_tet m k1 k2 = is_neighbour_tet m k2 k1) ∧
  ((∀ x1 x2, find_edge m k1 = Some x1 → find_edge m k2 = Some x2 →
      ∃ b, is_neighbour_edge m k1 k2 = Some b ∧
           (b = true ↔ ∃ n, n ∈ e_nodes x1 ∧ n ∈ e_nodes x2)) ∧
   (∀ x1 x2, find_face m k1 = Some x1 → find_face m k2 = Some x2 →
      ∃ b, is_neighbour_face m k1 k2 = Some b ∧
           (b = true ↔ ∃ e, e ∈ f_edges x1 ∧ e ∈ f_edges x2)) ∧
   (∀ x1 x2, find_tetrahedron m k1 = Some x1 → find_tetrahedron m k2 = Some x2 →
      ∃ b, is_neighbour_tet m k1 k2 = Some b ∧
           (b = true ↔ ∃ f, f ∈ t_faces x1 ∧ f ∈ t_faces x2))) ∧
  ((is_Some (is_neighbour_edge m k1 k2) ↔
      is_Some (find_edge m k1) ∧ is_Some (find_edge m k2)) ∧
   (is_Some (is_neighbour_face m k1 k2) ↔
      is_Some (find_face m k1) ∧ is_Some (find_face m k2)) ∧
   (is_Some (is_neighbour_tet m k1 k2) ↔
      is_Some (find_tetrahedron m k1) ∧ is_Some (find_tetrahedron m k2))) ∧
  ((∀ x1, find_edge m k1 = Some x1 →
      is_neighbour_edge m k1 k1 = Some (bool_decide (e_nodes x1 ≠ []))) ∧
   (∀ x1, find_face m k1 = Some x1 →
      is_neighbour_face m k1 k1 = Some (bool_decide (f_edges x1 ≠ []))) ∧
   (∀ x1, find_tetrahedron m k1 = Some x1 →
      is_neighbour_tet m k1 k1 = Some (bool_decide (t_faces x1 ≠ [])))).
Proof.
  unfold is_neighbour_edge, is_neighbour_face, is_neighbour_tet.
  split; [|split; [|split]].
  - split; [|split].
    + destruct (find_edge m k1), (find_edge m k2); simpl; try done.
      by rewrite share_boundary_sym.
    + destruct (find_face m k1), (find_face m k2); simpl; try done.
      by rewrite share_boundary_sym.
    + destruct (find_tetrahedron m k1), (find_tetrahedron m k2); simpl; try done.
      by rewrite share_boundary_sym.
  - split; [|split]; intros x1 x2 H1 H2; rewrite H1, H2; simpl;
      (eexists; split; [done|]; apply share_boundary_spec).
  - split; [|split].
    + destruct (find_edge m k1), (find_edge m k2); simpl;
        (split; [intros [? ?]|intros [[? ?] [? ?]]]); try done; eauto.
    + destruct (find_face m k1), (find_face m k2); simpl;
        (split; [intros [? ?]|intros [[? ?] [? ?]]]); try done; eauto.
    + destruct (find_tetrahedron m k1), (find_tetrahedron m k2); simpl;
        (split; [intros [? ?]|intros [[? ?] [? ?]]]); try done; eauto.
  - split; [|split]; intros x1 H1; rewrite H1; simpl; f_equal;
      apply share_boundary_self.
Qed.

Lemma on_some_boundary_touches (boundary_of : key → option (list key)) k1 (keys : list key) :
  (∀ k2, k2 ∈ keys → is_Some (boundary_of k2)) →
  on_some_boundary boundary_of k1 keys = Some (touches boundary_of keys k1).
Proof.
  induction keys as [|k2 keys IH]; intros Hall; [done|]. simpl.
  destruct (Hall k2) as [b2 Hb2]; [by left|]. rewrite Hb2. simpl.
  destruct (decide (k1 ∈ b2)) as [Hin|Hin].
  - by rewrite bool_decide_eq_true_2.
  - rewrite bool_decide_eq_false_2 by done. simpl. apply IH.
    intros k Hk. apply Hall. by right.
Qed.

Lemma is_neighbour_keys_fold (boundary_of : key → option (list key))
    (keys b : list key) (i : Z) :
  (∀ k2, k2 ∈ keys → is_Some (boundary_of k2)) →
  foldM (λ (i : Z) k1,
      hit ← on_some_boundary boundary_of k1 keys;
      Some (if hit : bool then i + 1 else i)) i b
  = Some (i + Z.of_nat (length (filter (λ k1, touches boundary_of keys k1 = true) b))).
Proof.
  intros Hall. revert i. induction b as [|k1 b IH]; intros i; simpl.
  - f_equal. lia.
  - rewrite on_some_boundary_touches by done. simpl. rewrite IH, filter_cons.
    destruct (touches boundary_of keys k1) eqn:Ht.
    + rewrite decide_True by done. simpl. f_equal. lia.
    + rewrite decide_False by done. done.
Qed.

(** X21. [is_neighbour(key, keys)], when every member of [keys] exists,
    returns true iff the number of boundary simplices of [key] that lie on
    the boundary of some member of [keys] equals the number of members.  So
    it is true for an empty vector, false when [keys] has more members than
    [key] has boundary simplices, and for a single member it is true iff the
    two simplices share exactly one boundary simplex: a simplex with more
    than one boundary simplex is no neighbour of itself. *)
Theorem is_neighbour_keys_counts (boundary_of : key → option (list key)) k
    (keys b : list key) :
  boundary_of k = Some b → (∀ k2, k2 ∈ keys → is_Some (boundary_of k2)) →
  ∃ r, is_neighbour_keys boundary_of k keys = Some r ∧
    (r = true ↔
     length (filter (λ k1, touches boundary_of keys k1 = true) b) = length keys) ∧
    (keys = [] → r = true) ∧
    (r = true → (length keys ≤ length b)%nat) ∧
    (∀ k2 b2, keys = [k2] → boundary_of k2 = Some b2 →
       (r = true ↔ length (filter (λ k1, k1 ∈ b2) b) = 1%nat)) ∧
    (keys = [k] → (r = true ↔ length b = 1%nat)).
Proof.
  intros Hb Hall. unfold is_neighbour_keys. rewrite Hb. simpl.
  rewrite is_neighbour_keys_fold by done. simpl.
  set (c := length (filter (λ k1, touches boundary_of keys k1 = true) b)).
  assert (bool_decide (0 + Z.of_nat c = Z.of_nat (length keys)) = true ↔ c = length keys)
    as Hr by (rewrite bool_decide_eq_true; lia).
  assert (∀ k2 b2, keys = [k2] → boundary_of k2 = Some b2 →
            c = length (filter (λ k1, k1 ∈ b2) b)) as Hone.
  { intros k2 b2 -> Hb2. unfold c. f_equal. apply list_filter_iff. intros k1.
    unfold touches. simpl. rewrite Hb2. simpl. rewrite orb_false_r.
    by rewrite bool_decide_eq_true. }
  eexists. split; [done|]. split; [done|]. split; [|split; [|split]].
  - intros Hk. apply Hr. unfold c. rewrite Hk. clear.
    induction b as [|a b IH]; [done|]. rewrite filter_cons. by rewrite decide_False.
  - intros Hc%Hr. rewrite <-Hc. unfold c. apply length_filter.
  - intros k2 b2 Hk Hb2. rewrite Hr, (Hone k2 b2) by done. by rewrite Hk.
  - intros Hk. rewrite Hr, (Hone k b) by done.
    rewrite (filter_all (λ k1, k1 ∈ b) b) by done. by rewrite Hk.
Qed.

(** ** Labels across a split, flags across a collapse *)

Lemma relabel_effect (lab : key → Z) (l : list (key * key)) m m' :
  foldM (λ m (it : key * key), set_label it.1 (lab it.2) m) m l = Some m' →
  NoDup l.*1 →
  same_incidence m m' ∧
  (∀ a b, (a, b) ∈ l →
     ∃ j x, a = Some j ∧ tetrahedra m !! j = Some x ∧
            tetrahedra m' !! j = Some (mk_tet (t_faces x) (lab b))) ∧
  (∀ j, Some j ∉ l.*1 → tetrahedra m' !! j = tetrahedra m !! j).
Proof.
  revert m. induction l as [|[a b] l IH]; intros m; simpl.
  - intros [= <-] _. split; [apply same_incidence_refl|]. split; [|done].
    intros a b Hin. by apply elem_of_nil in Hin.
  - destruct (set_label a (lab b) m) as [m1|] eqn:H1; simpl; [|done].
    apply set_label_effect in H1 as (i & x & cl & -> & Hx & _ & Ht & Hi & _).
    intros Hrest [Hnotin Hnd]%NoDup_cons.
    destruct (IH m1 Hrest Hnd) as (Hi' & Hin & Hout).
    split; [by eapply same_incidence_trans|]. split.
    + intros a' b' [[= -> ->]|Hab]%elem_of_cons.
      * exists i, x. split; [done|]. split; [done|].
        rewrite (Hout i Hnotin), Ht. by rewrite lookup_insert_eq.
      * destruct (Hin a' b' Hab) as (j & x1 & -> & Hx1 & Hx').
        assert (j ≠ i) as Hne.
        { intros ->. apply Hnotin. apply list_elem_of_fmap. by exists (Some i, b'). }
        exists j, x1. split; [done|]. split; [|done].
        rewrite Ht, lookup_insert_ne in Hx1 by done. done.
    + intros j Hj. rewrite Hout.
      * rewrite Ht. apply lookup_insert_ne. intros ->. apply Hj. by left.
      * intros Hin'. apply Hj. by right.
Qed.

Lemma label_table m (ts : list key) (acc tt : gmap key Z) :
  foldM (λ (tt : gmap key Z) tit, l ← get_label m tit; Some (<[tit:=l]> tt)) acc ts
    = Some tt →
  ∀ c, tt !! c = if decide (c ∈ ts) then get_label m c else acc !! c.
Proof.
  revert acc. induction ts as [|t ts IH]; intros acc; simpl.
  - intros [= <-] c. by destruct (decide (c ∈ [])) as [?%elem_of_nil|].
  - destruct (get_label m t) as [l|] eqn:Hl; simpl; [|done].
    intros Hrest c. rewrite (IH _ Hrest c).
    destruct (decide (c ∈ ts)) as [Hc|Hc], (decide (c ∈ t :: ts)) as [Hc'|Hc']; try done.
    + destruct Hc'. by right.
    + apply elem_of_cons in Hc' as [->|?]; [|done]. by rewrite lookup_insert_eq.
    + apply lookup_insert_ne. intros ->. apply Hc'. by left.
Qed.

Lemma split_relabel m mk m' (n : key) (ts : list key) (new_tets : list (key * key)) :
  (tt ← foldM (λ (tt : gmap key Z) tit, l ← get_label m tit; Some (<[tit:=l]> tt)) ∅ ts;
   m2 ← foldM (λ m (it : key * key), set_label it.1 (default 0 (tt !! it.2)) m) mk new_tets;
   st_n ← star_node m2 n;
   m3 ← update (insert_node n st_n) m2;
   Some (n, m3)) = Some (n, m') →
  NoDup new_tets.*1 →
  same_incidence mk m' ∧
  (∀ new old, (new, old) ∈ new_tets →
     is_Some (find_tetrahedron mk new) ∧
     (old ∈ ts → get_label m' new = get_label m old) ∧
     (old ∉ ts → get_label m' new = Some 0)) ∧
  (∀ c, c ∉ new_tets.*1 → find_tetrahedron m' c = find_tetrahedron mk c).
Proof.
  destruct (foldM _ ∅ ts) as [tt|] eqn:Htt; simpl; [|done].
  destruct (foldM _ mk new_tets) as [m2|] eqn:Hrel; simpl; [|done].
  destruct (star_node m2 n) as [st|]; simpl; [|done].
  destruct (update (insert_node n st) m2) as [m3|] eqn:Hup; simpl; [|done].
  intros [= <-] Hnd.
  apply (relabel_effect (λ old, default 0 (tt !! old))) in Hrel as (Hi & Hin & Hout);
    [|done].
  apply update_frame in Hup as (Ht & Hi' & _).
  pose proof (label_table _ _ _ _ Htt) as Htab.
  split; [by eapply same_incidence_trans|]. split.
  - intros new old Hno. destruct (Hin new old Hno) as (j & x & -> & Hx & Hx').
    split; [simpl; eauto|]. unfold get_label at 1 3. simpl. rewrite Ht, Hx'. simpl.
    rewrite Htab. split; intros Hold.
    + destruct (decide (old ∈ ts)); [|done].
      destruct (get_label m old) as [l|] eqn:Hl; [done|].
      exfalso. clear -Htt Hold Hl. revert Htt. generalize (∅ : gmap key Z).
      induction ts as [|t ts IH]; intros acc; [by apply elem_of_nil in Hold|]. simpl.
      apply elem_of_cons in Hold as [->|Hold]; [by rewrite Hl|].
      destruct (get_label m t); simpl; [|done]. by apply IH.
    + destruct (decide (old ∈ ts)); [done|]. by rewrite lookup_empty.
  - intros [j|] Hc; [|done]. simpl. rewrite Ht. by apply Hout.
Qed.

Section SplitHelpers.
Variable split_edge_helper :
  edge_key → Mesh vec3 → option (node_key * list (tet_key * tet_key) * Mesh vec3).
Variable split_face_helper :
  face_key → Mesh vec3 → option (node_key * list (tet_key * tet_key) * Mesh vec3).
Variable edge_collapse_helper :
  edge_key → node_key → node_key → Mesh vec3 → option (node_key * Mesh vec3).
Variable DEBUG : bool.

(** X17. Labels across [split(e)] and [split(f)], whatever the kernel helper
    does: the node returned is the helper's; every new tetrahedron the helper
    reports ends with the label that the tetrahedron it was split from had
    before the split, or with label 0 when that tetrahedron was not in the
    star of the split simplex; every other tetrahedron and every incidence
    list is as the helper left it. *)
Theorem split_inherits_labels e f m n m' :
  (split_edge split_edge_helper e m = Some (n, m') →
   ∃ st new_tets mk,
     star_edge m e = Some st ∧ split_edge_helper e m = Some (n, new_tets, mk) ∧
     (NoDup new_tets.*1 →
      same_incidence mk m' ∧
      (∀ new old, (new, old) ∈ new_tets →
         is_Some (find_tetrahedron mk new) ∧
         (old ∈ set_tets st → get_label m' new = get_label m old) ∧
         (old ∉ set_tets st → get_label m' new = Some 0)) ∧
      (∀ c, c ∉ new_tets.*1 → find_tetrahedron m' c = find_tetrahedron mk c))) ∧
  (split_face split_face_helper f m = Some (n, m') →
   ∃ st new_tets mk,
     star_face m f = Some st ∧ split_face_helper f m = Some (n, new_tets, mk) ∧
     (NoDup new_tets.*1 →
      same_incidence mk m' ∧
      (∀ new old, (new, old) ∈ new_tets →
         is_Some (find_tetrahedron mk new) ∧
         (old ∈ set_tets st → get_label m' new = get_label m old) ∧
         (old ∉ set_tets st → get_label m' new = Some 0)) ∧
      (∀ c, c ∉ new_tets.*1 → find_tetrahedron m' c = find_tetrahedron mk c))).
Proof.
  split.
  - unfold split_edge. destruct (star_edge m e) as [st|]; simpl; [|done].
    destruct (foldM _ ∅ (set_tets st)) as [tt|] eqn:Htt; simpl; [|done].
    destruct (split_edge_helper e m) as [[[n' new_tets] mk]|] eqn:Hk; simpl; [|done].
    intros Hrest. exists st, new_tets, mk.
    assert (n' = n) as ->.
    { destruct (foldM _ mk new_tets); simpl in Hrest; [|done].
      destruct (star_node _ n'); simpl in Hrest; [|done].
      destruct (update _ _); simpl in Hrest; [|done]. congruence. }
    split; [done|]. split; [done|]. intros Hnd.
    apply (split_relabel m mk m' n (set_tets st) new_tets); [|done].
    by rewrite Htt.
  - unfold split_face. destruct (star_face m f) as [st|]; simpl; [|done].
    destruct (foldM _ ∅ (set_tets st)) as [tt|] eqn:Htt; simpl; [|done].
    destruct (split_face_helper f m) as [[[n' new_tets] mk]|] eqn:Hk; simpl; [|done].
    intros Hrest. exists st, new_tets, mk.
    assert (n' = n) as ->.
    { destruct (foldM _ mk new_tets); simpl in Hrest; [|done].
      destruct (star_node _ n'); simpl in Hrest; [|done].
      destruct (update _ _); simpl in Hrest; [|done]. congruence. }
    split; [done|]. split; [done|]. intros Hnd.
    apply (split_relabel m mk m' n (set_tets st) new_tets); [|done].
    by rewrite Htt.
Qed.

(** X18. A collapse that the kernel accepts touches flags only, beyond what
    the kernel helper did: the labels and the incidence lists are the
    helper's, every simplex outside the closure of the star of the surviving
    node keeps its record, and every face, edge and node inside it ends with
    the flags of its rule. *)
Theorem collapse_accepted e m n m' :
  collapse edge_collapse_helper DEBUG e m = Some (n, m') → is_valid n = true →
  ∃ n0 n1 mk st cl,
    edge_collapse_helper e n0 n1 m = Some (n, mk) ∧
    star_node mk n = Some st ∧ closure_set mk st = Some cl ∧
    tetrahedra m' = tetrahedra mk ∧ same_incidence mk m' ∧
    (∀ k, k ∉ set_nodes cl → find_node m' k = find_node mk k) ∧
    (∀ k, k ∉ set_edges cl → find_edge m' k = find_edge mk k) ∧
    (∀ k, k ∉ set_faces cl → find_face m' k = find_face mk k) ∧
    (∀ k, k ∈ set_faces cl → face_rule m' k) ∧
    (∀ k, k ∈ set_edges cl → edge_rule m' k) ∧
    (∀ k, k ∈ set_nodes cl → node_rule m' k).
Proof.
  unfold collapse. destruct (get_nodes_edge m e) as [ns|]; simpl; [|done].
  destruct (ns !! 0%nat) as [n0|]; simpl; [|done].
  destruct (ns !! 1%nat) as [n1|]; simpl; [|done].
  destruct (if DEBUG then _ else _); simpl; [|done].
  destruct (edge_collapse_helper e n0 n1 m) as [[n' mk]|] eqn:Hk; simpl; [|done].
  destruct (is_valid n') eqn:Hv; simpl.
  - destruct (star_node mk n') as [st|] eqn:Hst; simpl; [|done].
    destruct (closure_set mk st) as [cl|] eqn:Hcl; simpl; [|done].
    destruct (update cl mk) as [m3|] eqn:Hup; simpl; [|done].
    intros [= -> ->] _. exists n0, n1, mk, st, cl. do 3 (split; [done|]).
    pose proof (update_frame _ _ _ Hup) as (Ht & Hi & Hn & He & Hf).
    destruct (update_fixed _ _ _ Hup) as (Hff & Hfe & Hfn).
    split; [done|]. split; [done|].
    split; [intros [j|] Hj; simpl; auto|].
    split; [intros [j|] Hj; simpl; auto|].
    split; [intros [j|] Hj; simpl; auto|].
    split; [|split].
    + intros k Hin s Hs. apply face_fixed_rule; [|done].
      apply Hff; [done|]. by eapply star_face_exists.
    + intros k Hin s Hs. apply edge_fixed_rule; [|done].
      apply Hfe; [done|]. by eapply star_edge_exists.
    + intros k Hin s Hs. apply node_fixed_rule; [|done].
      apply Hfn; [done|]. by eapply star_node_exists.
  - intros [= -> ->] Hv'. congruence.
Qed.

Lemma assert_true (b : bool) : assert b = Some () → b = true.
Proof. by destruct b. Qed.

(** X22. [flip_44(f1, f2)] returns only for two faces that have exactly one
    edge in common, an existing one; it splits that edge and collapses the
    edge from the apex of [f1] off the shared edge to the new node.  With
    the assertions compiled in, the node returned is that apex, a valid key,
    and the two faces had the same interface and boundary flags.
    [flip_22] is the same operation. *)
Theorem flip_44_shared_edge f1 f2 m n3 m' :
  flip_44 split_edge_helper edge_collapse_helper DEBUG f1 f2 m = Some (n3, m') →
  ∃ cf1 cf2 e1 ce1 n1 n2 m1 e2,
    closure_face m f1 = Some cf1 ∧ closure_face m f2 = Some cf2 ∧
    get_edge_faces m f1 f2 = Some e1 ∧ is_Some (find_edge m e1) ∧
    (∀ y, common2 (set_edges cf1) (set_edges cf2) y ↔ y = e1) ∧
    closure_edge m e1 = Some ce1 ∧
    get_apex_face DEBUG m f1 e1 = Some n1 ∧
    n1 ∈ set_nodes cf1 ∧ (n1 ∉ set_nodes ce1) ∧
    split_edge split_edge_helper e1 m = Some (n2, m1) ∧
    get_edge m1 n1 n2 = Some e2 ∧
    collapse edge_collapse_helper DEBUG e2 m1 = Some (n3, m') ∧
    (DEBUG = true →
     n3 = n1 ∧ is_valid n3 = true ∧ is_valid e2 = true ∧
     ∃ i b, is_interface_face m f1 = Some i ∧ is_interface_face m f2 = Some i ∧
            is_boundary_face m f1 = Some b ∧ is_boundary_face m f2 = Some b) ∧
    flip_22 split_edge_helper edge_collapse_helper DEBUG f1 f2 m = Some (n3, m').
Proof.
  intros H. pose proof H as H22. unfold flip_44 in H.
  destruct (if DEBUG then _ else _) as [[]|] eqn:Hpre in H; simpl in H; [|done].
  destruct (get_edge_faces m f1 f2) as [e1|] eqn:He1; simpl in H; [|done].
  destruct (get_apex_face DEBUG m f1 e1) as [n1|] eqn:Hn1; simpl in H; [|done].
  destruct (split_edge split_edge_helper e1 m) as [[n2 m1]|] eqn:Hs; simpl in H; [|done].
  destruct (get_edge m1 n1 n2) as [e2|] eqn:He2; simpl in H; [|done].
  destruct (if DEBUG then assert (is_valid e2) else Some ()) as [[]|] eqn:Hv2;
    simpl in H; [|done].
  destruct (collapse edge_collapse_helper DEBUG e2 m1) as [[n3' m2]|] eqn:Hc;
    simpl in H; [|done].
  destruct (if DEBUG then _ else _) as [[]|] eqn:Hpost in H; simpl in H; [|done].
  injection H as -> ->.
  pose proof He1 as He1'. unfold get_edge_faces in He1'.
  destruct (closure_face m f1) as [cf1|] eqn:Hcf1; simpl in He1'; [|done].
  destruct (closure_face m f2) as [cf2|] eqn:Hcf2; simpl in He1'; [|done].
  pose proof Hn1 as Hn1'. unfold get_apex_face in Hn1'. rewrite Hcf1 in Hn1'.
  simpl in Hn1'.
  destruct (closure_edge m e1) as [ce1|] eqn:Hce1; simpl in Hn1'; [|done].
  assert (is_Some (find_edge m e1)) as Hex.
  { unfold closure_edge in Hce1. destruct (find_edge m e1); [eauto|done]. }
  assert (∀ y, common2 (set_edges cf1) (set_edges cf2) y ↔ y = e1) as Huniq.
  { unfold size_edges, edges_begin in He1'. simpl in He1'.
    case_decide as Hsz; [injection He1' as <-; by destruct Hex|].
    assert (length (keep (set_edges cf2) (set_edges cf1)) = 1%nat) as Hlen
      by (destruct (decide (length (keep (set_edges cf2) (set_edges cf1)) = 1%nat));
          [done|by destruct Hsz]).
    intros y. unfold common2. rewrite <-elem_of_keep.
    destruct (keep (set_edges cf2) (set_edges cf1)) as [|a [|??]]; try done.
    simpl in He1'. injection He1' as ->. apply list_elem_of_singleton. }
  assert (n1 ∈ set_nodes cf1 ∧ n1 ∉ set_nodes ce1) as [Hin Hout].
  { assert (e1 ∈ set_edges cf1) as He1in by (by apply (Huniq e1)).
    destruct (if DEBUG then _ else _) in Hn1'; simpl in Hn1'; [|done].
    unfold nodes_begin in Hn1'. simpl in Hn1'.
    rewrite exactly_one_of_sub in Hn1'.
    - apply elem_of_drop. apply head_Some in Hn1' as [l' Hl']. rewrite Hl'. by left.
    - intros x Hx. eapply closure_edge_within; [|done..].
      by eapply closure_face_down. }
  exists cf1, cf2, e1, ce1, n1, n2, m1, e2.
  do 12 (split; [done|]). split; [|done].
  intros ->.
  destruct (is_interface_face m f1) as [i1|]; simpl in Hpre; [|done].
  destruct (is_interface_face m f2) as [i2|]; simpl in Hpre; [|done].
  destruct (assert (i1 && i2 || negb i1 && negb i2)) as [[]|] eqn:Hi; simpl in Hpre; [|done].
  destruct (is_boundary_face m f1) as [b1|]; simpl in Hpre; [|done].
  destruct (is_boundary_face m f2) as [b2|]; simpl in Hpre; [|done].
  apply assert_true in Hi, Hpre, Hv2.
  destruct (assert (is_valid n3)) as [[]|] eqn:Hv3; simpl in Hpost; [|done].
  apply assert_true in Hv3, Hpost. apply bool_decide_eq_true in Hpost.
  split; [done|]. split; [done|]. split; [done|].
  exists i1, b1. by destruct i1, i2, b1, b2.
Qed.

Variable split_tetrahedron : tet_key → Mesh vec3 → option (node_key * Mesh vec3).

(** X23. Labels and flags across [split(t)], whatever the kernel's
    [split_tetrahedron] does: the node returned is the kernel's; every
    tetrahedron in the star of that node ends with the label [t] had before
    the split and keeps the faces the kernel gave it; every other
    tetrahedron and every incidence list is as the kernel left it; and the
    new node and every face, edge and node of its star end with the flags of
    their rule. *)
Theorem split_tet_relabels t m n m' :
  split_tet split_tetrahedron t m = Some (n, m') →
  ∃ L m1 st,
    get_label m t = Some L ∧ split_tetrahedron t m = Some (n, m1) ∧
    star_node m1 n = Some st ∧ same_incidence m1 m' ∧
    (∀ c, c ∈ set_tets st →
       is_Some (find_tetrahedron m1 c) ∧ get_label m' c = Some L ∧
       t_faces <$> find_tetrahedron m' c = t_faces <$> find_tetrahedron m1 c) ∧
    (∀ c, c ∉ set_tets st → find_tetrahedron m' c = find_tetrahedron m1 c) ∧
    (∀ f, f ∈ set_faces st → face_rule m' f) ∧
    (∀ e, e ∈ set_edges st → edge_rule m' e) ∧
    (∀ k, k = n ∨ k ∈ set_nodes st → node_rule m' k).
Proof.
  unfold split_tet. destruct (get_label m t) as [L|] eqn:HL; simpl; [|done].
  destruct (split_tetrahedron t m) as [[n1 m1]|] eqn:Hk; simpl; [|done].
  destruct (star_node m1 n1) as [st|] eqn:Hst; simpl; [|done].
  destruct (foldM _ m1 (set_tets st)) as [m2|] eqn:Hlab; simpl; [|done].
  destruct (update _ m2) as [m3|] eqn:Hup; simpl; [|done]. intros [= <- <-].
  apply set_labels_effect in Hlab as (Hi & Hin & Hout & Hnone & Hdom).
  pose proof (update_frame _ _ _ Hup) as (Ht & Hi' & _).
  apply update_fixed in Hup as (Hf & He & Hn). simpl in *.
  exists L, m1, st. do 3 (split; [done|]).
  split; [by eapply same_incidence_trans|]. split; [|split; [|split; [|split]]].
  - intros [j|] Hc; [|done]. destruct (Hin j Hc) as (x & Hx & Hx').
    unfold get_label. simpl. rewrite Ht, Hx, Hx'. simpl. eauto.
  - intros [j|] Hc; [|done]. simpl. rewrite Ht. by apply Hout.
  - intros f Hin' st' Hst'. apply face_fixed_rule; [|done].
    apply Hf; [done|]. by eapply star_face_exists.
  - intros e Hin' st' Hst'. apply edge_fixed_rule; [|done].
    apply He; [done|]. by eapply star_edge_exists.
  - intros k Hkn st' Hst'. apply node_fixed_rule; [|done].
    apply Hn; [|by eapply star_node_exists].
    apply elem_of_ins. destruct Hkn as [->|Hkn]; [by left|by right].
Qed.

End SplitHelpers.

End Properties.

(** * Utilities *)

Lemma compare_from_spec i count (v1 v2 : list bool) :
  (i + count ≤ length v1)%nat → (i + count ≤ length v2)%nat →
  ∃ b, Util.compare_from i count v1 v2 = Some b ∧
    (b = true ↔
     ∃ k, (i ≤ k < i + count)%nat ∧ v1 !! k = Some false ∧ v2 !! k = Some true ∧
          ∀ j, (i ≤ j < k)%nat → v1 !! j = v2 !! j).
Proof.
  revert i. induction count as [|count IH]; intros i H1 H2; simpl.
  - exists false. split; [done|]. split; [done|]. intros (k & ? & _). lia.
  - destruct (lookup_lt_is_Some_2 v1 i) as [a Ha]; [lia|].
    destruct (lookup_lt_is_Some_2 v2 i) as [b Hb]; [lia|].
    rewrite Ha, Hb. simpl. destruct a, b; simpl.
    + destruct (IH (S i)) as (r & -> & Hr); [lia..|]. exists r. split; [done|].
      rewrite Hr. split; intros (k & Hk & Hk1 & Hk2 & Hj).
      * exists k. split; [lia|]. split; [done|]. split; [done|]. intros j Hjk.
        destruct (decide (j = i)) as [->|]; [congruence|]. apply Hj. lia.
      * exists k. destruct (decide (k = i)) as [->|]; [congruence|].
        split; [lia|]. split; [done|]. split; [done|]. intros j Hjk. apply Hj. lia.
    + exists false. split; [done|]. split; [done|]. intros (k & Hk & Hk1 & Hk2 & Hj).
      destruct (decide (k = i)) as [->|]; [congruence|].
      specialize (Hj i). rewrite Ha, Hb in Hj. discriminate Hj. lia.
    + exists true. split; [done|]. split; [|done]. intros _. exists i.
      split; [lia|]. split; [done|]. split; [done|]. intros j ?. lia.
    + destruct (IH (S i)) as (r & -> & Hr); [lia..|]. exists r. split; [done|].
      rewrite Hr. split; intros (k & Hk & Hk1 & Hk2 & Hj).
      * exists k. split; [lia|]. split; [done|]. split; [done|]. intros j Hjk.
        destruct (decide (j = i)) as [->|]; [congruence|]. apply Hj. lia.
      * exists k. destruct (decide (k = i)) as [->|]; [congruence|].
        split; [lia|]. split; [done|]. split; [done|]. intros j Hjk. apply Hj. lia.
Qed.

(** [compare(n, v1, v2)] says that [v1] comes before [v2] at the first index
    below [n] where they differ. *)
Lemma compare_true n (v1 v2 : list bool) :
  (Z.to_nat n ≤ length v1)%nat → (Z.to_nat n ≤ length v2)%nat →
  ∃ b, Util.compare n v1 v2 = Some b ∧
    (b = true ↔
     ∃ k, (k < Z.to_nat n)%nat ∧ v1 !! k = Some false ∧ v2 !! k = Some true ∧
          ∀ j, (j < k)%nat → v1 !! j = v2 !! j).
Proof.
  intros H1 H2. unfold Util.compare.
  destruct (compare_from_spec 0 (Z.to_nat n) v1 v2) as (b & Hb & Hiff); [done..|].
  exists b. split; [done|]. rewrite Hiff. split; intros (k & Hk & Hk1 & Hk2 & Hj).
  - exists k. split; [lia|]. split; [done|]. split; [done|]. intros j ?. apply Hj. lia.
  - exists k. split; [lia|]. split; [done|]. split; [done|]. intros j ?. apply Hj. lia.
Qed.

(** X19. On vectors that have at least [n] entries, [compare(n, ., .)]
    always returns and is a strict total order on the first [n] entries:
    no vector comes before itself, two vectors never come before each other,
    the order is transitive, and two vectors neither of which comes before
    the other agree on their first [n] entries.  With [n] zero or negative it
    returns false without reading anything. *)
Theorem compare_strict_order n (a b c : list bool) :
  (Z.to_nat n ≤ length a)%nat → (Z.to_nat n ≤ length b)%nat →
  (Z.to_nat n ≤ length c)%nat →
  Util.compare n a a = Some false ∧
  is_Some (Util.compare n a b) ∧
  (Util.compare n a b = Some true → Util.compare n b a = Some false) ∧
  (Util.compare n a b = Some true → Util.compare n b c = Some true →
   Util.compare n a c = Some true) ∧
  (Util.compare n a b = Some false → Util.compare n b a = Some false →
   take (Z.to_nat n) a = take (Z.to_nat n) b) ∧
  (n ≤ 0 → ∀ v1 v2, Util.compare n v1 v2 = Some false).
Proof.
  intros Ha Hb Hc.
  destruct (compare_true n a a Ha Ha) as (raa & Eaa & Haa).
  destruct (compare_true n a b Ha Hb) as (rab & Eab & Hab).
  destruct (compare_true n b a Hb Ha) as (rba & Eba & Hba).
  destruct (compare_true n b c Hb Hc) as (rbc & Ebc & Hbc).
  destruct (compare_true n a c Ha Hc) as (rac & Eac & Hac).
  rewrite Eaa, Eab, Eba, Ebc, Eac. split; [|split; [by eauto|split; [|split; [|split]]]].
  - f_equal. destruct raa; [|done]. destruct (proj1 Haa eq_refl) as (k & _ & H1 & H2 & _).
    congruence.
  - intros [= ->]. f_equal. destruct rba; [|done].
    destruct (proj1 Hab eq_refl) as (k1 & _ & H1 & H2 & Hj1).
    destruct (proj1 Hba eq_refl) as (k2 & _ & H3 & H4 & Hj2).
    destruct (lt_eq_lt_dec k1 k2) as [[Hlt | ->] | Hlt].
    + specialize (Hj2 k1 Hlt). congruence.
    + congruence.
    + specialize (Hj1 k2 Hlt). congruence.
  - intros [= ->] [= ->]. f_equal. apply Hac.
    destruct (proj1 Hab eq_refl) as (k1 & Hk1 & H1 & H2 & Hj1).
    destruct (proj1 Hbc eq_refl) as (k2 & Hk2 & H3 & H4 & Hj2).
    destruct (lt_eq_lt_dec k1 k2) as [[Hlt | ->] | Hlt].
    + exists k1. split; [done|]. split; [done|]. split.
      * rewrite <-(Hj2 k1 Hlt). done.
      * intros j Hj. rewrite (Hj1 j Hj). apply Hj2. lia.
    + congruence.
    + exists k2. split; [done|]. split; [by rewrite (Hj1 k2 Hlt)|]. split; [done|].
      intros j Hj. rewrite <-(Hj2 j Hj). apply Hj1. lia.
  - intros [= ->] [= ->].
    assert (∀ k, (k ≤ Z.to_nat n)%nat → ∀ j, (j < k)%nat → a !! j = b !! j) as Hall.
    { induction k as [|k IH]; intros Hk j Hj; [lia|].
      destruct (decide (j = k)) as [->|]; [|apply IH; lia].
      destruct (lookup_lt_is_Some_2 a k) as [x Hx]; [lia|].
      destruct (lookup_lt_is_Some_2 b k) as [y Hy]; [lia|].
      rewrite Hx, Hy. destruct x, y; try done.
      - assert (false = true) as Habs; [|done]. apply Hba. exists k.
        split; [lia|]. split; [done|]. split; [done|]. intros j ?. symmetry. apply IH; lia.
      - assert (false = true) as Habs; [|done]. apply Hab. exists k.
        split; [lia|]. split; [done|]. split; [done|]. intros j ?. apply IH; lia. }
    apply list_eq. intros j. destruct (decide (j < Z.to_nat n)%nat).
    + rewrite !lookup_take_lt by lia. apply (Hall (Z.to_nat n)); lia.
    + rewrite !lookup_take_ge by lia. done.
  - intros Hn v1 v2. unfold Util.compare. by replace (Z.to_nat n) with 0%nat by lia.
Qed.

Lemma string_app_length (s1 s2 : string) :
  String.length (s1 +:+ s2) = (String.length s1 + String.length s2)%nat.
Proof. induction s1 as [|a s1 IH]; simpl; [done|]. by rewrite IH. Qed.

Lemma pretty_N_char_ne_0 (x : N) : (0 < x < 10)%N → pretty_N_char x ≠ "0"%char.
Proof.
  intros [??]. unfold pretty_N_char. repeat case_match; try done; lia.
Qed.

(** A positive number is written without a leading zero. *)
Lemma pretty_N_go_head (x : N) s :
  (0 < x)%N → ∃ c r, pretty_N_go x s = String c r ∧ c ≠ "0"%char ∧ c ≠ "-"%char.
Proof.
  revert s. induction (N.lt_wf_0 x) as [x _ IH]; intros s Hx.
  rewrite pretty_N_go_step by done.
  destruct (decide (x < 10)%N) as [Hlt|Hge].
  - rewrite N.div_small, pretty_N_go_0 by done. rewrite N.mod_small by done.
    eexists _, _. split; [done|]. split; [by apply pretty_N_char_ne_0|].
    unfold pretty_N_char. by repeat case_match.
  - apply IH; [apply N.div_lt; lia|]. apply N.div_str_pos_iff; lia.
Qed.

Lemma pretty_N_go_length (x : N) s d :
  (0 < d)%nat → (10 ^ N.of_nat (d - 1) ≤ x < 10 ^ N.of_nat d)%N →
  String.length (pretty_N_go x s) = (d + String.length s)%nat.
Proof.
  revert x s. induction d as [|d IH]; intros x s Hd Hx; [lia|].
  replace (S d - 1)%nat with d in Hx by lia.
  assert (0 < x)%N as Hpos.
  { eapply N.lt_le_trans; [|apply Hx]. apply N.neq_0_lt_0, N.pow_nonzero. lia. }
  rewrite pretty_N_go_step by done.
  destruct d as [|d].
  - simpl in Hx. rewrite N.div_small, pretty_N_go_0 by lia. done.
  - rewrite IH; [simpl; lia|lia|].
    replace (S d - 1)%nat with d by lia.
    replace (N.of_nat (S (S d))) with (N.succ (N.of_nat (S d))) in Hx by lia.
    replace (N.of_nat (S d)) with (N.succ (N.of_nat d)) in Hx |- * by lia.
    rewrite !N.pow_succ_r' in Hx. rewrite N.pow_succ_r'.
    split.
    + apply N.div_le_lower_bound; lia.
    + apply N.Div0.div_lt_upper_bound; lia.
Qed.

Lemma pretty_Z_head (x : Z) :
  10 ≤ x → ∃ c r, pretty x = String c r ∧ c ≠ "0"%char.
Proof.
  intros Hx. destruct x as [|p|p]; try lia.
  unfold pretty, pretty_Z, pretty, pretty_positive, pretty, pretty_N.
  rewrite decide_False by done.
  destruct (pretty_N_go_head (N.pos p) "") as (c & r & -> & ? & _); [lia|]. eauto.
Qed.

Lemma pretty_Z_length (x : Z) d :
  (0 < d)%nat → 10 ^ Z.of_nat (d - 1) ≤ x < 10 ^ Z.of_nat d →
  String.length (pretty x) = d.
Proof.
  intros Hd Hx. destruct x as [|p|p]; try lia.
  unfold pretty, pretty_Z, pretty, pretty_positive, pretty, pretty_N.
  rewrite decide_False by done.
  rewrite (pretty_N_go_length _ _ d); [simpl; lia|done|].
  split; [apply N2Z.inj_le|apply N2Z.inj_lt];
    rewrite N2Z.inj_pow, nat_N_Z; simpl (Z.of_N 10); simpl (Z.of_N (N.pos p)); lia.
Qed.

Lemma pretty_Z_0_9 (x : Z) :
  0 ≤ x < 10 → String.length (pretty x) = 1%nat.
Proof.
  intros Hx. destruct (decide (x = 0)) as [->|]; [done|].
  apply (pretty_Z_length x 1); simpl; lia.
Qed.

Lemma pretty_Z_no_leading_zero (x : Z) s : 10 ≤ x → pretty x ≠ String "0" s.
Proof.
  intros Hx Heq. destruct (pretty_Z_head x Hx) as (c & r & Hc & Hne).
  rewrite Hc in Heq. congruence.
Qed.

(** X20. [concat4digits]: for a number from 0 to 9999 the result is the name
    followed by exactly four characters; for one name, different numbers
    (of any size or sign) give different strings; and a negative number is
    padded as if it had one digit, the zeros in front of the minus sign. *)
Theorem concat4digits_width_inj (name : string) (number : Z) :
  (0 ≤ number < 10000 →
   String.length (Util.concat4digits name number) = (String.length name + 4)%nat) ∧
  (∀ other, Util.concat4digits name number = Util.concat4digits name other →
            number = other) ∧
  (number < 0 →
   Util.concat4digits name number = name +:+ "000-" +:+ pretty (- number)).
Proof.
  split; [|split].
  - intros Hn. unfold Util.concat4digits. repeat case_decide;
      rewrite !string_app_length; simpl.
    + rewrite pretty_Z_0_9 by lia. lia.
    + rewrite (pretty_Z_length number 2) by (simpl; lia). lia.
    + rewrite (pretty_Z_length number 3) by (simpl; lia). lia.
    + rewrite (pretty_Z_length number 4) by (simpl; lia). lia.
  - intros other H. unfold Util.concat4digits in H.
    repeat case_decide; apply (inj (String.append name)) in H; cbv [String.append] in H;
      repeat match type of H with
             | String _ (String _ _) = String _ _ => injection H as H
             | String _ _ = String _ (String _ _) => injection H as H
             end;
      try (by apply (inj pretty));
      try (by injection H as H; apply (inj pretty));
      try (by symmetry in H; apply pretty_Z_no_leading_zero in H; [|lia]);
      try (by apply pretty_Z_no_leading_zero in H; [|lia]).
  - intros Hn. unfold Util.concat4digits. rewrite decide_True by lia.
    destruct number as [|p|p]; try lia. done.
Qed.

(** * The statements at concrete meshes *)

Lemma update_flag_face_rule_two_tets :
  ∃ m' b i,
    update_flag_face (Some 0%nat) two_tets_mesh = Some m' ∧ same_topology two_tets_mesh m' ∧
    is_boundary_face m' (Some 0%nat) = Some b ∧ is_interface_face m' (Some 0%nat) = Some i ∧
    (b = true ↔ face_boundary_rule (mk_set [] [] [Some 0%nat] [Some 0%nat; Some 1%nat])) ∧
    (i = true ↔
     face_interface_rule two_tets_mesh (mk_set [] [] [Some 0%nat] [Some 0%nat; Some 1%nat])) ∧
    (∀ t0 t1, [Some 0%nat; Some 1%nat] = [t0; t1] →
       get_label two_tets_mesh t0 = Some 1 → get_label two_tets_mesh t1 = Some 2 →
       i = true ∧ b = false).
Proof.
  apply (update_flag_face_rule two_tets_mesh (Some 0%nat)
           (mk_set [] [] [Some 0%nat] [Some 0%nat; Some 1%nat])).
  - vm_compute. reflexivity.
  - right. reflexivity.
  - intros t Ht. simpl in Ht.
    apply elem_of_cons in Ht as [->|Ht]; [vm_compute; eauto|].
    apply elem_of_cons in Ht as [->|Ht]; [vm_compute; eauto|].
    by apply elem_of_nil in Ht.
Defined.

Lemma get_edge_get_face_unique_two_tets :
  let st1 := two_tets_star 1 in
  let st2 := two_tets_star 2 in
  let st3 := two_tets_star 3 in
  (∃ e, get_edge two_tets_mesh (Some 1%nat) (Some 2%nat) = Some e ∧
     (∀ e0, common2 (set_edges st1) (set_edges st2) e0 →
        (∀ y, common2 (set_edges st1) (set_edges st2) y → y = e0) →
        e = e0 ∧ is_valid e = true) ∧
     (¬ exactly_one (common2 (set_edges st1) (set_edges st2)) → e = EdgeKey)) ∧
  (∃ f, get_face two_tets_mesh (Some 1%nat) (Some 2%nat) (Some 3%nat) = Some f ∧
     (∀ f0, common3 (set_faces st1) (set_faces st2) (set_faces st3) f0 →
        (∀ y, common3 (set_faces st1) (set_faces st2) (set_faces st3) y → y = f0) →
        f = f0 ∧ is_valid f = true) ∧
     (¬ exactly_one (common3 (set_faces st1) (set_faces st2) (set_faces st3)) →
      f = FaceKey)).
Proof.
  apply (get_edge_get_face_unique two_tets_mesh (Some 1%nat) (Some 2%nat) (Some 3%nat));
    vm_compute; reflexivity.
Defined.

Lemma get_tet_other_two_tets :
  ∃ st_f t2,
    star_face two_tets_mesh (Some 0%nat) = Some st_f ∧
    get_tet two_tets_mesh (Some 0%nat) (Some 0%nat) = Some t2 ∧
    ((∃ x, x ∈ set_tets st_f ∧ x ≠ Some 0%nat) → t2 ∈ set_tets st_f ∧ t2 ≠ Some 0%nat) ∧
    ((∀ x, x ∈ set_tets st_f → x = Some 0%nat) → t2 = TetrahedronKey).
Proof.
  apply (get_tet_other two_tets_mesh (Some 0%nat) (Some 0%nat)). vm_compute. reflexivity.
Defined.

Lemma update_idempotent_two_tets :
  closed two_tets_raw ∧ is_Some (update closure_tet0 two_tets_raw) ∧
  update closure_tet0 two_tets_raw = Some two_tets_updated ∧
  two_tets_updated ≠ two_tets_raw ∧
  update closure_tet0 two_tets_updated = Some two_tets_updated.
Proof.
  assert (closed two_tets_raw) as Hc by (apply closedb_closed; vm_compute; reflexivity).
  split; [done|]. split.
  { by apply (proj1 (update_idempotent closure_tet0 two_tets_raw)). }
  split; [vm_compute; reflexivity|]. split.
  - intros E. apply (f_equal (λ m, is_interface_face m (Some 0%nat))) in E.
    vm_compute in E. discriminate E.
  - apply (proj2 (update_idempotent closure_tet0 two_tets_raw)). vm_compute. reflexivity.
Defined.

Lemma set_label_frame_two_tets :
  let m := two_tets_mesh in
  let m' := two_tets_relabelled in
  let t := Some 1%nat in
  closed m ∧ is_Some (set_label t 1 m) ∧
  set_label t 1 m = Some m' ∧
  ∃ cl,
    closure_tet m t = Some cl ∧
    get_label m' t = Some 1 ∧
    (∀ t', t' ≠ t → find_tetrahedron m' t' = find_tetrahedron m t') ∧
    t_faces <$> find_tetrahedron m' t = t_faces <$> find_tetrahedron m t ∧
    same_incidence m m' ∧
    (∀ k, k ∉ set_nodes cl → find_node m' k = find_node m k) ∧
    (∀ k, k ∉ set_edges cl → find_edge m' k = find_edge m k) ∧
    (∀ k, k ∉ set_faces cl → find_face m' k = find_face m k).
Proof.
  assert (closed two_tets_mesh) as Hc by (apply closedb_closed; vm_compute; reflexivity).
  split; [done|]. split.
  { apply (proj1 (set_label_frame (Some 1%nat) 1 two_tets_mesh)); [done|].
    vm_compute. eauto. }
  split; [vm_compute; reflexivity|].
  apply (proj2 (set_label_frame (Some 1%nat) 1 two_tets_mesh)). vm_compute. reflexivity.
Defined.

Lemma update_flag_node_rule_four_fans :
  let m := four_fans in
  let n := Some 0%nat in
  let st := four_fans_star in
  ∃ m' itf b c,
    update_flag_node n m = Some m' ∧
    same_topology m m' ∧ edges m' = edges m ∧ faces m' = faces m ∧
    (∀ j, Some j ≠ n → nodes m' !! j = nodes m !! j) ∧
    is_interface_node m' n = Some itf ∧ is_boundary_node m' n = Some b ∧
    is_crossing_node m' n = Some c ∧
    (itf = true ↔ ∃ e, e ∈ set_edges st ∧ is_interface_edge m e = Some true) ∧
    (b = true ↔ ∃ e, e ∈ set_edges st ∧ is_boundary_edge m e = Some true) ∧
    (c = true ↔
       (∃ e, e ∈ set_edges st ∧ is_crossing_edge m e = Some true) ∨
       (itf = true ∧ ¬ (∃ e, e ∈ set_edges st ∧ is_crossing_edge m e = Some true) ∧
        components_at_least m 3 (set_tets st))).
Proof.
  apply (update_flag_node_rule four_fans (Some 0%nat) four_fans_star).
  - apply closedb_closed. vm_compute. reflexivity.
  - apply two_sidedb_two_sided. vm_compute. reflexivity.
  - vm_compute. reflexivity.
Defined.

(** In [four_fans] no edge at node 0 is crossing, yet the node is: of the
    four tetrahedra of its star, 0 and 3 have a face in common, and the walk
    from 0 takes both. *)
Example four_fans_crossing :
  set_tets four_fans_star = [Some 0; Some 3; Some 1; Some 2]%nat ∧
  existsb (edge_crs four_fans) (set_edges four_fans_star) = false ∧
  connected_component 5 four_fans four_fans_star (Some 0%nat) = Some four_fans_rest ∧
  set_tets four_fans_rest = [Some 1; Some 2]%nat ∧
  crossing four_fans (Some 0%nat) = Some true ∧
  is_crossing_node four_fans (Some 0%nat) = Some true.
Proof. vm_compute. done. Qed.

(** The two of them are neighbours across face 3. *)
Example four_fans_shares_face : shares_face four_fans (Some 0%nat) (Some 3%nat).
Proof.
  split; [done|].
  destruct (find_tetrahedron four_fans (Some 0%nat)) as [x0|] eqn:H0;
    [|vm_compute in H0; discriminate H0].
  destruct (find_tetrahedron four_fans (Some 3%nat)) as [x3|] eqn:H3;
    [|vm_compute in H3; discriminate H3].
  exists x0, x3, (Some 3%nat). split; [done|]. split; [done|].
  vm_compute in H0. vm_compute in H3. injection H0 as <-. injection H3 as <-.
  simpl. repeat split; try done; set_solver.
Qed.

(** The three tetrahedra around the edge of [three_around] bear one label
    and hang together across their faces: one component, no crossing. *)
Example three_around_crossing :
  crossing three_around (Some 0%nat) = Some false ∧
  ¬ components_at_least three_around 3 [Some 0; Some 1; Some 2]%nat.
Proof.
  split; [vm_compute; reflexivity|]. intros Hcomp.
  assert (false = true) as Habs; [|discriminate Habs].
  apply (crossing_components three_around (Some 0%nat)
           (mk_set [Some 0%nat] (set_edges (default empty_set
              (star_node three_around (Some 0%nat))))
              (set_faces (default empty_set (star_node three_around (Some 0%nat))))
              [Some 0; Some 1; Some 2]%nat) false);
    [apply closedb_closed; vm_compute; reflexivity
    |apply two_sidedb_two_sided; vm_compute; reflexivity
    |vm_compute; reflexivity|vm_compute; reflexivity|exact Hcomp].
Qed.

(** In [three_fans] no edge at node 0 is crossing, yet the node is: its star
    has three components. *)
Example three_fans_crossing :
  existsb (edge_crs three_fans) (set_edges three_fans_star) = false ∧
  crossing three_fans (Some 0%nat) = Some true ∧
  is_crossing_node three_fans (Some 0%nat) = Some true.
Proof. vm_compute. done. Qed.

(** In [two_tets_mesh] the walk from node 1 finds two components. *)
Example two_tets_crossing : crossing two_tets_mesh (Some 1%nat) = Some false.
Proof. vm_compute. reflexivity. Qed.

(** Look-ups in [two_tets_mesh]: the edge between nodes 1 and 2, no edge
    between the two apexes 0 and 4, the shared face, and its other side. *)
Example two_tets_lookups :
  get_edge two_tets_mesh (Some 1%nat) (Some 2%nat) = Some (Some 0%nat) ∧
  get_edge two_tets_mesh (Some 0%nat) (Some 4%nat) = Some EdgeKey ∧
  get_face two_tets_mesh (Some 1%nat) (Some 2%nat) (Some 3%nat) = Some (Some 0%nat) ∧
  get_tet two_tets_mesh (Some 0%nat) (Some 0%nat) = Some (Some 1%nat) ∧
  get_tet two_tets_mesh (Some 0%nat) (Some 1%nat) = Some TetrahedronKey.
Proof. vm_compute. done. Qed.

Lemma collapse_refused_two_tets :
  collapse refuse_collapse true (Some 0%nat) two_tets_mesh = Some (NodeKey, two_tets_mesh) ∧
  is_valid NodeKey = false.
Proof.
  apply (collapse_refused refuse_collapse true (Some 0%nat) two_tets_mesh
           [Some 1%nat; Some 2%nat] (Some 1%nat) (Some 2%nat) NodeKey two_tets_mesh).
  - intros e' a b m0 k m0' [= _ <-] _. reflexivity.
  - vm_compute. reflexivity.
  - reflexivity.
  - reflexivity.
  - reflexivity.
  - reflexivity.
  - reflexivity.
  - reflexivity.
Defined.


Example three_around_flip :
  flip_32 report_split keep_first true three_around_edge three_around
    = Some three_around_flipped ∧
  three_around_flipped.1 = Some 2%nat ∧
  nodes_begin three_around_link = Some (Some 2%nat).
Proof. vm_compute. done. Qed.



(** * Further statements at concrete inputs *)

Lemma update_flag_edge_rule_two_tets :
  let m := two_tets_mesh in
  let e := Some 0%nat in
  let st := two_tets_edge_star in
  ∃ m' itf b c,
    update_flag_edge e m = Some m' ∧ same_topology m m' ∧
    nodes m' = nodes m ∧ faces m' = faces m ∧
    (∀ j, Some j ≠ e → edges m' !! j = edges m !! j) ∧
    is_interface_edge m' e = Some itf ∧ is_boundary_edge m' e = Some b ∧
    is_crossing_edge m' e = Some c ∧
    (itf = true ↔ ∃ f, f ∈ set_faces st ∧ is_interface_face m f = Some true) ∧
    (b = true ↔ ∃ f, f ∈ set_faces st ∧ is_boundary_face m f = Some true) ∧
    (c = true ↔ 2 < count_itf m (set_faces st)).
Proof.
  apply (update_flag_edge_rule two_tets_mesh (Some 0%nat) two_tets_edge_star).
  vm_compute. reflexivity.
Defined.

Lemma update_settles_two_tets :
  (∀ f, f ∈ set_faces closure_tet0 → face_rule two_tets_updated f) ∧
  (∀ e, e ∈ set_edges closure_tet0 → edge_rule two_tets_updated e) ∧
  (∀ n, n ∈ set_nodes closure_tet0 → node_rule two_tets_updated n).
Proof.
  apply (update_settles closure_tet0 two_tets_raw two_tets_updated).
  vm_compute. reflexivity.
Defined.

Lemma update_touches_only_its_set_two_tets :
  let s := closure_tet0 in
  let m := two_tets_raw in
  let m' := two_tets_updated in
  tetrahedra m' = tetrahedra m ∧ same_incidence m m' ∧
  (∀ k, k ∉ set_nodes s → find_node m' k = find_node m k) ∧
  (∀ k, k ∉ set_edges s → find_edge m' k = find_edge m k) ∧
  (∀ k, k ∉ set_faces s → find_face m' k = find_face m k).
Proof.
  apply (update_touches_only_its_set closure_tet0 two_tets_raw two_tets_updated).
  vm_compute. reflexivity.
Defined.

Lemma init_settles_two_tets :
  let m := two_tets_raw in
  let m' := two_tets_mesh in
  same_topology m m' ∧
  (∀ f, face_rule m' f) ∧ (∀ e, edge_rule m' e) ∧ (∀ n, node_rule m' n) ∧
  (∀ s, update s m' = Some m') ∧ init m' = Some m'.
Proof.
  apply (init_settles two_tets_raw two_tets_mesh). vm_compute. reflexivity.
Defined.

(** The flags [update] finds in the closure of tetrahedron 0 do not depend
    on whether it starts from the mesh as read or from the mesh it made. *)
Lemma update_recomputes_two_tets :
  agree_outside closure_tet0 two_tets_raw two_tets_updated ∧
  update closure_tet0 two_tets_raw = update closure_tet0 two_tets_updated.
Proof.
  assert (agree_outside closure_tet0 two_tets_raw two_tets_updated) as H.
  { apply update_agree_outside. vm_compute. reflexivity. }
  split; [exact H|]. exact (update_recomputes closure_tet0 two_tets_raw two_tets_updated H).
Defined.

Lemma set_label_last_wins_two_tets :
  set_label (Some 1%nat) 7 two_tets_relabelled = set_label (Some 1%nat) 7 two_tets_mesh.
Proof.
  apply (set_label_last_wins (Some 1%nat) 1 7 two_tets_mesh two_tets_relabelled).
  vm_compute. reflexivity.
Defined.

Lemma connected_component_takes_component_four_fans :
  let m := four_fans in
  let st := four_fans_star in
  let t := Some 0%nat in
  ∃ st',
    connected_component 5 m st t = Some st' ∧
    set_nodes st' = set_nodes st ∧ set_edges st' = set_edges st ∧
    set_faces st' = set_faces st ∧
    set_tets st' `sublist_of` set_tets st ∧
    ∀ x, x ∈ set_tets st' ↔ x ∈ set_tets st ∧ ¬ joined m (set_tets st) t x.
Proof.
  apply (connected_component_takes_component 5 four_fans four_fans_star (Some 0%nat)).
  - apply closedb_closed. vm_compute. reflexivity.
  - apply two_sidedb_two_sided. vm_compute. reflexivity.
  - apply walkable_forallb. vm_compute. reflexivity.
  - vm_compute. lia.
Defined.

Lemma crossing_counts_components_four_fans :
  ∃ b, crossing four_fans (Some 0%nat) = Some b ∧
       (b = true ↔ components_at_least four_fans 3 (set_tets four_fans_star)).
Proof.
  apply (crossing_counts_components four_fans (Some 0%nat) four_fans_star).
  - apply closedb_closed. vm_compute. reflexivity.
  - apply two_sidedb_two_sided. vm_compute. reflexivity.
  - vm_compute. reflexivity.
Defined.

Lemma closure_lookups_unique_two_tets :
  let m := two_tets_mesh in
  let f1 := Some 0%nat in
  let f2 := Some 1%nat in
  let t1 := Some 0%nat in
  let t2 := Some 1%nat in
  let cf1 := two_tets_face0 in
  let cf2 := two_tets_face1 in
  let ct1 := two_tets_tet 0 in
  let ct2 := two_tets_tet 1 in
  (∃ e, get_edge_faces m f1 f2 = Some e ∧
     (∀ e0, common2 (set_edges cf1) (set_edges cf2) e0 →
        (∀ y, common2 (set_edges cf1) (set_edges cf2) y → y = e0) →
        e = e0 ∧ is_Some (find_edge m e)) ∧
     (¬ exactly_one (common2 (set_edges cf1) (set_edges cf2)) → e = EdgeKey)) ∧
  (∃ f, get_face_tets m t1 t2 = Some f ∧
     (∀ f0, common2 (set_faces ct1) (set_faces ct2) f0 →
        (∀ y, common2 (set_faces ct1) (set_faces ct2) y → y = f0) →
        f = f0 ∧ is_Some (find_face m f)) ∧
     (¬ exactly_one (common2 (set_faces ct1) (set_faces ct2)) → f = FaceKey)) ∧
  (size_edges cf1 ≠ 1%nat → get_edge_faces m f1 f1 = Some EdgeKey) ∧
  (size_faces ct1 ≠ 1%nat → get_face_tets m t1 t1 = Some FaceKey).
Proof.
  apply (closure_lookups_unique two_tets_mesh (Some 0%nat) (Some 1%nat)
           (Some 0%nat) (Some 1%nat)); vm_compute; reflexivity.
Defined.

Lemma get_apex_off_two_tets :
  let m := two_tets_mesh in
  let t := Some 0%nat in
  let f := Some 0%nat in
  let e := Some 0%nat in
  let ct := two_tets_tet 0 in
  let cf := two_tets_face0 in
  let ce := two_tets_edge0 in
  (is_Some (get_apex_tet m t f) ↔
   ∃ n, (n ∈ set_nodes ct ∧ n ∉ set_nodes cf) ∨ (n ∈ set_nodes cf ∧ n ∉ set_nodes ct)) ∧
  (∀ n, get_apex_tet m t f = Some n →
     is_Some (find_node m n) ∧
     ((n ∈ set_nodes ct ∧ n ∉ set_nodes cf) ∨
      (n ∈ set_nodes cf ∧ (n ∉ set_nodes ct) ∧
       ∀ x, x ∈ set_nodes ct → x ∈ set_nodes cf))) ∧
  (f ∈ set_faces ct →
   (∀ x, x ∈ set_nodes cf → x ∈ set_nodes ct) ∧
   (is_Some (get_apex_tet m t f) ↔ ∃ n, n ∈ set_nodes ct ∧ n ∉ set_nodes cf) ∧
   ∀ n, get_apex_tet m t f = Some n → n ∈ set_nodes ct ∧ n ∉ set_nodes cf) ∧
  (∀ n, get_apex_face true m f e = Some n →
     is_Some (find_node m n) ∧
     ((n ∈ set_nodes cf ∧ n ∉ set_nodes ce) ∨
      (n ∈ set_nodes ce ∧ (n ∉ set_nodes cf) ∧
       ∀ x, x ∈ set_nodes cf → x ∈ set_nodes ce)) ∧
     (true = true →
      ∀ n', (n' ∈ set_nodes cf ∧ n' ∉ set_nodes ce) ∨
            (n' ∈ set_nodes ce ∧ n' ∉ set_nodes cf) → n' = n)) ∧
  (e ∈ set_edges cf →
   (∀ x, x ∈ set_nodes ce → x ∈ set_nodes cf) ∧
   ∀ n, get_apex_face true m f e = Some n → n ∈ set_nodes cf ∧ n ∉ set_nodes ce).
Proof.
  apply (get_apex_off two_tets_mesh true (Some 0%nat) (Some 0%nat) (Some 0%nat));
    vm_compute; reflexivity.
Defined.

(** The apex of tetrahedron 0 over the shared face is node 0, and the apex
    of that face over its first edge is node 3.  Taken either way round,
    the tetrahedron and its face differ in node 0. *)
Example two_tets_apex :
  get_apex_tet two_tets_mesh (Some 0%nat) (Some 0%nat) = Some (Some 0%nat) ∧
  get_apex_face true two_tets_mesh (Some 0%nat) (Some 0%nat) = Some (Some 3%nat) ∧
  set_nodes (difference (two_tets_tet 0) two_tets_face0) = [Some 0%nat] ∧
  set_nodes (difference two_tets_face0 (two_tets_tet 0)) = [Some 0%nat].
Proof. vm_compute. done. Qed.

Lemma split_inherits_labels_two_tets :
  let m := two_tets_mesh in
  let e := Some 0%nat in
  let n := two_tets_split.1 in
  let m' := two_tets_split.2 in
  ∃ st new_tets mk,
    star_edge m e = Some st ∧ report_split e m = Some (n, new_tets, mk) ∧
    (NoDup new_tets.*1 →
     same_incidence mk m' ∧
     (∀ new old, (new, old) ∈ new_tets →
        is_Some (find_tetrahedron mk new) ∧
        (old ∈ set_tets st → get_label m' new = get_label m old) ∧
        (old ∉ set_tets st → get_label m' new = Some 0)) ∧
     (∀ c, c ∉ new_tets.*1 → find_tetrahedron m' c = find_tetrahedron mk c)).
Proof.
  apply (proj1 (split_inherits_labels report_split report_split
                  (Some 0%nat) (Some 0%nat) two_tets_mesh
                  two_tets_split.1 two_tets_split.2)).
  vm_compute. reflexivity.
Defined.

(** With that stand-in, tetrahedron 1 ends with the label of tetrahedron 0. *)
Example two_tets_split_labels :
  get_label two_tets_mesh (Some 1%nat) = Some 2 ∧
  get_label two_tets_mesh (Some 0%nat) = Some 1 ∧
  get_label two_tets_split.2 (Some 1%nat) = Some 1.
Proof. vm_compute. done. Qed.

Lemma collapse_accepted_two_tets :
  let m := two_tets_raw in
  let n := two_tets_collapsed.1 in
  let m' := two_tets_collapsed.2 in
  ∃ n0 n1 mk st cl,
    keep_first (Some 0%nat) n0 n1 m = Some (n, mk) ∧
    star_node mk n = Some st ∧ closure_set mk st = Some cl ∧
    tetrahedra m' = tetrahedra mk ∧ same_incidence mk m' ∧
    (∀ k, k ∉ set_nodes cl → find_node m' k = find_node mk k) ∧
    (∀ k, k ∉ set_edges cl → find_edge m' k = find_edge mk k) ∧
    (∀ k, k ∉ set_faces cl → find_face m' k = find_face mk k) ∧
    (∀ k, k ∈ set_faces cl → face_rule m' k) ∧
    (∀ k, k ∈ set_edges cl → edge_rule m' k) ∧
    (∀ k, k ∈ set_nodes cl → node_rule m' k).
Proof.
  apply (collapse_accepted keep_first false (Some 0%nat) two_tets_raw
           two_tets_collapsed.1 two_tets_collapsed.2); vm_compute; reflexivity.
Defined.

Lemma compare_strict_order_3 :
  let a := [false; true; false] in
  let b := [true; false; false] in
  let c := [true; true; false] in
  Util.compare 3 a a = Some false ∧
  is_Some (Util.compare 3 a b) ∧
  (Util.compare 3 a b = Some true → Util.compare 3 b a = Some false) ∧
  (Util.compare 3 a b = Some true → Util.compare 3 b c = Some true →
   Util.compare 3 a c = Some true) ∧
  (Util.compare 3 a b = Some false → Util.compare 3 b a = Some false →
   take (Z.to_nat 3) a = take (Z.to_nat 3) b) ∧
  (3 ≤ 0 → ∀ v1 v2, Util.compare 3 v1 v2 = Some false).
Proof.
  apply (compare_strict_order 3 [false; true; false] [true; false; false]
           [true; true; false]); simpl; lia.
Defined.

(** The order reads the vectors from the front: the first differing entry
    decides, [false] before [true]. *)
Example compare_3 :
  Util.compare 3 [false; true; false] [true; false; false] = Some true ∧
  Util.compare 3 [true; false; false] [true; true; false] = Some true ∧
  Util.compare 3 [true; false] [true; false; true] = None.
Proof. vm_compute. done. Qed.

Lemma concat4digits_width_inj_42 :
  (0 ≤ 42 < 10000 →
   String.length (Util.concat4digits "mesh" 42) = (String.length "mesh" + 4)%nat) ∧
  (∀ other, Util.concat4digits "mesh" 42 = Util.concat4digits "mesh" other →
            42 = other) ∧
  (42 < 0 → Util.concat4digits "mesh" 42 = "mesh" +:+ "000-" +:+ pretty (- 42)).
Proof. apply (concat4digits_width_inj "mesh" 42). Defined.

Example concat4digits_values :
  Util.concat4digits "mesh" 7 = "mesh0007" ∧
  Util.concat4digits "mesh" 42 = "mesh0042" ∧
  Util.concat4digits "mesh" 12345 = "mesh12345" ∧
  Util.concat4digits "mesh" (-5) = "mesh000-5".
Proof. vm_compute. done. Qed.

Lemma is_neighbour_keys_counts_two_tets :
  let boundary_of := λ k, f_edges <$> find_face two_tets_mesh k in
  let k := Some 0%nat in
  let keys := [Some 1%nat] in
  let b := [Some 0; Some 1; Some 2]%nat in
  ∃ r, is_neighbour_faces two_tets_mesh k keys = Some r ∧
    (r = true ↔
     length (filter (λ k1, touches boundary_of keys k1 = true) b) = length keys) ∧
    (keys = [] → r = true) ∧
    (r = true → (length keys ≤ length b)%nat) ∧
    (∀ k2 b2, keys = [k2] → boundary_of k2 = Some b2 →
       (r = true ↔ length (filter (λ k1, k1 ∈ b2) b) = 1%nat)) ∧
    (keys = [k] → (r = true ↔ length b = 1%nat)).
Proof.
  apply (is_neighbour_keys_counts (λ k, f_edges <$> find_face two_tets_mesh k)
           (Some 0%nat) [Some 1%nat] [Some 0; Some 1; Some 2]%nat).
  - vm_compute. reflexivity.
  - intros k2 ->%list_elem_of_singleton. vm_compute. eauto.
Defined.

(** Two faces of a tetrahedron are neighbours of each other, by either
    overload; a face is a neighbour of itself by the two-key overload only. *)
Example two_tets_neighbours :
  is_neighbour_faces two_tets_mesh (Some 0%nat) [Some 1%nat] = Some true ∧
  is_neighbour_face two_tets_mesh (Some 0%nat) (Some 1%nat) = Some true ∧
  is_neighbour_faces two_tets_mesh (Some 0%nat) [Some 0%nat] = Some false ∧
  is_neighbour_face two_tets_mesh (Some 0%nat) (Some 0%nat) = Some true ∧
  is_neighbour_faces two_tets_mesh (Some 0%nat) [] = Some true.
Proof. vm_compute. done. Qed.

Lemma flip_44_shared_edge_two_tets :
  let m := two_tets_mesh in
  let f1 := Some 1%nat in
  let f2 := Some 2%nat in
  let n3 := two_tets_flipped.1 in
  let m' := two_tets_flipped.2 in
  ∃ cf1 cf2 e1 ce1 n1 n2 m1 e2,
    closure_face m f1 = Some cf1 ∧ closure_face m f2 = Some cf2 ∧
    get_edge_faces m f1 f2 = Some e1 ∧ is_Some (find_edge m e1) ∧
    (∀ y, common2 (set_edges cf1) (set_edges cf2) y ↔ y = e1) ∧
    closure_edge m e1 = Some ce1 ∧
    get_apex_face true m f1 e1 = Some n1 ∧
    n1 ∈ set_nodes cf1 ∧ (n1 ∉ set_nodes ce1) ∧
    split_edge report_split e1 m = Some (n2, m1) ∧
    get_edge m1 n1 n2 = Some e2 ∧
    collapse keep_first true e2 m1 = Some (n3, m') ∧
    (true = true →
     n3 = n1 ∧ is_valid n3 = true ∧ is_valid e2 = true ∧
     ∃ i b, is_interface_face m f1 = Some i ∧ is_interface_face m f2 = Some i ∧
            is_boundary_face m f1 = Some b ∧ is_boundary_face m f2 = Some b) ∧
    flip_22 report_split keep_first true f1 f2 m = Some (n3, m').
Proof.
  apply (flip_44_shared_edge report_split keep_first true (Some 1%nat) (Some 2%nat)
           two_tets_mesh two_tets_flipped.1 two_tets_flipped.2).
  vm_compute. reflexivity.
Defined.

Example two_tets_flip : two_tets_flipped.1 = Some 2%nat.
Proof. vm_compute. reflexivity. Qed.

(** [split(t)] over the 1-to-4 subdivision as the kernel, on the single
    tetrahedron of label 5. *)
Lemma split_tet_relabels_one_tet :
  let m := one_tet in
  let n := Some 4%nat in
  let m' := one_tet_split_mesh in
  ∃ L m1 st,
    get_label m (Some 0%nat) = Some L ∧
    split_tetrahedron (0, 0, 0) (Some 0%nat) m = Some (n, m1) ∧
    star_node m1 n = Some st ∧ same_incidence m1 m' ∧
    (∀ c, c ∈ set_tets st →
       is_Some (find_tetrahedron m1 c) ∧ get_label m' c = Some L ∧
       t_faces <$> find_tetrahedron m' c = t_faces <$> find_tetrahedron m1 c) ∧
    (∀ c, c ∉ set_tets st → find_tetrahedron m' c = find_tetrahedron m1 c) ∧
    (∀ f, f ∈ set_faces st → face_rule m' f) ∧
    (∀ e, e ∈ set_edges st → edge_rule m' e) ∧
    (∀ k, k = n ∨ k ∈ set_nodes st → node_rule m' k).
Proof.
  apply (split_tet_relabels (split_tetrahedron (0, 0, 0)) (Some 0%nat) one_tet
           (Some 4%nat) one_tet_split_mesh).
  vm_compute. reflexivity.
Defined.

(** The four tetrahedra around the new node bear the label 5. *)
Example one_tet_split_labels :
  one_tet_split = Some (Some 4%nat, one_tet_split_mesh) ∧
  get_label one_tet (Some 0%nat) = Some 5 ∧
  set_tets one_tet_split_star = [Some 1; Some 4; Some 3; Some 2]%nat ∧
  get_label one_tet_split_mesh <$> set_tets one_tet_split_star
    = [Some 5; Some 5; Some 5; Some 5].
Proof. vm_compute. done. Qed.
